(** * github-settings: the reconciliation engine of [pkg/github]

    A shallow embedding of [pkg/github/github.go] and
    [pkg/github/update.go], and the properties of the reconcilers
    proved over it.

    - Go structs are records, each in a module named after the struct,
      so that [label.Name] and [branch.Name] read as in the source.
    - A Go slice that is compared with [reflect.DeepEqual] is a
      [slice]: the nil slice and the empty slice are different values.
      Slices that are only ranged over and appended to are lists.
    - A Go [map[string]T] is a [gmap string T]; the order in which
      [range] visits a map is a parameter of the model.
    - Every call to the GitHub client, to go-git and to the file system
      goes through a state and error monad over an abstract remote
      world, and is recorded in a log of calls. *)

From stdpp Require Import gmap strings list fin_maps sorting.
From Stdlib Require Import ZArith.

Open Scope string_scope.
Open Scope Z_scope.
Open Scope list_scope.

(** ** Go values *)

(** A Go slice: [nil_slice] is the nil slice, [mk_slice []] the empty
    slice that is not nil. [reflect.DeepEqual] tells them apart. *)
Inductive slice (A : Type) : Type :=
| nil_slice
| mk_slice (elems : list A).
Arguments nil_slice {A}.
Arguments mk_slice {A} elems.

Definition slice_elems {A} (s : slice A) : list A :=
  match s with
  | nil_slice => []
  | mk_slice l => l
  end.

#[global] Instance slice_eq_dec {A} `{EqDecision A} : EqDecision (slice A).
Proof. solve_decision. Defined.

(** Errors: what a collaborator returned, and [errors.Wrap]. *)
Inductive error : Type :=
| external_error (text : string)
| Wrap (cause : error) (message : string).

#[global] Instance error_eq_dec : EqDecision error.
Proof. solve_decision. Defined.

(** The ways a Go function call ends: a value with a nil error, a
    non-nil error, or a run-time panic. *)
Inductive outcome (A : Type) : Type :=
| Ok (a : A)
| Err (e : error)
| Panic.
Arguments Ok {A} a.
Arguments Err {A} e.
Arguments Panic {A}.

(** What a collaborator answers: a value, or an error. *)
Inductive response (A : Type) : Type :=
| Success (a : A)
| Failure (e : error).
Arguments Success {A} a.
Arguments Failure {A} e.

(** ** The settings model (github.go, lines 24-87) *)

Module repository.
Record t : Type := mk {
  Name : string;
  Owner : string;
  Description : string;
  Homepage : string;
  DefaultBranch : string;
  Private : bool;
  HasIssues : bool;
  HasProjects : bool;
  HasPages : bool;
  HasWiki : bool;
  HasDownloads : bool;
  IsTemplate : bool;
  Archived : bool;
  AllowSquashMerge : bool;
  AllowMergeCommit : bool;
  AllowRebaseMerge : bool
}.
#[global] Instance eq_dec : EqDecision t.
Proof. solve_decision. Defined.
End repository.

Module label.
Record t : Type := mk {
  Name : string;
  Description : string;
  Color : string
}.
#[global] Instance eq_dec : EqDecision t.
Proof. solve_decision. Defined.
End label.

Module requiredApprovingReviewCount.
Record t : Type := mk {
  RequiredApprovingReviewCount : Z;
  DismissStaleReviews : bool;
  RequireCodeOwnerReviews : bool
}.
#[global] Instance eq_dec : EqDecision t.
Proof. solve_decision. Defined.
(** The zero value of the struct. *)
Definition zero : t := mk 0 false false.
End requiredApprovingReviewCount.

Module requiredStatusChecks.
Record t : Type := mk {
  Strict : bool;
  Contexts : slice string
}.
#[global] Instance eq_dec : EqDecision t.
Proof. solve_decision. Defined.
Definition zero : t := mk false nil_slice.
End requiredStatusChecks.

Module protection.
Record t : Type := mk {
  Enabled : bool;
  EnforceAdmins : bool;
  RequiredApprovingReviewCount : requiredApprovingReviewCount.t;
  RequiredStatusChecks : requiredStatusChecks.t
}.
#[global] Instance eq_dec : EqDecision t.
Proof. solve_decision. Defined.
Definition zero : t :=
  mk false false requiredApprovingReviewCount.zero requiredStatusChecks.zero.
End protection.

Module branch.
Record t : Type := mk {
  Name : string;
  Protection : protection.t
}.
#[global] Instance eq_dec : EqDecision t.
Proof. solve_decision. Defined.
End branch.

Module webhook.
Record t : Type := mk {
  ID : Z;
  URL : string;
  ContentType : string;
  Secret : string;
  Events : slice string
}.
#[global] Instance eq_dec : EqDecision t.
Proof. solve_decision. Defined.
End webhook.

Module Settings.
Record t : Type := mk {
  Repository : repository.t;
  Labels : list label.t;
  Branches : list branch.t;
  Webhooks : list webhook.t;
  Topics : slice string
}.
End Settings.

(** ** The types of go-github v28 the package uses

    A pointer field is an [option]; the generated getters ([GetName],
    [GetPrivate], ...) return the zero value of the type for a nil
    pointer. Fields the package never reads or writes are left out. *)

Module github.

Definition String (s : string) : option string := Some s.
Definition Bool (b : bool) : option bool := Some b.

Module User.
Record t : Type := mk { Login : option string }.
#[global] Instance eq_dec : EqDecision t.
Proof. solve_decision. Defined.
(** [GetLogin] has a pointer receiver and accepts nil. *)
Definition GetLogin (u : option t) : string :=
  match u with
  | Some u => default "" (Login u)
  | None => ""
  end.
End User.

Module Repository.
Record t : Type := mk {
  Name : option string;
  Owner : option User.t;
  Description : option string;
  Homepage : option string;
  DefaultBranch : option string;
  Private : option bool;
  HasIssues : option bool;
  HasProjects : option bool;
  HasPages : option bool;
  HasWiki : option bool;
  HasDownloads : option bool;
  IsTemplate : option bool;
  Archived : option bool;
  AllowSquashMerge : option bool;
  AllowMergeCommit : option bool;
  AllowRebaseMerge : option bool;
  Topics : slice string
}.
#[global] Instance eq_dec : EqDecision t.
Proof. solve_decision. Defined.
Definition GetName r := default "" (Name r).
Definition GetDescription r := default "" (Description r).
Definition GetHomepage r := default "" (Homepage r).
Definition GetDefaultBranch r := default "" (DefaultBranch r).
Definition GetPrivate r := default false (Private r).
Definition GetHasIssues r := default false (HasIssues r).
Definition GetHasProjects r := default false (HasProjects r).
Definition GetHasPages r := default false (HasPages r).
Definition GetHasWiki r := default false (HasWiki r).
Definition GetHasDownloads r := default false (HasDownloads r).
Definition GetIsTemplate r := default false (IsTemplate r).
Definition GetArchived r := default false (Archived r).
Definition GetAllowSquashMerge r := default false (AllowSquashMerge r).
Definition GetAllowMergeCommit r := default false (AllowMergeCommit r).
Definition GetAllowRebaseMerge r := default false (AllowRebaseMerge r).
End Repository.

Module Label.
Record t : Type := mk {
  Name : option string;
  Color : option string;
  Description : option string
}.
#[global] Instance eq_dec : EqDecision t.
Proof. solve_decision. Defined.
Definition GetName l := default "" (Name l).
Definition GetColor l := default "" (Color l).
Definition GetDescription l := default "" (Description l).
End Label.

Module Branch.
Record t : Type := mk {
  Name : option string;
  Protected : option bool
}.
Definition GetName b := default "" (Name b).
Definition GetProtected b := default false (Protected b).
End Branch.

Module RequiredStatusChecks.
Record t : Type := mk {
  Strict : bool;
  Contexts : slice string
}.
#[global] Instance eq_dec : EqDecision t.
Proof. solve_decision. Defined.
End RequiredStatusChecks.

Module PullRequestReviewsEnforcement.
Record t : Type := mk {
  DismissStaleReviews : bool;
  RequireCodeOwnerReviews : bool;
  RequiredApprovingReviewCount : Z
}.
End PullRequestReviewsEnforcement.

Module AdminEnforcement.
Record t : Type := mk { Enabled : bool }.
End AdminEnforcement.

Module Protection.
Record t : Type := mk {
  RequiredStatusChecks : option RequiredStatusChecks.t;
  RequiredPullRequestReviews : option PullRequestReviewsEnforcement.t;
  EnforceAdmins : option AdminEnforcement.t
}.
Definition GetEnforceAdmins (p : t) : option AdminEnforcement.t :=
  EnforceAdmins p.
End Protection.

Module PullRequestReviewsEnforcementRequest.
Record t : Type := mk {
  DismissStaleReviews : bool;
  RequireCodeOwnerReviews : bool;
  RequiredApprovingReviewCount : Z
}.
#[global] Instance eq_dec : EqDecision t.
Proof. solve_decision. Defined.
End PullRequestReviewsEnforcementRequest.

Module ProtectionRequest.
Record t : Type := mk {
  RequiredStatusChecks : option RequiredStatusChecks.t;
  RequiredPullRequestReviews : option PullRequestReviewsEnforcementRequest.t;
  EnforceAdmins : bool
}.
#[global] Instance eq_dec : EqDecision t.
Proof. solve_decision. Defined.
End ProtectionRequest.

(** A value of type [interface{}] in a hook's configuration map. *)
Inductive interface_value : Type :=
| of_string (s : string)
| of_bool (b : bool)
| of_number (n : Z).

#[global] Instance interface_value_eq_dec : EqDecision interface_value.
Proof. solve_decision. Defined.

Module Hook.
Record t : Type := mk {
  ID : option Z;
  Events : slice string;
  Active : option bool;
  Config : gmap string interface_value
}.
#[global] Instance eq_dec : EqDecision t.
Proof. solve_decision. Defined.
Definition GetID h := default 0 (ID h).
End Hook.

End github.

(** ** Calls to the collaborators

    One constructor per method the package calls on the GitHub client,
    on go-git and on the file system. [Git_DeleteRef] is the client's
    method that deletes a branch; it is listed because a property of
    the package is that it is never called. *)
Inductive call : Type :=
| ioutil_ReadFile (file : string)
| Repositories_Get (owner name : string)
| Issues_ListLabels (owner name : string)
| Repositories_ListBranches (owner name : string)
| Repositories_GetBranchProtection (owner name branchName : string)
| Repositories_ListHooks (owner name : string)
| Repositories_Edit (owner name : string) (r : github.Repository.t)
| Issues_DeleteLabel (owner name labelName : string)
| Issues_CreateLabel (owner name : string) (l : github.Label.t)
| Issues_EditLabel (owner name labelName : string) (l : github.Label.t)
| Repositories_RemoveBranchProtection (owner name branchName : string)
| Repositories_UpdateBranchProtection (owner name branchName : string)
    (preq : github.ProtectionRequest.t)
| Repositories_CreateHook (owner name : string) (h : github.Hook.t)
| Repositories_DeleteHook (owner name : string) (id : Z)
| Repositories_EditHook (owner name : string) (id : Z) (h : github.Hook.t)
| Repositories_ReplaceAllTopics (owner name : string) (topics : slice string)
| Git_DeleteRef (owner name ref : string)
| git_Clone (url : string)
| Repository_Head
| Storer_SetReference (referenceName hash : string)
| Repository_Push (refSpecs : list string).

#[global] Instance call_eq_dec : EqDecision call.
Proof. solve_decision. Defined.

(** The collaborators of the package, over an abstract world: the
    remote repository, the git working copy and the file system. A
    call may change the world and answers with a value or an error.
    All the calls that only return an error go through [invoke].
    [map_range] is the order in which Go's [range] visits a map: some
    enumeration of its entries, of which a loop takes the keys
    ([.*1]) or the values ([.*2]). *)
Class Collaborators (World : Type) : Type := {
  read_file : string → World → response string * World;
  yaml_Unmarshal : string → response Settings.t;
  get_repository :
    string → string → World → response github.Repository.t * World;
  list_labels :
    string → string → World → response (list github.Label.t) * World;
  list_branches :
    string → string → World → response (list github.Branch.t) * World;
  get_branch_protection :
    string → string → string → World → response github.Protection.t * World;
  list_hooks :
    string → string → World → response (list github.Hook.t) * World;
  head_hash : World → response string * World;
  invoke : call → World → option error * World;
  map_range : ∀ V : Type, gmap string V → list (string * V);
  map_range_perm :
    ∀ (V : Type) (m : gmap string V), map_range V m ≡ₚ map_to_list m
}.
Arguments map_range {World _ V} m.

(** ** Record updates used by the package *)

Definition protection_set_Enabled (v : bool) (p : protection.t) : protection.t :=
  protection.mk v (protection.EnforceAdmins p)
    (protection.RequiredApprovingReviewCount p)
    (protection.RequiredStatusChecks p).

Definition protection_clear_review_flags (p : protection.t) : protection.t :=
  protection.mk (protection.Enabled p) (protection.EnforceAdmins p)
    (requiredApprovingReviewCount.mk
       (requiredApprovingReviewCount.RequiredApprovingReviewCount
          (protection.RequiredApprovingReviewCount p))
       false false)
    (protection.RequiredStatusChecks p).

Definition branch_update_Protection (f : protection.t → protection.t)
    (b : branch.t) : branch.t :=
  branch.mk (branch.Name b) (f (branch.Protection b)).

Definition webhook_set_ID (id : Z) (w : webhook.t) : webhook.t :=
  webhook.mk id (webhook.URL w) (webhook.ContentType w) (webhook.Secret w)
    (webhook.Events w).

Definition webhook_set_Secret (secret : string) (w : webhook.t) : webhook.t :=
  webhook.mk (webhook.ID w) (webhook.URL w) (webhook.ContentType w) secret
    (webhook.Events w).

Definition Settings_set_Branches (bs : list branch.t) (s : Settings.t)
    : Settings.t :=
  Settings.mk (Settings.Repository s) (Settings.Labels s) bs
    (Settings.Webhooks s) (Settings.Topics s).

(** The review count of a branch entry, as the source reads it:
    [b.Protection.RequiredApprovingReviewCount.RequiredApprovingReviewCount]. *)
Definition review_count (b : branch.t) : Z :=
  requiredApprovingReviewCount.RequiredApprovingReviewCount
    (protection.RequiredApprovingReviewCount (branch.Protection b)).

Definition DismissStaleReviews (b : branch.t) : bool :=
  requiredApprovingReviewCount.DismissStaleReviews
    (protection.RequiredApprovingReviewCount (branch.Protection b)).

Definition RequireCodeOwnerReviews (b : branch.t) : bool :=
  requiredApprovingReviewCount.RequireCodeOwnerReviews
    (protection.RequiredApprovingReviewCount (branch.Protection b)).

(** The line feed the source writes as a backslash followed by n. *)
Definition LF : string := String (Ascii.ascii_of_nat 10) "".

(** ** [sort.Strings] and byte-wise string order *)

Definition string_le (s1 s2 : string) : Prop := String.leb s1 s2 = true.

#[global] Instance string_le_dec : RelDecision string_le.
Proof. intros s1 s2. unfold string_le. apply _. Defined.

(** [sort.Strings] sorts in place, in increasing byte-wise order; a nil
    slice stays nil. *)
Definition sort_Strings (s : slice string) : slice string :=
  match s with
  | nil_slice => nil_slice
  | mk_slice l => mk_slice (merge_sort string_le l)
  end.

(** [reflect.DeepEqual] on values of one type with decidable equality:
    structural equality, which on slices keeps nil and empty apart. *)
Definition DeepEqual {A} `{EqDecision A} (x y : A) : bool := bool_decide (x = y).

(** ** github.go: the parts that make no call *)

(** The client: the GitHub connection is the world, the token is kept
    for the clone URL. *)
Record Client : Type := mk_Client { token : string }.

(** [New], lines 88-101: the OAuth client it builds is the connection
    to the world; the token is kept as given. *)
Definition New (token : string) : Client := mk_Client token.

(** [fmtGithubURL], lines 312-314. *)
Definition fmtGithubURL (owner name token : string) : string :=
  "https://" +:+ token +:+ "@github.com/" +:+ owner +:+ "/" +:+ name +:+ ".git".

(** One turn of the loop of [GetSettingsFromFile], lines 118-124, at
    index [i]: [branch] is the copy [range] makes of the element, the
    assignments go to [settings.Branches[i]]. *)
Definition normalize_at (i : nat) (branches : list branch.t) : list branch.t :=
  match branches !! i with
  | None => branches
  | Some branch =>
      let branches :=
        alter (branch_update_Protection (protection_set_Enabled true)) i branches in
      if decide (review_count branch = 0)
      then alter (branch_update_Protection protection_clear_review_flags) i branches
      else branches
  end.

Definition normalize_branches (branches : list branch.t) : list branch.t :=
  foldl (λ acc i, normalize_at i acc) branches (seq 0 (length branches)).

(** ** cmd/apply.go: the flags of the [apply] command

    The anonymous struct of lines 14-17, and the defaults the flags are
    declared with, lines 40-41. *)
Module flags.
Record t : Type := mk { token : string; config : string }.
End flags.

Definition default_flags : flags.t := flags.mk "" "settings.yml".

(** ** The state and error monad of the package's calls *)

Section Engine.

Context {World : Type} `{!Collaborators World}.

(** The remote world and the calls made so far, oldest first, each
    with the error it was answered with, if any. *)
Record state : Type := mk_state {
  world : World;
  log : list (call * option error)
}.

Definition M (A : Type) : Type := state → outcome A * state.

Definition ret {A} (a : A) : M A := λ s, (Ok a, s).

Definition bind {A B} (m : M A) (k : A → M B) : M B := λ s,
  match m s with
  | (Ok a, s') => k a s'
  | (Err e, s') => (Err e, s')
  | (Panic, s') => (Panic, s')
  end.

#[global] Instance M_ret : MRet M := @ret.
#[global] Instance M_bind : MBind M := λ A B k m, bind m k.

(** A run-time panic: a failed type assertion, a nil dereference. *)
Definition panic {A} : M A := λ s, (Panic, s).

(** A call that returns a value and an error. *)
Definition ask {A} (c : call) (f : World → response A * World) : M A := λ s,
  let '(r, w) := f (world s) in
  match r with
  | Success a => (Ok a, mk_state w (log s ++ [(c, None)]))
  | Failure e => (Err e, mk_state w (log s ++ [(c, Some e)]))
  end.

(** A call of which only the error is used. *)
Definition tell (c : call) : M unit := λ s,
  let '(r, w) := invoke c (world s) in
  match r with
  | None => (Ok tt, mk_state w (log s ++ [(c, None)]))
  | Some e => (Err e, mk_state w (log s ++ [(c, Some e)]))
  end.

(** A result computed without a call. *)
Definition lift {A} (r : response A) : M A := λ s,
  (match r with Success a => Ok a | Failure e => Err e end, s).

(** [if err != nil { return errors.Wrap(err, message) }] after [m]. *)
Definition wrapping {A} (message : string) (m : M A) : M A := λ s,
  match m s with
  | (Err e, s') => (Err (Wrap e message), s')
  | r => r
  end.

(** A [for ... range] loop over a list, whose body may return early
    with an error; [acc] is what the body updates. *)
Fixpoint for_range {A S} (xs : list A) (body : A → S → M S) (acc : S) : M S :=
  match xs with
  | [] => ret acc
  | x :: xs' => acc' ← body x acc; for_range xs' body acc'
  end.

(** The same for a body that updates nothing. *)
Definition for_each {A} (xs : list A) (body : A → M unit) : M unit :=
  for_range xs (λ x _, body x) tt.

(** ** github.go *)

(** [GetSettingsFromFile], lines 104-127. *)
Definition GetSettingsFromFile (file : string) : M Settings.t :=
  content ← wrapping "Error while reading settings file"
              (ask (ioutil_ReadFile file) (read_file file));
  settings ← wrapping "Error while unmarshal settings"
               (lift (yaml_Unmarshal content));
  mret (Settings_set_Branches
          (normalize_branches (Settings.Branches settings)) settings).

(** Lines 184-192: one label of the remote as a [label]. *)
Definition label_of_github (githubLabel : github.Label.t) : label.t :=
  label.mk (github.Label.GetName githubLabel)
           (github.Label.GetDescription githubLabel)
           (github.Label.GetColor githubLabel).

(** Lines 202-235: one turn of the loop over the remote branches. The
    fields of the struct literal are evaluated in order; reading a
    field through a nil pointer panics. *)
Definition read_branch (owner name : string) (githubBranch : github.Branch.t)
    (branchesSettings : list branch.t) : M (list branch.t) :=
  if github.Branch.GetProtected githubBranch then
    githubProtection ←
      wrapping "Error while getting branch protection"
        (ask (Repositories_GetBranchProtection owner name
                (github.Branch.GetName githubBranch))
             (get_branch_protection owner name
                (github.Branch.GetName githubBranch)));
    let requiredReview :=
      match github.Protection.RequiredPullRequestReviews githubProtection with
      | Some reviews =>
          requiredApprovingReviewCount.mk
            (github.PullRequestReviewsEnforcement.RequiredApprovingReviewCount reviews)
            (github.PullRequestReviewsEnforcement.DismissStaleReviews reviews)
            (github.PullRequestReviewsEnforcement.RequireCodeOwnerReviews reviews)
      | None => requiredApprovingReviewCount.zero
      end in
    match github.Protection.GetEnforceAdmins githubProtection,
          github.Protection.RequiredStatusChecks githubProtection with
    | Some enforceAdmins, Some statusChecks =>
        mret (branchesSettings ++
              [branch.mk (github.Branch.GetName githubBranch)
                 (protection.mk true
                    (github.AdminEnforcement.Enabled enforceAdmins)
                    requiredReview
                    (requiredStatusChecks.mk
                       (github.RequiredStatusChecks.Strict statusChecks)
                       (github.RequiredStatusChecks.Contexts statusChecks)))])
    | _, _ => panic
    end
  else
    mret (branchesSettings ++
          [branch.mk (github.Branch.GetName githubBranch) protection.zero]).

(** The type assertion [hook.Config[key].(string)]: it panics on a
    missing key and on a value that is not a string. *)
Definition config_string (hook : github.Hook.t) (key : string) : M string :=
  match github.Hook.Config hook !! key with
  | Some (github.of_string s) => mret s
  | _ => panic
  end.

(** Lines 245-253: one turn of the loop over the remote hooks. *)
Definition read_hook (hook : github.Hook.t) (webhooksSettings : list webhook.t)
    : M (list webhook.t) :=
  url ← config_string hook "url";
  contentType ← config_string hook "content_type";
  secret ← config_string hook "secret";
  mret (webhooksSettings ++
        [webhook.mk (github.Hook.GetID hook) url contentType secret
           (github.Hook.Events hook)]).

(** [GetSettingsFromGithub], lines 171-278. *)
Definition GetSettingsFromGithub (client : Client) (owner name : string)
    : M Settings.t :=
  githubRepo ← wrapping "Error while getting repository from github"
                 (ask (Repositories_Get owner name) (get_repository owner name));
  githubLabels ← wrapping "Error while getting labels from github"
                   (ask (Issues_ListLabels owner name) (list_labels owner name));
  let labelSettings := label_of_github <$> githubLabels in
  githubBranches ← wrapping "Error while listing branches"
                     (ask (Repositories_ListBranches owner name)
                          (list_branches owner name));
  branchesSettings ← for_range githubBranches (read_branch owner name) [];
  hooks ← wrapping "Error getting webhooks"
            (ask (Repositories_ListHooks owner name) (list_hooks owner name));
  webhooksSettings ← for_range hooks read_hook [];
  mret (Settings.mk
          (repository.mk
             (github.Repository.GetName githubRepo)
             (github.User.GetLogin (github.Repository.Owner githubRepo))
             (github.Repository.GetDescription githubRepo)
             (github.Repository.GetHomepage githubRepo)
             (github.Repository.GetDefaultBranch githubRepo)
             (github.Repository.GetPrivate githubRepo)
             (github.Repository.GetHasIssues githubRepo)
             (github.Repository.GetHasProjects githubRepo)
             false (* HasPages: not in the struct literal, so the zero value *)
             (github.Repository.GetHasWiki githubRepo)
             (github.Repository.GetHasDownloads githubRepo)
             (github.Repository.GetIsTemplate githubRepo)
             (github.Repository.GetArchived githubRepo)
             (github.Repository.GetAllowSquashMerge githubRepo)
             (github.Repository.GetAllowMergeCommit githubRepo)
             (github.Repository.GetAllowRebaseMerge githubRepo))
          labelSettings branchesSettings webhooksSettings
          (github.Repository.Topics githubRepo)).

(** [createBranch], lines 280-310. *)
Definition createBranch (client : Client) (branches : list string)
    (url : string) : M unit :=
  wrapping "Error initializing git repository" (tell (git_Clone url));;
  headRef ← wrapping "Error getting repository head"
              (ask Repository_Head head_hash);
  for_each branches (λ branch,
    wrapping ("Error setting reference storer for branch " +:+ branch)
      (tell (Storer_SetReference ("refs/heads/" +:+ branch) headRef));;
    wrapping ("Error pushing reference for branch " +:+ branch)
      (tell (Repository_Push []))).


(** ** update.go

    The calls to [log.Print] and [log.Printf] are left out. *)

(** [updateTopicsSettings], lines 14-31. Both slices are sorted in
    place before they are compared; the call gets the sorted one. *)
Definition updateTopicsSettings (client : Client) (owner name : string)
    (githubTopics topics : slice string) : M unit :=
  let githubTopics := sort_Strings githubTopics in
  let topics := sort_Strings topics in
  if DeepEqual githubTopics topics then mret tt
  else
    wrapping ("Error updating repository topics" +:+ LF)
      (tell (Repositories_ReplaceAllTopics owner name topics)).

(** Lines 40-55: the repository sent to [Repositories.Edit]. *)
Definition edit_request (repo : repository.t) : github.Repository.t :=
  github.Repository.mk
    None None
    (github.String (repository.Description repo))
    (github.String (repository.Homepage repo))
    (github.String (repository.DefaultBranch repo))
    (github.Bool (repository.Private repo))
    (github.Bool (repository.HasIssues repo))
    (github.Bool (repository.HasProjects repo))
    (github.Bool (repository.HasPages repo))
    (github.Bool (repository.HasWiki repo))
    (github.Bool (repository.HasDownloads repo))
    (github.Bool (repository.IsTemplate repo))
    (github.Bool (repository.Archived repo))
    (github.Bool (repository.AllowSquashMerge repo))
    (github.Bool (repository.AllowMergeCommit repo))
    (github.Bool (repository.AllowRebaseMerge repo))
    nil_slice.

(** [updateRepoSettings], lines 33-62. *)
Definition updateRepoSettings (client : Client) (owner name : string)
    (githubRepo repo : repository.t) : M unit :=
  if DeepEqual githubRepo repo then mret tt
  else
    wrapping ("Error updating settings" +:+ LF)
      (tell (Repositories_Edit owner name (edit_request repo))).

(** Lines 67-71: the map of the remote labels by name; a later label
    of the same name replaces an earlier one. *)
Definition label_map (githubLabels : list label.t) : gmap string label.t :=
  foldl (λ deleteLabelMap githubLabel,
           <[label.Name githubLabel := githubLabel]> deleteLabelMap)
        ∅ githubLabels.

(** Lines 73-85: one turn of the loop over the desired labels. *)
Definition diff_label (acc : list label.t * list label.t * gmap string label.t)
    (labelSetting : label.t)
    : list label.t * list label.t * gmap string label.t :=
  let '(labelsToCreate, labelsToUpdate, deleteLabelMap) := acc in
  match deleteLabelMap !! label.Name labelSetting with
  | None => (labelsToCreate ++ [labelSetting], labelsToUpdate, deleteLabelMap)
  | Some githubLabel =>
      let deleteLabelMap := delete (label.Name labelSetting) deleteLabelMap in
      if decide (labelSetting ≠ githubLabel)
      then (labelsToCreate, labelsToUpdate ++ [labelSetting], deleteLabelMap)
      else (labelsToCreate, labelsToUpdate, deleteLabelMap)
  end.

(** Lines 65-85: [labelsToCreate], [labelsToUpdate] and what is left
    of [deleteLabelMap] when the loop ends. *)
Definition diff_labels (githubLabels labelsSettings : list label.t)
    : list label.t * list label.t * gmap string label.t :=
  foldl diff_label ([], [], label_map githubLabels) labelsSettings.

Definition github_label (l : label.t) : github.Label.t :=
  github.Label.mk (github.String (label.Name l))
                  (github.String (label.Color l))
                  (github.String (label.Description l)).

(** [updateLabels], lines 64-126. *)
Definition updateLabels (client : Client) (owner name : string)
    (githubLabels labelsSettings : list label.t) : M unit :=
  let '(labelsToCreate, labelsToUpdate, deleteLabelMap) :=
    diff_labels githubLabels labelsSettings in
  for_each (map_range deleteLabelMap).*1 (λ labelName,
    wrapping ("Error deleting a label" +:+ LF)
      (tell (Issues_DeleteLabel owner name labelName)));;
  for_each labelsToCreate (λ newLabel,
    wrapping ("Error creating a label" +:+ LF)
      (tell (Issues_CreateLabel owner name (github_label newLabel))));;
  for_each labelsToUpdate (λ updateLabel,
    wrapping ("Error updating a label" +:+ LF)
      (tell (Issues_EditLabel owner name (label.Name updateLabel)
               (github_label updateLabel)))).

(** Lines 132-134. *)
Definition branch_map (githubBranches : list branch.t) : gmap string branch.t :=
  foldl (λ deleteBranchesMap githubBranch,
           <[branch.Name githubBranch := githubBranch]> deleteBranchesMap)
        ∅ githubBranches.

(** Lines 136-156: one turn of the loop over the desired branches.
    [createBranch] is declared on a list of names and called here
    with one name. *)
Definition diff_branch (client : Client) (owner name : string)
    (branchSettings : branch.t)
    (acc : list branch.t * gmap string branch.t)
    : M (list branch.t * gmap string branch.t) :=
  let '(branchesToUpdate, deleteBranchesMap) := acc in
  match deleteBranchesMap !! branch.Name branchSettings with
  | None =>
      wrapping ("Error creating branch" +:+ LF)
        (createBranch client [branch.Name branchSettings]
           (fmtGithubURL owner name (token client)));;
      mret (branchesToUpdate ++ [branchSettings], deleteBranchesMap)
  | Some githubBranch =>
      let deleteBranchesMap :=
        delete (branch.Name branchSettings) deleteBranchesMap in
      if negb (DeepEqual githubBranch branchSettings)
      then mret (branchesToUpdate ++ [branchSettings], deleteBranchesMap)
      else mret (branchesToUpdate, deleteBranchesMap)
  end.

(** Lines 129-156: [branchesToUpdate] and what is left of
    [deleteBranchesMap] when the loop ends. *)
Definition diff_branches (client : Client) (owner name : string)
    (githubBranches branchesSettings : list branch.t)
    : M (list branch.t * gmap string branch.t) :=
  for_range branchesSettings (diff_branch client owner name)
    ([], branch_map githubBranches).

(** Lines 171-190: the request sent for one branch. *)
Definition protection_request (branchSettings : branch.t)
    : github.ProtectionRequest.t :=
  let requiredReviews :=
    if decide (review_count branchSettings = 0) then None
    else Some (github.PullRequestReviewsEnforcementRequest.mk
                 (DismissStaleReviews branchSettings)
                 (RequireCodeOwnerReviews branchSettings)
                 (review_count branchSettings)) in
  github.ProtectionRequest.mk
    (Some (github.RequiredStatusChecks.mk
             (requiredStatusChecks.Strict
                (protection.RequiredStatusChecks (branch.Protection branchSettings)))
             (requiredStatusChecks.Contexts
                (protection.RequiredStatusChecks (branch.Protection branchSettings)))))
    requiredReviews
    (protection.EnforceAdmins (branch.Protection branchSettings)).

(** [updateBranchSettings], lines 128-198. *)
Definition updateBranchSettings (client : Client) (owner name : string)
    (githubBranches branchesSettings : list branch.t) : M unit :=
  '(branchesToUpdate, deleteBranchesMap) ←
    diff_branches client owner name githubBranches branchesSettings;
  for_each (map_range deleteBranchesMap).*1 (λ branchToDelete,
    wrapping ("Error removing branch protection" +:+ LF)
      (tell (Repositories_RemoveBranchProtection owner name branchToDelete)));;
  for_each branchesToUpdate (λ branchSettings,
    wrapping ("Error updating branch protection" +:+ LF)
      (tell (Repositories_UpdateBranchProtection owner name
               (branch.Name branchSettings)
               (protection_request branchSettings)))).

(** Lines 204-206. *)
Definition webhook_map (githubWebhooks : list webhook.t)
    : gmap string webhook.t :=
  foldl (λ deleteWebhooksMap githubWebhook,
           <[webhook.URL githubWebhook := githubWebhook]> deleteWebhooksMap)
        ∅ githubWebhooks.

(** Lines 214-222 and 252-260: the hook sent on create and on edit. *)
Definition github_hook (w : webhook.t) : github.Hook.t :=
  github.Hook.mk None (webhook.Events w) (github.Bool true)
    (<["content_type" := github.of_string (webhook.ContentType w)]>
       (<["secret" := github.of_string (webhook.Secret w)]>
          (<["url" := github.of_string (webhook.URL w)]> ∅))).

(** Lines 208-237: one turn of the loop over the desired webhooks. *)
Definition diff_webhook (client : Client) (owner name : string)
    (webhookSettings : webhook.t)
    (acc : list webhook.t * gmap string webhook.t)
    : M (list webhook.t * gmap string webhook.t) :=
  let '(webhooksToUpdate, deleteWebhooksMap) := acc in
  match deleteWebhooksMap !! webhook.URL webhookSettings with
  | None =>
      wrapping ("Error creating webhook" +:+ LF)
        (tell (Repositories_CreateHook owner name (github_hook webhookSettings)));;
      mret (webhooksToUpdate, deleteWebhooksMap)
  | Some githubWebhook =>
      let deleteWebhooksMap :=
        delete (webhook.URL webhookSettings) deleteWebhooksMap in
      let webhookSettings :=
        webhook_set_ID (webhook.ID githubWebhook) webhookSettings in
      let githubWebhook :=
        webhook_set_Secret (webhook.Secret webhookSettings) githubWebhook in
      if negb (DeepEqual githubWebhook webhookSettings)
      then mret (webhooksToUpdate ++ [webhookSettings], deleteWebhooksMap)
      else mret (webhooksToUpdate, deleteWebhooksMap)
  end.

(** Lines 201-237. *)
Definition diff_webhooks (client : Client) (owner name : string)
    (githubWebhooks webhooksSettings : list webhook.t)
    : M (list webhook.t * gmap string webhook.t) :=
  for_range webhooksSettings (diff_webhook client owner name)
    ([], webhook_map githubWebhooks).

(** [updateWebhooks], lines 200-268. *)
Definition updateWebhooks (client : Client) (owner name : string)
    (githubWebhooks webhooksSettings : list webhook.t) : M unit :=
  '(webhooksToUpdate, deleteWebhooksMap) ←
    diff_webhooks client owner name githubWebhooks webhooksSettings;
  for_each (map_range deleteWebhooksMap).*2 (λ webhookToDelete,
    wrapping ("Error removing webhook" +:+ LF)
      (tell (Repositories_DeleteHook owner name (webhook.ID webhookToDelete))));;
  for_each webhooksToUpdate (λ webhookToUpdate,
    wrapping ("Error updating webhook" +:+ LF)
      (tell (Repositories_EditHook owner name (webhook.ID webhookToUpdate)
               (github_hook webhookToUpdate)))).

(** [Apply], github.go lines 130-168. *)
Definition Apply (client : Client) (settings : Settings.t) : M unit :=
  let owner := repository.Owner (Settings.Repository settings) in
  let name := repository.Name (Settings.Repository settings) in
  githubSettings ← wrapping "Error getting settings from github"
                     (GetSettingsFromGithub client owner name);
  wrapping "Error updating repository settings"
    (updateRepoSettings client owner name
       (Settings.Repository githubSettings) (Settings.Repository settings));;
  wrapping "Error updating repository labels"
    (updateLabels client owner name
       (Settings.Labels githubSettings) (Settings.Labels settings));;
  wrapping "Error updating repository branches protection"
    (updateBranchSettings client owner name
       (Settings.Branches githubSettings) (Settings.Branches settings));;
  wrapping "Error updating repository webhooks"
    (updateWebhooks client owner name
       (Settings.Webhooks githubSettings) (Settings.Webhooks settings));;
  wrapping "Error updating repository topics"
    (updateTopicsSettings client owner name
       (Settings.Topics githubSettings) (Settings.Topics settings)).

(** ** cmd/apply.go

    The [Run] of the [apply] command, lines 23-37. [log.Fatal]
    prints the error and exits the process: the run ends with that
    error. *)
Definition apply_Run (flags : flags.t) : M unit :=
  let client := New (flags.token flags) in
  settings ← GetSettingsFromFile (flags.config flags);
  Apply client settings.

End Engine.

Arguments state World : clear implicits.
Arguments M World A : clear implicits.

(** ** A simulated remote

    A small GitHub repository, git working copy and file system that
    answer the calls of the package: writes change the stored state,
    and the calls listed in [refused] are answered with an error. It
    is the world of the examples. *)

Module Sim.

Record world : Type := mk {
  files : gmap string string;
  repo : github.Repository.t;
  labels : list github.Label.t;
  branches : list github.Branch.t;
  protections : gmap string github.Protection.t;
  hooks : list github.Hook.t;
  head : string;
  staged : list string;
  refused : list call
}.

Definition or_else {A} (new old : option A) : option A :=
  match new with Some _ => new | None => old end.

Definition edit (r : github.Repository.t) (w : world) : world :=
  let old := repo w in
  mk (files w)
     (github.Repository.mk
        (github.Repository.Name old) (github.Repository.Owner old)
        (or_else (github.Repository.Description r) (github.Repository.Description old))
        (or_else (github.Repository.Homepage r) (github.Repository.Homepage old))
        (or_else (github.Repository.DefaultBranch r) (github.Repository.DefaultBranch old))
        (or_else (github.Repository.Private r) (github.Repository.Private old))
        (or_else (github.Repository.HasIssues r) (github.Repository.HasIssues old))
        (or_else (github.Repository.HasProjects r) (github.Repository.HasProjects old))
        (or_else (github.Repository.HasPages r) (github.Repository.HasPages old))
        (or_else (github.Repository.HasWiki r) (github.Repository.HasWiki old))
        (or_else (github.Repository.HasDownloads r) (github.Repository.HasDownloads old))
        (or_else (github.Repository.IsTemplate r) (github.Repository.IsTemplate old))
        (or_else (github.Repository.Archived r) (github.Repository.Archived old))
        (or_else (github.Repository.AllowSquashMerge r) (github.Repository.AllowSquashMerge old))
        (or_else (github.Repository.AllowMergeCommit r) (github.Repository.AllowMergeCommit old))
        (or_else (github.Repository.AllowRebaseMerge r) (github.Repository.AllowRebaseMerge old))
        (github.Repository.Topics old))
     (labels w) (branches w) (protections w) (hooks w) (head w) (staged w)
     (refused w).

Definition set_topics (topics : slice string) (w : world) : world :=
  let old := repo w in
  mk (files w)
     (github.Repository.mk
        (github.Repository.Name old) (github.Repository.Owner old)
        (github.Repository.Description old) (github.Repository.Homepage old)
        (github.Repository.DefaultBranch old) (github.Repository.Private old)
        (github.Repository.HasIssues old) (github.Repository.HasProjects old)
        (github.Repository.HasPages old) (github.Repository.HasWiki old)
        (github.Repository.HasDownloads old) (github.Repository.IsTemplate old)
        (github.Repository.Archived old) (github.Repository.AllowSquashMerge old)
        (github.Repository.AllowMergeCommit old)
        (github.Repository.AllowRebaseMerge old)
        (mk_slice (slice_elems topics)))
     (labels w) (branches w) (protections w) (hooks w) (head w) (staged w)
     (refused w).

Definition set_labels (ls : list github.Label.t) (w : world) : world :=
  mk (files w) (repo w) ls (branches w) (protections w) (hooks w) (head w)
     (staged w) (refused w).

Definition set_branches (bs : list github.Branch.t)
    (ps : gmap string github.Protection.t) (w : world) : world :=
  mk (files w) (repo w) (labels w) bs ps (hooks w) (head w) (staged w)
     (refused w).

Definition set_hooks (hs : list github.Hook.t) (w : world) : world :=
  mk (files w) (repo w) (labels w) (branches w) (protections w) hs (head w)
     (staged w) (refused w).

Definition set_staged (refs : list string) (w : world) : world :=
  mk (files w) (repo w) (labels w) (branches w) (protections w) (hooks w)
     (head w) refs (refused w).

Definition mark_protected (branchName : string) (v : bool)
    (b : github.Branch.t) : github.Branch.t :=
  if decide (github.Branch.GetName b = branchName)
  then github.Branch.mk (github.Branch.Name b) (Some v)
  else b.

Definition protection_of_request (preq : github.ProtectionRequest.t)
    : github.Protection.t :=
  github.Protection.mk
    (github.ProtectionRequest.RequiredStatusChecks preq)
    ((λ r, github.PullRequestReviewsEnforcement.mk
             (github.PullRequestReviewsEnforcementRequest.DismissStaleReviews r)
             (github.PullRequestReviewsEnforcementRequest.RequireCodeOwnerReviews r)
             (github.PullRequestReviewsEnforcementRequest.RequiredApprovingReviewCount r))
       <$> github.ProtectionRequest.RequiredPullRequestReviews preq)
    (Some (github.AdminEnforcement.mk
             (github.ProtectionRequest.EnforceAdmins preq))).

Definition with_ID (id : Z) (h : github.Hook.t) : github.Hook.t :=
  github.Hook.mk (Some id) (github.Hook.Events h) (github.Hook.Active h)
    (github.Hook.Config h).

Definition branch_of_ref (ref : string) : github.Branch.t :=
  github.Branch.mk
    (Some (String.substring 11 (String.length ref - 11) ref)) (Some false).

(** What a call that is not refused does to the world. *)
Definition perform (c : call) (w : world) : world :=
  match c with
  | Repositories_Edit _ _ r => edit r w
  | Issues_DeleteLabel _ _ labelName =>
      set_labels
        (filter (λ l, github.Label.GetName l ≠ labelName) (labels w)) w
  | Issues_CreateLabel _ _ l => set_labels (labels w ++ [l]) w
  | Issues_EditLabel _ _ labelName l =>
      set_labels
        ((λ x, if decide (github.Label.GetName x = labelName) then l else x)
           <$> labels w) w
  | Repositories_RemoveBranchProtection _ _ branchName =>
      set_branches (mark_protected branchName false <$> branches w)
        (delete branchName (protections w)) w
  | Repositories_UpdateBranchProtection _ _ branchName preq =>
      set_branches (mark_protected branchName true <$> branches w)
        (<[branchName := protection_of_request preq]> (protections w)) w
  | Repositories_CreateHook _ _ h =>
      set_hooks (hooks w ++ [with_ID (1 + Z.of_nat (length (hooks w))) h]) w
  | Repositories_DeleteHook _ _ id =>
      set_hooks (filter (λ h, github.Hook.GetID h ≠ id) (hooks w)) w
  | Repositories_EditHook _ _ id h =>
      set_hooks
        ((λ x, if decide (github.Hook.GetID x = id) then with_ID id h else x)
           <$> hooks w) w
  | Repositories_ReplaceAllTopics _ _ topics => set_topics topics w
  | git_Clone _ => set_staged [] w
  | Storer_SetReference ref _ => set_staged (staged w ++ [ref]) w
  | Repository_Push _ =>
      set_staged []
        (set_branches (branches w ++ (branch_of_ref <$> staged w))
           (protections w) w)
  | _ => w
  end.

Definition refusal : error := external_error "refused".

Definition answer {A} (c : call) (a : A) (w : world) : response A * world :=
  if decide (c ∈ refused w) then (Failure refusal, w) else (Success a, w).

(** The documents the simulated decoder understands. *)
Definition decode (documents : list (string * Settings.t)) (content : string)
    : response Settings.t :=
  match list_find (λ d, d.1 = content) documents with
  | Some (_, (_, s)) => Success s
  | None => Failure (external_error "yaml: unmarshal errors")
  end.

End Sim.

(** ** Notions the properties are stated with *)

(** What the loop of [GetSettingsFromFile] does to one branch entry. *)
Definition normalize_branch (b : branch.t) : branch.t :=
  let enabled := branch_update_Protection (protection_set_Enabled true) b in
  if decide (review_count b = 0)
  then branch_update_Protection protection_clear_review_flags enabled
  else enabled.

(** Two topic slices that [reflect.DeepEqual] finds equal once they are
    sorted: both nil, or both not nil with the same topics, each the
    same number of times. *)
Definition same_topics (githubTopics topics : slice string) : Prop :=
  match githubTopics, topics with
  | nil_slice, nil_slice => True
  | mk_slice a, mk_slice b => a ≡ₚ b
  | _, _ => False
  end.

(** Two lists of entities of pairwise distinct identities that hold
    the same entities, in any order. *)
Definition same_entities {T} (key : T → string) (actual desired : list T)
    : Prop :=
  NoDup (key <$> actual) ∧ NoDup (key <$> desired) ∧
  ∀ x, x ∈ actual ↔ x ∈ desired.

(** The remote webhooks are the desired ones: the same URLs, each with
    the same content type and events. *)
Definition same_webhooks (actual desired : list webhook.t) : Prop :=
  NoDup (webhook.URL <$> actual) ∧ NoDup (webhook.URL <$> desired) ∧
  (∀ d, d ∈ desired →
        ∃ g, g ∈ actual ∧ webhook.URL g = webhook.URL d ∧
             webhook.ContentType g = webhook.ContentType d ∧
             webhook.Events g = webhook.Events d) ∧
  (∀ g, g ∈ actual → webhook.URL g ∈ webhook.URL <$> desired).

(** The snapshot of the remote agrees with the desired settings. *)
Definition settled (actual desired : Settings.t) : Prop :=
  Settings.Repository actual = Settings.Repository desired ∧
  same_entities label.Name (Settings.Labels actual) (Settings.Labels desired) ∧
  same_entities branch.Name (Settings.Branches actual)
    (Settings.Branches desired) ∧
  same_webhooks (Settings.Webhooks actual) (Settings.Webhooks desired) ∧
  same_topics (Settings.Topics actual) (Settings.Topics desired).

(** The calls that change the remote repository. *)
Definition is_write (c : call) : bool :=
  match c with
  | ioutil_ReadFile _ | Repositories_Get _ _ | Issues_ListLabels _ _
  | Repositories_ListBranches _ _ | Repositories_GetBranchProtection _ _ _
  | Repositories_ListHooks _ _ | git_Clone _ | Repository_Head
  | Storer_SetReference _ _ => false
  | _ => true
  end.

(** The component a call belongs to: the Remote State Reader (and the
    loading of the file), or one of the five reconcilers. The calls to
    go-git are the Branch Materializer's. *)
Inductive resource_kind : Type :=
| Reader
| RepositoryAttributes
| Labels
| Branches
| Webhooks
| Topics.

#[global] Instance resource_kind_eq_dec : EqDecision resource_kind.
Proof. solve_decision. Defined.

Definition kind_of (c : call) : resource_kind :=
  match c with
  | ioutil_ReadFile _ | Repositories_Get _ _ | Issues_ListLabels _ _
  | Repositories_ListBranches _ _ | Repositories_GetBranchProtection _ _ _
  | Repositories_ListHooks _ _ => Reader
  | Repositories_Edit _ _ _ => RepositoryAttributes
  | Issues_DeleteLabel _ _ _ | Issues_CreateLabel _ _ _
  | Issues_EditLabel _ _ _ _ => Labels
  | Repositories_RemoveBranchProtection _ _ _
  | Repositories_UpdateBranchProtection _ _ _ _ | Git_DeleteRef _ _ _
  | git_Clone _ | Repository_Head | Storer_SetReference _ _
  | Repository_Push _ => Branches
  | Repositories_CreateHook _ _ _ | Repositories_DeleteHook _ _ _
  | Repositories_EditHook _ _ _ _ => Webhooks
  | Repositories_ReplaceAllTopics _ _ _ => Topics
  end.

(** The order in which the kinds are reconciled. *)
Definition kind_index (k : resource_kind) : nat :=
  match k with
  | Reader => 0
  | RepositoryAttributes => 1
  | Labels => 2
  | Branches => 3
  | Webhooks => 4
  | Topics => 5
  end.

Inductive operation : Type := creating | deleting | updating.

(** What a call does to an entity of its kind. For a branch, creating
    is materializing it, deleting is removing its protection and
    updating is updating its protection. *)
Definition operation_of (c : call) : option operation :=
  match c with
  | Issues_CreateLabel _ _ _ | Repositories_CreateHook _ _ _
  | git_Clone _ | Repository_Head | Storer_SetReference _ _
  | Repository_Push _ => Some creating
  | Issues_DeleteLabel _ _ _ | Repositories_DeleteHook _ _ _
  | Repositories_RemoveBranchProtection _ _ _ | Git_DeleteRef _ _ _ => Some deleting
  | Issues_EditLabel _ _ _ _ | Repositories_EditHook _ _ _ _
  | Repositories_UpdateBranchProtection _ _ _ _ | Repositories_Edit _ _ _
  | Repositories_ReplaceAllTopics _ _ _ => Some updating
  | _ => None
  end.

(** The turn of an operation within its kind, as update.go runs them:
    labels are deleted, then created, then updated; the other kinds
    create, then delete, then update. *)
Definition turn (k : resource_kind) (o : operation) : nat :=
  match k, o with
  | Labels, deleting => 0
  | Labels, creating => 1
  | _, creating => 0
  | _, deleting => 1
  | _, updating => 2
  end.

(** The turn of an operation if every kind went create, delete,
    update. *)
Definition uniform_turn (k : resource_kind) (o : operation) : nat :=
  match o with
  | creating => 0
  | deleting => 1
  | updating => 2
  end.

(** The place of a call in a run, for a given order of operations. *)
Definition position (turn : resource_kind → operation → nat) (c : call) : nat :=
  (3 * kind_index (kind_of c)
   + match operation_of c with
     | Some o => turn (kind_of c) o
     | None => 0
     end)%nat.

(** The entries of a log follow the order of kinds and of operations
    within a kind. *)
Definition in_order (turn : resource_kind → operation → nat)
    (l : list (call * option error)) : Prop :=
  StronglySorted (λ x y, (position turn x.1 ≤ position turn y.1)%nat) l.

(** The calls that would delete a branch: the client's [DeleteRef], and
    a push with a reference specification that starts with a colon. *)
Definition deletes_branch (c : call) : bool :=
  match c with
  | Git_DeleteRef _ _ _ => true
  | Repository_Push refSpecs => existsb (String.prefix ":") refSpecs
  | _ => false
  end.

(** The calls the package makes while it reconciles: every call but
    the reading of the file and the deletion of a reference, with a
    push that names no reference specification. *)
Definition issued (c : call) : bool :=
  match c with
  | ioutil_ReadFile _ | Git_DeleteRef _ _ _ => false
  | Repository_Push refSpecs => bool_decide (refSpecs = [])
  | _ => true
  end.

(** The entries are in order and their positions lie between [lo] and
    [hi]. *)
Definition ordered (turn : resource_kind → operation → nat) (lo hi : nat)
    (l : list (call * option error)) : Prop :=
  in_order turn l ∧ Forall (λ x, (lo ≤ position turn x.1 ≤ hi)%nat) l.

(** No entry of the log was answered with an error. *)
Definition clean (l : list (call * option error)) : Prop :=
  Forall (λ x, x.2 = None) l.

(** [wraps e cause]: [e] is [cause] under some layers of [errors.Wrap]. *)
Inductive wraps : error → error → Prop :=
| wraps_here e : wraps e e
| wraps_Wrap e cause message : wraps e cause → wraps (Wrap e message) cause.

(** An outcome and the entries logged on the way to it, when the first
    call that fails ends the run: an error comes from the last entry,
    and no other entry failed. *)
Definition fail_fast {A} (r : outcome A) (l : list (call * option error)) : Prop :=
  match r with
  | Err e => ∃ pre c cause, l = pre ++ [(c, Some cause)] ∧ clean pre ∧ wraps e cause
  | _ => clean l
  end.

(** The same, when the error returned is the failed call's, wrapped
    once with the message that goes with the call. *)
Definition fails_with (message : call → string) {A} (r : outcome A)
    (l : list (call * option error)) : Prop :=
  match r with
  | Ok _ => clean l
  | Err e =>
      ∃ pre c cause,
        l = pre ++ [(c, Some cause)] ∧ clean pre ∧ e = Wrap cause (message c)
  | Panic => False
  end.

(** The outcome and the entries of a loop that makes the call [f x]
    for each [x] of [xs] and wraps an error with [message]. *)
Definition told {X} (f : X → call) (message : string) (xs : list X)
    (r : outcome unit) (l : list (call * option error)) : Prop :=
  match r with
  | Ok _ => l = (λ x, (f x, None)) <$> xs
  | Err e =>
      ∃ pre x post cause,
        xs = pre ++ x :: post ∧ e = Wrap cause message ∧
        l = ((λ x, (f x, None)) <$> pre) ++ [(f x, Some cause)]
  | Panic => False
  end.

(** The message [updateLabels] wraps the error of a call with. *)
Definition label_message (c : call) : string :=
  match c with
  | Issues_DeleteLabel _ _ _ => "Error deleting a label" +:+ LF
  | Issues_CreateLabel _ _ _ => "Error creating a label" +:+ LF
  | Issues_EditLabel _ _ _ _ => "Error updating a label" +:+ LF
  | _ => ""
  end.

(** The entries of a successful run of the Branch Materializer for one
    branch, when the head of the clone is commit [hash]. *)
Definition materialized (url branchName hash : string)
    : list (call * option error) :=
  [(git_Clone url, None); (Repository_Head, None);
   (Storer_SetReference ("refs/heads/" +:+ branchName) hash, None);
   (Repository_Push [], None)].

(** The map a reconciler builds of the remote entities by identity;
    [label_map], [branch_map] and [webhook_map] are its instances. *)
Definition index {T} (key : T → string) (actual : list T) : gmap string T :=
  foldl (λ m g, <[key g := g]> m) ∅ actual.

(** No entity of [others] has the identity of [x]. *)
Definition absent_from {T} (key : T → string) (others : list T) (x : T) : Prop :=
  key x ∉ key <$> others.

(** The three sets of a diff as the specification words them: to
    create, the desired entities absent from the remote; to delete, the
    remote entities absent from the desired; to update, the desired
    entities that a remote entity of the same identity differs from. *)
Definition stated_sets {T} (key : T → string) (actual desired : list T)
    (toCreate toDelete toUpdate : list T) : Prop :=
  (∀ d, d ∈ toCreate ↔ d ∈ desired ∧ absent_from key actual d) ∧
  (∀ g, g ∈ toDelete ↔ g ∈ actual ∧ absent_from key desired g) ∧
  (∀ d, d ∈ toUpdate ↔
        d ∈ desired ∧ ∃ g, g ∈ actual ∧ key g = key d ∧ g ≠ d).

(** The shared step of the three identity-keyed reconcilers, on the
    entity [d] of the desired list: [d] is to create when its identity
    is not in the map; otherwise its identity leaves the map, and
    [adopt g d] is to update when [differs g d], where [g] is the
    remote entity of that identity. *)
Definition classify {T} (key : T → string) (differs : T → T → bool)
    (adopt : T → T → T) (acc : list T * list T * gmap string T) (d : T)
    : list T * list T * gmap string T :=
  let '(toCreate, toUpdate, m) := acc in
  match m !! key d with
  | None => (toCreate ++ [d], toUpdate, m)
  | Some g =>
      let m := delete (key d) m in
      if differs g d then (toCreate, toUpdate ++ [adopt g d], m)
      else (toCreate, toUpdate, m)
  end.

(** What [classify] records to update for [d], from the map [m]. *)
Definition changed {T} (key : T → string) (differs : T → T → bool)
    (adopt : T → T → T) (m : gmap string T) (d : T) : option T :=
  match m !! key d with
  | Some g => if differs g d then Some (adopt g d) else None
  | None => None
  end.

(** The instances of [differs] and [adopt] in update.go. *)
Definition label_differs (githubLabel labelSetting : label.t) : bool :=
  bool_decide (labelSetting ≠ githubLabel).

Definition branch_differs (githubBranch branchSettings : branch.t) : bool :=
  negb (DeepEqual githubBranch branchSettings).

Definition webhook_adopt (githubWebhook webhookSettings : webhook.t) : webhook.t :=
  webhook_set_ID (webhook.ID githubWebhook) webhookSettings.

Definition webhook_differs (githubWebhook webhookSettings : webhook.t) : bool :=
  negb (DeepEqual
          (webhook_set_Secret (webhook.Secret webhookSettings) githubWebhook)
          (webhook_adopt githubWebhook webhookSettings)).

(** The entries of the successful materializations of the branches
    [created], whose clones have the heads [hashes]. *)
Definition materializations (url : string) (created : list branch.t)
    (hashes : list string) : list (call * option error) :=
  mjoin (zip_with (λ d hash, materialized url (branch.Name d) hash)
           created hashes).

(** The call is addressed to the repository [owner]/[name]: a call of
    the GitHub client names that repository, a clone has the URL
    [url]; the calls on the clone name no repository. *)
Definition addressed (owner name url : string) (c : call) : Prop :=
  match c with
  | Repositories_Get o n | Issues_ListLabels o n | Repositories_ListBranches o n
  | Repositories_GetBranchProtection o n _ | Repositories_ListHooks o n
  | Repositories_Edit o n _ | Issues_DeleteLabel o n _
  | Issues_CreateLabel o n _ | Issues_EditLabel o n _ _
  | Repositories_RemoveBranchProtection o n _
  | Repositories_UpdateBranchProtection o n _ _
  | Repositories_CreateHook o n _ | Repositories_DeleteHook o n _
  | Repositories_EditHook o n _ _ | Repositories_ReplaceAllTopics o n _ =>
      o = owner ∧ n = name
  | git_Clone u => u = url
  | Repository_Head | Storer_SetReference _ _ | Repository_Push _ => True
  | ioutil_ReadFile _ | Git_DeleteRef _ _ _ => False
  end.

(** The message [Apply] wraps an error with, by the kind of the call
    that failed. *)
Definition stage_message (k : resource_kind) : string :=
  match k with
  | Reader => "Error getting settings from github"
  | RepositoryAttributes => "Error updating repository settings"
  | Labels => "Error updating repository labels"
  | Branches => "Error updating repository branches protection"
  | Webhooks => "Error updating repository webhooks"
  | Topics => "Error updating repository topics"
  end.

(** An outcome of [Apply] and the entries logged on the way to it: an
    error comes from the last entry, no other entry failed, and the
    error is the failed call's under some layers of [errors.Wrap], the
    outermost with the message of the stage the call belongs to. *)
Definition staged {A} (r : outcome A) (l : list (call * option error)) : Prop :=
  match r with
  | Err e =>
      ∃ pre c cause inner,
        l = pre ++ [(c, Some cause)] ∧ clean pre ∧
        e = Wrap inner (stage_message (kind_of c)) ∧ wraps inner cause
  | _ => clean l
  end.

(** The message [GetSettingsFromGithub] wraps the error of a call
    with. *)
Definition reader_message (c : call) : string :=
  match c with
  | Repositories_Get _ _ => "Error while getting repository from github"
  | Issues_ListLabels _ _ => "Error while getting labels from github"
  | Repositories_ListBranches _ _ => "Error while listing branches"
  | Repositories_GetBranchProtection _ _ _ =>
      "Error while getting branch protection"
  | Repositories_ListHooks _ _ => "Error getting webhooks"
  | _ => ""
  end.

(** As [fails_with], for a run that a panic may end: an error is the
    failed call's, wrapped once with the message that goes with the
    call; the failed call is the last entry and the only one that
    failed. *)
Definition gives_up (message : call → string) {A} (r : outcome A)
    (l : list (call * option error)) : Prop :=
  match r with
  | Err e =>
      ∃ pre c cause,
        l = pre ++ [(c, Some cause)] ∧ clean pre ∧ e = Wrap cause (message c)
  | _ => clean l
  end.

(** The hook's configuration holds a string under [key]. *)
Definition config_is_string (hook : github.Hook.t) (key : string) : bool :=
  match github.Hook.Config hook !! key with
  | Some (github.of_string _) => true
  | _ => false
  end.

(** The hook's configuration holds a string under each of the three
    keys the reader asserts to be strings. *)
Definition configured (hook : github.Hook.t) : bool :=
  forallb (config_is_string hook) ["url"; "content_type"; "secret"].

(** The string the hook's configuration holds under [key], if any. *)
Definition config_value (hook : github.Hook.t) (key : string) : string :=
  match github.Hook.Config hook !! key with
  | Some (github.of_string v) => v
  | _ => ""
  end.

(** The webhook the reader makes of a configured hook. *)
Definition hook_webhook (hook : github.Hook.t) : webhook.t :=
  webhook.mk (github.Hook.GetID hook) (config_value hook "url")
    (config_value hook "content_type") (config_value hook "secret")
    (github.Hook.Events hook).

(** The entry of a successful request of the protection of a branch. *)
Definition protection_read (owner name branchName : string)
    : call * option error :=
  (Repositories_GetBranchProtection owner name branchName, None).

(** What entitles [updateLabels] to a call, given the labels of the
    remote snapshot and the desired labels: a deletion names a remote
    label that no desired label has the name of; a creation sends a
    desired label; an edit sends a desired label that differs from a
    remote label of its name. *)
Definition label_call_justified (githubLabels labelsSettings : list label.t)
    (c : call) : Prop :=
  match c with
  | Issues_DeleteLabel _ _ labelName =>
      labelName ∈ label.Name <$> githubLabels ∧
      labelName ∉ label.Name <$> labelsSettings
  | Issues_CreateLabel _ _ l => ∃ d, d ∈ labelsSettings ∧ l = github_label d
  | Issues_EditLabel _ _ labelName l =>
      ∃ d g, d ∈ labelsSettings ∧ g ∈ githubLabels ∧
             label.Name g = label.Name d ∧ d ≠ g ∧
             labelName = label.Name d ∧ l = github_label d
  | _ => False
  end.

(** The same for [updateBranchSettings]: a clone is made from [url]; a
    reference is set for a desired branch and pushed with no reference
    specification; the protection is removed from a remote branch that
    no desired branch has the name of, and updated for a desired
    branch, with the request made of it. *)
Definition branch_call_justified (url : string)
    (githubBranches branchesSettings : list branch.t) (c : call) : Prop :=
  match c with
  | git_Clone u => u = url
  | Repository_Head => True
  | Storer_SetReference referenceName _ =>
      ∃ d, d ∈ branchesSettings ∧
           referenceName = "refs/heads/" +:+ branch.Name d
  | Repository_Push refSpecs => refSpecs = []
  | Repositories_RemoveBranchProtection _ _ branchName =>
      branchName ∈ branch.Name <$> githubBranches ∧
      branchName ∉ branch.Name <$> branchesSettings
  | Repositories_UpdateBranchProtection _ _ branchName preq =>
      ∃ d, d ∈ branchesSettings ∧ branchName = branch.Name d ∧
           preq = protection_request d
  | _ => False
  end.

(** The same for [updateWebhooks]: a creation sends a desired webhook;
    a deletion has the identifier of a remote webhook whose URL no
    desired webhook has; an edit sends a desired webhook under the
    identifier of a remote webhook of its URL, whose content type or
    events differ. *)
Definition webhook_call_justified (githubWebhooks webhooksSettings : list webhook.t)
    (c : call) : Prop :=
  match c with
  | Repositories_CreateHook _ _ h =>
      ∃ d, d ∈ webhooksSettings ∧ h = github_hook d
  | Repositories_DeleteHook _ _ id =>
      ∃ g, g ∈ githubWebhooks ∧ id = webhook.ID g ∧
           webhook.URL g ∉ webhook.URL <$> webhooksSettings
  | Repositories_EditHook _ _ id h =>
      ∃ d g, d ∈ webhooksSettings ∧ g ∈ githubWebhooks ∧
             webhook.URL g = webhook.URL d ∧ id = webhook.ID g ∧
             h = github_hook d ∧
             (webhook.ContentType g ≠ webhook.ContentType d ∨
              webhook.Events g ≠ webhook.Events d)
  | _ => False
  end.

Section Observations.

Context {World : Type} `{!Collaborators World}.

(** From every state, [m] appends to the log entries that, with the
    outcome of [m], satisfy [Q]. *)
Definition returns {A} (m : M World A)
    (Q : outcome A → list (call * option error) → Prop) : Prop :=
  ∀ s, ∃ l, log (m s).2 = log s ++ l ∧ Q (m s).1 l.

(** From every state, [m] appends to the log entries that satisfy
    [P], whatever its outcome. *)
Definition emits {A} (m : M World A)
    (P : list (call * option error) → Prop) : Prop :=
  returns m (λ _, P).

(** A property of outcomes and logged entries that is kept by
    running one computation after another, by wrapping an error and
    by giving up on an error or a panic. *)
Record sequential
    (Q : ∀ A : Type, outcome A → list (call * option error) → Prop) : Prop := {
  seq_nil : ∀ A (a : A), Q A (Ok a) [];
  seq_nil_Panic : ∀ A, Q A Panic [];
  seq_app : ∀ A B (a : A) (r : outcome B) l1 l2,
    Q A (Ok a) l1 → Q B r l2 → Q B r (l1 ++ l2);
  seq_Err : ∀ A B e l, Q A (Err e) l → Q B (Err e) l;
  seq_Panic : ∀ A B l, Q A Panic l → Q B Panic l;
  seq_Wrap : ∀ A e message l, Q A (Err e) l → Q A (Err (Wrap e message)) l
}.

(** [Q] holds of a run that is the one call [c], answered or not. *)
Definition admits
    (Q : ∀ A : Type, outcome A → list (call * option error) → Prop)
    (c : call) : Prop :=
  (∀ A (a : A), Q A (Ok a) [(c, None)]) ∧
  (∀ A e, Q A (Err e) [(c, Some e)]).

(** Every call logged satisfies [φ]. *)
Definition only (φ : call → Prop) (A : Type) (r : outcome A)
    (l : list (call * option error)) : Prop :=
  Forall (λ x, φ x.1) l.

(** [hash] is the commit of the head of the clone made of [url] in
    the world [w]: the clone succeeds there, and the head read from
    the world it leaves is [hash]. *)
Definition head_of_clone (url : string) (w : World) (hash : string) : Prop :=
  ∃ w1 w2,
    invoke (git_Clone url) w = (None, w1) ∧
    head_hash w1 = (Success hash, w2).

(** [m] never panics. *)
Definition never_panics {A} (m : M World A) : Prop :=
  ∀ s, (m s).1 ≠ Panic.

End Observations.

(** ** The data of the examples *)

Module Demo.

Definition client : Client := mk_Client "t0ken".

(** Repository attributes, with the pages flag as given. *)
Definition attributes (pages : bool) : repository.t :=
  repository.mk "settings" "octo" "Settings as code" "" "master"
    false true false pages false false false false true true false.

Definition remote_repo (pages : bool) (topics : slice string)
    : github.Repository.t :=
  github.Repository.mk
    (Some "settings") (Some (github.User.mk (Some "octo")))
    (Some "Settings as code") (Some "") (Some "master")
    (Some false) (Some true) (Some false) (Some pages) (Some false)
    (Some false) (Some false) (Some false) (Some true) (Some true)
    (Some false) topics.

(** A branch entry as the YAML decoder returns it: no review is
    required, yet both review flags are set. *)
Definition raw_branch : branch.t :=
  branch.mk "master"
    (protection.mk false true
       (requiredApprovingReviewCount.mk 0 true true)
       (requiredStatusChecks.mk true (mk_slice ["ci"]))).

Definition reviewed_branch : branch.t :=
  branch.mk "release"
    (protection.mk false false
       (requiredApprovingReviewCount.mk 2 true false)
       (requiredStatusChecks.mk false nil_slice)).

Definition raw_settings : Settings.t :=
  Settings.mk (attributes false) [] [raw_branch; reviewed_branch] [] nil_slice.

Definition documents : list (string * Settings.t) :=
  [("branches: [master, release]", raw_settings)].

(** A remote with only a repository, and the given pages flag. *)
Definition bare (pages : bool) (topics : slice string) (refused : list call)
    : Sim.world :=
  Sim.mk {["settings.yml" := "branches: [master, release]"]}
    (remote_repo pages topics) [] [] ∅ [] "c0ffee" [] refused.

Definition settings_with_pages : Settings.t :=
  Settings.mk (attributes true) [] [] [] (mk_slice []).

(** Labels. *)
Definition bug : label.t := label.mk "bug" "Something is broken" "d73a4a".
Definition bug_recoloured : label.t :=
  label.mk "bug" "Something is broken" "ff0000".
Definition stale : label.t := label.mk "stale" "" "cccccc".
Definition feature : label.t := label.mk "feature" "" "00ff00".

Definition remote_label (l : label.t) : github.Label.t :=
  github.Label.mk (Some (label.Name l)) (Some (label.Color l))
                  (Some (label.Description l)).

(** Branches. *)
Definition no_protection : protection.t :=
  protection.mk true false (requiredApprovingReviewCount.mk 0 false false)
                (requiredStatusChecks.mk false (mk_slice [])).
Definition feature_x : branch.t := branch.mk "feature-x" no_protection.
Definition master : branch.t := branch.mk "master" protection.zero.
Definition legacy : branch.t := branch.mk "legacy" protection.zero.

(** Webhooks: the same hook as desired and as the remote lists it. *)
Definition desired_hook : webhook.t :=
  webhook.mk 0 "https://ci.example/hook" "json" "s3cret" (mk_slice ["push"]).
Definition listed_hook : webhook.t :=
  webhook.mk 42 "https://ci.example/hook" "json" "********" (mk_slice ["push"]).

(** A remote with the given labels and branches, and nothing else. *)
Definition remote (ls : list label.t) (bs : list string) (refused : list call)
    : Sim.world :=
  Sim.mk ∅ (remote_repo false (mk_slice []))
    (remote_label <$> ls)
    ((λ b, github.Branch.mk (Some b) (Some false)) <$> bs)
    ∅ [] "c0ffee" [] refused.

Definition settings_with (ls : list label.t) (bs : list branch.t)
    : Settings.t :=
  Settings.mk (attributes false) ls bs [] (mk_slice []).

Definition url : string := fmtGithubURL "octo" "settings" (token client).

End Demo.

#[global] Instance sim_collaborators : Collaborators Sim.world := {|
  read_file file w :=
    match Sim.files w !! file with
    | Some content => Sim.answer (ioutil_ReadFile file) content w
    | None => (Failure (external_error "no such file"), w)
    end;
  yaml_Unmarshal := Sim.decode Demo.documents;
  get_repository owner name w :=
    Sim.answer (Repositories_Get owner name) (Sim.repo w) w;
  list_labels owner name w :=
    Sim.answer (Issues_ListLabels owner name) (Sim.labels w) w;
  list_branches owner name w :=
    Sim.answer (Repositories_ListBranches owner name) (Sim.branches w) w;
  get_branch_protection owner name branchName w :=
    match Sim.protections w !! branchName with
    | Some p =>
        Sim.answer (Repositories_GetBranchProtection owner name branchName) p w
    | None => (Failure (external_error "404 Branch not protected"), w)
    end;
  list_hooks owner name w :=
    Sim.answer (Repositories_ListHooks owner name) (Sim.hooks w) w;
  head_hash w := Sim.answer Repository_Head (Sim.head w) w;
  invoke c w :=
    if decide (c ∈ Sim.refused w) then (Some Sim.refusal, w)
    else (None, Sim.perform c w);
  map_range V m := map_to_list m;
  map_range_perm V m := reflexivity _
|}.

(** A run from a fresh log. *)
Definition run {A} (m : M Sim.world A) (w : Sim.world)
    : outcome A * state Sim.world :=
  m (mk_state w []).

(** ** The runs of the examples *)

Module Scenario.

Import Demo.

(** The states two runs in a row leave, with pages desired. *)
Definition after_first_run : state Sim.world :=
  (Apply client settings_with_pages
     (mk_state (bare false (mk_slice []) []) [])).2.

Definition after_second_run : state Sim.world :=
  (Apply client settings_with_pages
     (mk_state (world after_first_run) [])).2.

(** A remote with the branch master only; feature-x is desired too. *)
Definition before_branches : state Sim.world :=
  mk_state (remote [] ["master"] []) [].

Definition after_branches : state Sim.world :=
  (updateBranchSettings client "octo" "settings" [master]
     [master; feature_x] before_branches).2.

(** A remote with the branches legacy and master; master is desired. *)
Definition before_removal : state Sim.world :=
  mk_state (remote [] ["legacy"; "master"] []) [].

Definition after_removal : state Sim.world :=
  (updateBranchSettings client "octo" "settings" [legacy; master]
     [master] before_removal).2.

(** A remote that refuses to delete its label stale, which is not
    desired. *)
Definition delete_stale : call := Issues_DeleteLabel "octo" "settings" "stale".

Definition refusing : state Sim.world :=
  mk_state (remote [stale] ["master"] [delete_stale]) [].

Definition wanted : Settings.t := settings_with [bug] [feature_x].

(** Two runs in a row on a remote with the branches legacy and
    master, when only master is desired, enabled. *)
Definition only_master : Settings.t := settings_with [] [branch.mk "master" no_protection].

Definition unprotected_first : state Sim.world :=
  (Apply client only_master
     (mk_state (remote [] ["legacy"; "master"] []) [])).2.

Definition unprotected_second : state Sim.world :=
  (Apply client only_master (mk_state (world unprotected_first) [])).2.

(** Two runs in a row on a remote with the label stale and the branch
    master, when the label feature and the branch master are
    desired. *)
Definition converging : Settings.t :=
  settings_with [feature] [branch.mk "master" no_protection].

Definition converged : state Sim.world :=
  (Apply client converging (mk_state (remote [stale] ["master"] []) [])).2.

Definition read_again : state Sim.world :=
  (GetSettingsFromGithub client "octo" "settings"
     (mk_state (world converged) [])).2.

End Scenario.

(** ** More remotes and runs *)

Module Cases.

Import Demo.

(** A hook the remote lists without a secret. *)
Definition unsecured_hook : github.Hook.t :=
  github.Hook.mk (Some 7) (mk_slice ["push"]) (Some true)
    (<["content_type" := github.of_string "json"]>
       (<["url" := github.of_string "https://ci.example/hook"]> ∅)).

Definition with_unsecured_hook : Sim.world :=
  Sim.mk ∅ (remote_repo false (mk_slice [])) [] [] ∅ [unsecured_hook]
    "c0ffee" [] [].

Definition panicked : state Sim.world :=
  (Apply client (settings_with [] []) (mk_state with_unsecured_hook [])).2.

(** A protected branch and one that is not; a protection with all
    its parts and one without required status checks. *)
Definition protected_master : github.Branch.t :=
  github.Branch.mk (Some "master") (Some true).

Definition plain_dev : github.Branch.t :=
  github.Branch.mk (Some "dev") (Some false).

Definition full_protection : github.Protection.t :=
  github.Protection.mk
    (Some (github.RequiredStatusChecks.mk true (mk_slice ["ci"])))
    (Some (github.PullRequestReviewsEnforcement.mk true false 2))
    (Some (github.AdminEnforcement.mk true)).

Definition bare_protection : github.Protection.t :=
  github.Protection.mk None None (Some (github.AdminEnforcement.mk false)).

Definition with_protection (p : github.Protection.t) : Sim.world :=
  Sim.mk ∅ (remote_repo false (mk_slice [])) []
    [protected_master; plain_dev] {["master" := p]} [] "c0ffee" [] [].

Definition snapshot_branches : list branch.t :=
  [branch.mk "master"
     (protection.mk true true
        (requiredApprovingReviewCount.mk 2 true false)
        (requiredStatusChecks.mk true (mk_slice ["ci"])));
   branch.mk "dev" protection.zero].

Definition branches_read : state Sim.world :=
  (for_range [protected_master; plain_dev] (read_branch "octo" "settings") []
     (mk_state (with_protection full_protection) [])).2.

Definition snapshot : Settings.t :=
  Settings.mk (attributes false) [] snapshot_branches [] (mk_slice []).

Definition snapshot_read : state Sim.world :=
  (GetSettingsFromGithub client "octo" "settings"
     (mk_state (with_protection full_protection) [])).2.

(** Labels: stale and bug on the remote, bug in another colour and
    feature desired. *)
Definition labels_done : state Sim.world :=
  (updateLabels client "octo" "settings" [stale; bug]
     [bug_recoloured; feature]
     (mk_state (remote [stale; bug] [] []) [])).2.

(** Webhooks: the remote lists the hook of the examples; it is
    desired with another content type. *)
Definition form_hook : webhook.t :=
  webhook.mk 0 "https://ci.example/hook" "form" "s3cret" (mk_slice ["push"]).

Definition with_listed_hook : Sim.world :=
  Sim.mk ∅ (remote_repo false (mk_slice [])) [] [] ∅
    [Sim.with_ID 42 (github_hook listed_hook)] "c0ffee" [] [].

Definition hooks_done : state Sim.world :=
  (updateWebhooks client "octo" "settings" [listed_hook] [form_hook]
     (mk_state with_listed_hook [])).2.

(** Two branches materialized by one call of [createBranch]. *)
Definition pushed : state Sim.world :=
  (createBranch client ["a"; "b"] url
     (mk_state (remote [] ["master"] []) [])).2.

(** The command, on a file that does not exist. *)
Definition missing : flags.t := flags.mk "t0ken" "missing.yml".

Definition not_loaded : state Sim.world :=
  (GetSettingsFromFile "missing.yml"
     (mk_state (bare false nil_slice []) [])).2.

Definition loaded : state Sim.world :=
  (GetSettingsFromFile "settings.yml"
     (mk_state (bare false nil_slice []) [])).2.

(** A remote that refuses to list its labels. *)
Definition unreadable : state Sim.world :=
  mk_state (remote [stale] ["master"]
              [Issues_ListLabels "octo" "settings"]) [].

Definition not_read : state Sim.world :=
  (GetSettingsFromGithub client "octo" "settings" unreadable).2.

(** A remote that lists two hooks with one URL: the hook of the
    examples, and one with another content type. *)
Definition form_listed : webhook.t :=
  webhook.mk 43 "https://ci.example/hook" "form" "********"
    (mk_slice ["push"]).

Definition with_two_hooks : Sim.world :=
  Sim.mk ∅ (remote_repo false (mk_slice [])) [] [] ∅
    [Sim.with_ID 42 (github_hook listed_hook);
     Sim.with_ID 43 (github_hook form_listed)] "c0ffee" [] [].

Definition two_hooks_done : state Sim.world :=
  (updateWebhooks client "octo" "settings" [listed_hook; form_listed]
     [desired_hook] (mk_state with_two_hooks [])).2.

End Cases.

(** * Properties *)

Section Properties.

Context {World : Type} `{!Collaborators World}.

Implicit Types (s st : state World) (client : Client).

(** ** The monad *)

Lemma bind_Ok {A B} (m : M World A) (k : A → M World B) s b s' :
  (m ≫= k) s = (Ok b, s') →
  ∃ a s1, m s = (Ok a, s1) ∧ k a s1 = (Ok b, s').
Proof.
  unfold mbind, M_bind, bind.
  destruct (m s) as [[a|e|] s1]; [eauto | discriminate..].
Qed.

Lemma bind_run_Ok {A B} (m : M World A) (k : A → M World B) s a s1 :
  m s = (Ok a, s1) → (m ≫= k) s = k a s1.
Proof. unfold mbind, M_bind, bind. by intros ->. Qed.

Lemma bind_run_Err {A B} (m : M World A) (k : A → M World B) s e s1 :
  m s = (Err e, s1) → (m ≫= k) s = (Err e, s1).
Proof. unfold mbind, M_bind, bind. by intros ->. Qed.

Lemma bind_run_Panic {A B} (m : M World A) (k : A → M World B) s s1 :
  m s = (Panic, s1) → (m ≫= k) s = (Panic, s1).
Proof. unfold mbind, M_bind, bind. by intros ->. Qed.

Lemma mret_run {A} (a : A) s : (mret a : M World A) s = (Ok a, s).
Proof. reflexivity. Qed.

Lemma for_range_nil {X S} (body : X → S → M World S) acc s :
  for_range [] body acc s = (Ok acc, s).
Proof. reflexivity. Qed.

Lemma for_range_cons {X S} x xs (body : X → S → M World S) acc :
  for_range (x :: xs) body acc
  = body x acc ≫= λ acc', for_range xs body acc'.
Proof. reflexivity. Qed.

Lemma wrapping_Ok {A} message (m : M World A) s a s' :
  wrapping message m s = (Ok a, s') ↔ m s = (Ok a, s').
Proof.
  unfold wrapping. destruct (m s) as [[?|?|] ?]; split; congruence.
Qed.

Lemma wrapping_Err {A} message (m : M World A) s e s' :
  wrapping message m s = (Err e, s') ↔
  ∃ cause, e = Wrap cause message ∧ m s = (Err cause, s').
Proof.
  unfold wrapping. destruct (m s) as [[?|e0|] ?]; split.
  all: try (intros (? & ? & ?)); try congruence.
  intros [= <- <-]. eauto.
Qed.

Lemma wrapping_state {A} message (m : M World A) s :
  (wrapping message m s).2 = (m s).2.
Proof. unfold wrapping. by destruct (m s) as [[?|?|] ?]. Qed.

(** ** What a computation returns and logs *)

Lemma returns_weaken {A} (m : M World A) P Q :
  returns m P → (∀ r l, P r l → Q r l) → returns m Q.
Proof. intros Hm HPQ s. destruct (Hm s) as (l & Hl & HP). eauto. Qed.

Lemma returns_and {A} (m : M World A) P Q :
  returns m P → returns m Q → returns m (λ r l, P r l ∧ Q r l).
Proof.
  intros HP HQ s. destruct (HP s) as (l & Hl & Hp), (HQ s) as (l' & Hl' & Hq).
  rewrite Hl in Hl'. apply app_inv_head in Hl' as <-. eauto.
Qed.

Lemma returns_run {A} (m : M World A) Q s r s' :
  returns m Q → m s = (r, s') → ∃ l, log s' = log s ++ l ∧ Q r l.
Proof. intros Hm Hrun. specialize (Hm s). by rewrite Hrun in Hm. Qed.

Lemma returns_mret {A} (a : A) (Q : outcome A → _ → Prop) :
  Q (Ok a) [] → returns (mret a : M World A) Q.
Proof. intros HQ s. exists []. by rewrite app_nil_r. Qed.

Lemma returns_panic {A} (Q : outcome A → _ → Prop) :
  Q Panic [] → returns (panic : M World A) Q.
Proof. intros HQ s. exists []. by rewrite app_nil_r. Qed.

Lemma returns_lift {A} (r : response A) (Q : outcome A → _ → Prop) :
  (∀ a, Q (Ok a) []) → (∀ e, Q (Err e) []) →
  returns (lift r : M World A) Q.
Proof.
  intros HOk HErr s. exists []. rewrite app_nil_r. unfold lift.
  destruct r; simpl; auto.
Qed.

Lemma returns_tell c (Q : outcome unit → _ → Prop) :
  Q (Ok tt) [(c, None)] → (∀ e, Q (Err e) [(c, Some e)]) →
  returns (tell c) Q.
Proof.
  intros HOk HErr s. unfold tell.
  destruct (invoke c (world s)) as [[e|] w]; simpl; eauto.
Qed.

Lemma returns_ask {A} c (f : World → response A * World)
    (Q : outcome A → _ → Prop) :
  (∀ a, Q (Ok a) [(c, None)]) → (∀ e, Q (Err e) [(c, Some e)]) →
  returns (ask c f) Q.
Proof.
  intros HOk HErr s. unfold ask.
  destruct (f (world s)) as [[a|e] w]; simpl; eauto.
Qed.

Lemma returns_wrapping {A} message (m : M World A) P (Q : outcome A → _ → Prop) :
  returns m P →
  (∀ a l, P (Ok a) l → Q (Ok a) l) →
  (∀ e l, P (Err e) l → Q (Err (Wrap e message)) l) →
  (∀ l, P Panic l → Q Panic l) →
  returns (wrapping message m) Q.
Proof.
  intros Hm HOk HErr HPanic s. destruct (Hm s) as (l & Hl & HP).
  exists l. rewrite wrapping_state. split; [done|].
  unfold wrapping. destruct (m s) as [[a|e|] s']; simpl in *; auto.
Qed.

Lemma returns_bind {A B} (m : M World A) (k : A → M World B) P Q
    (R : outcome B → _ → Prop) :
  returns m P →
  (∀ a l1, P (Ok a) l1 → returns (k a) (Q a)) →
  (∀ a l1 r l2, P (Ok a) l1 → Q a r l2 → R r (l1 ++ l2)) →
  (∀ e l, P (Err e) l → R (Err e) l) →
  (∀ l, P Panic l → R Panic l) →
  returns (m ≫= k) R.
Proof.
  intros Hm Hk HOk HErr HPanic s. destruct (Hm s) as (l1 & Hl1 & HP).
  unfold mbind, M_bind, bind.
  destruct (m s) as [[a|e|] s1]; simpl in *; eauto.
  destruct (Hk a l1 HP s1) as (l2 & Hl2 & HQ).
  exists (l1 ++ l2). rewrite Hl2, Hl1, app_assoc. eauto.
Qed.

(** *** Properties kept by sequencing *)

Section Sequential.

Context (Q : ∀ A : Type, outcome A → list (call * option error) → Prop).
Context (HQ : sequential Q).

Lemma sequential_mret {A} (a : A) : returns (mret a : M World A) (Q A).
Proof. apply returns_mret, HQ. Qed.

Lemma sequential_panic {A} : returns (panic : M World A) (Q A).
Proof. apply returns_panic, HQ. Qed.

Lemma sequential_tell c : admits Q c → returns (tell c) (Q unit).
Proof. intros [HOk HErr]. apply returns_tell; auto. Qed.

Lemma sequential_ask {A} c (f : World → response A * World) :
  admits Q c → returns (ask c f) (Q A).
Proof. intros [HOk HErr]. apply returns_ask; auto. Qed.

Lemma sequential_wrapping {A} message (m : M World A) :
  returns m (Q A) → returns (wrapping message m) (Q A).
Proof.
  intros Hm. eapply returns_wrapping; [exact Hm|auto..].
  intros e l. apply HQ.
Qed.

Lemma sequential_bind {A B} (m : M World A) (k : A → M World B) :
  returns m (Q A) → (∀ a, returns (k a) (Q B)) →
  returns (m ≫= k) (Q B).
Proof.
  intros Hm Hk. eapply returns_bind; [exact Hm|intros; apply Hk|..].
  - intros a l1 r l2. apply HQ.
  - intros e l. apply HQ.
  - intros l. apply HQ.
Qed.

Lemma sequential_for_range {X S} (xs : list X) (body : X → S → M World S) acc :
  (∀ x acc, x ∈ xs → returns (body x acc) (Q S)) →
  returns (for_range xs body acc) (Q S).
Proof.
  revert acc. induction xs as [|x xs IH]; intros acc Hbody; simpl.
  - apply sequential_mret.
  - apply sequential_bind; [apply Hbody; left|].
    intros acc'. apply IH. intros y acc'' Hy. apply Hbody. by right.
Qed.

Lemma sequential_for_each {X} (xs : list X) (body : X → M World unit) :
  (∀ x, x ∈ xs → returns (body x) (Q unit)) →
  returns (for_each xs body) (Q unit).
Proof. intros Hbody. apply sequential_for_range. auto. Qed.

End Sequential.

Lemma only_sequential φ : sequential (only φ).
Proof.
  split; unfold only.
  - intros A a. apply Forall_nil_2.
  - intros A. apply Forall_nil_2.
  - intros A B a r l1 l2 H1 H2. by apply Forall_app.
  - done.
  - done.
  - done.
Qed.

Lemma wraps_trans e1 e2 e3 : wraps e1 e2 → wraps e2 e3 → wraps e1 e3.
Proof. induction 1; [done|]. intros. constructor. auto. Qed.

Lemma fail_fast_sequential : sequential (@fail_fast).
Proof.
  split; unfold fail_fast, clean.
  - intros A a. apply Forall_nil_2.
  - intros A. apply Forall_nil_2.
  - intros A B a r l1 l2 H1 H2. destruct r as [b|e|].
    + by apply Forall_app.
    + destruct H2 as (pre & c & cause & -> & Hpre & Hw).
      exists (l1 ++ pre), c, cause. rewrite app_assoc.
      split_and!; [done| |done]. by apply Forall_app.
    + by apply Forall_app.
  - done.
  - done.
  - intros A e message l (pre & c & cause & -> & Hpre & Hw).
    exists pre, c, cause. split_and!; [done..|]. by constructor.
Qed.

Lemma sequential_and P Q :
  sequential P → sequential Q → sequential (λ A r l, P A r l ∧ Q A r l).
Proof.
  intros HP HQ. split.
  - intros A a. split; [apply (seq_nil _ HP) | apply (seq_nil _ HQ)].
  - intros A. split; [apply (seq_nil_Panic _ HP) | apply (seq_nil_Panic _ HQ)].
  - intros A B a r l1 l2 [p1 q1] [p2 q2].
    split; [apply (seq_app _ HP A B a) | apply (seq_app _ HQ A B a)]; done.
  - intros A B e l [p q].
    split; [apply (seq_Err _ HP A) | apply (seq_Err _ HQ A)]; done.
  - intros A B l [p q].
    split; [apply (seq_Panic _ HP A) | apply (seq_Panic _ HQ A)]; done.
  - intros A e message l [p q].
    split; [apply (seq_Wrap _ HP) | apply (seq_Wrap _ HQ)]; done.
Qed.

Lemma admits_only (φ : call → Prop) c : φ c → admits (only φ) c.
Proof. intros Hc. split; intros; by apply Forall_singleton. Qed.

Lemma admits_fail_fast c : admits (@fail_fast) c.
Proof.
  split; simpl.
  - intros A a. by apply Forall_singleton.
  - intros A e. exists [], c, e.
    split_and!; [done|apply Forall_nil_2|constructor].
Qed.

Lemma admits_and P Q c : admits P c → admits Q c →
  admits (λ A r l, P A r l ∧ Q A r l) c.
Proof. intros [] []. split; intros; split; auto. Qed.

(** One call, wrapped. *)
Lemma wrapped_tell message c :
  returns (wrapping message (tell c))
    (λ r l, match r with
            | Ok _ => l = [(c, None)]
            | Err e => ∃ cause, e = Wrap cause message ∧ l = [(c, Some cause)]
            | Panic => False
            end).
Proof.
  apply (returns_wrapping message (tell c)
           (λ r l, match r with
                   | Ok _ => l = [(c, None)]
                   | Err e => l = [(c, Some e)]
                   | Panic => False
                   end)).
  - by apply returns_tell.
  - done.
  - intros e l ->. eauto.
  - done.
Qed.

(** A loop of calls, each wrapped with the same message. *)
Lemma for_each_told {X} (f : X → call) message (xs : list X) :
  returns (for_each xs (λ x, wrapping message (tell (f x))))
          (told f message xs).
Proof.
  unfold for_each. induction xs as [|x xs IH]; simpl.
  - by apply returns_mret.
  - eapply (returns_bind _ _ _ (λ _, told f message xs)).
    + apply wrapped_tell.
    + intros [] l1 _. apply IH.
    + intros [] l1 r l2 -> Hr. destruct r as [[]|e|]; simpl in *.
      * by rewrite Hr.
      * destruct Hr as (pre & y & post & cause & -> & -> & ->).
        by exists (x :: pre), y, post, cause.
      * done.
    + intros e l (cause & -> & ->). by exists [], x, xs, cause.
    + done.
Qed.

Lemma told_only {X} (f : X → call) message xs (φ : call → Prop) r l :
  (∀ x, x ∈ xs → φ (f x)) → told f message xs r l → Forall (λ e, φ e.1) l.
Proof.
  intros Hf. destruct r as [[]|e|]; simpl.
  - intros ->. apply Forall_fmap, Forall_forall. intros x Hx. by apply Hf.
  - intros (pre & x & post & cause & -> & -> & ->).
    apply Forall_app. split.
    + apply Forall_fmap, Forall_forall. intros y Hy. apply Hf.
      apply elem_of_app. by left.
    + apply Forall_singleton. apply Hf.
      apply elem_of_app. right. left.
  - done.
Qed.

Lemma told_fail_fast {X} (f : X → call) message (xs : list X) r l :
  told f message xs r l → fail_fast r l.
Proof.
  destruct r as [[]|e|]; simpl.
  - intros ->. apply Forall_fmap, Forall_forall. done.
  - intros (pre & x & post & cause & -> & -> & ->).
    exists ((λ x, (f x, None)) <$> pre), (f x), cause. split_and!; [done| |].
    + apply Forall_fmap, Forall_forall. done.
    + repeat constructor.
  - done.
Qed.

(** ** The calls of each function

    Each function of the package is a sequence of wrapped calls, so
    a property kept by sequencing holds of it as soon as it holds of
    the calls the function can make. *)

Ltac sequential_step HQ Hadm :=
  first
    [ apply (sequential_bind _ HQ)
    | apply (sequential_wrapping _ HQ)
    | apply (sequential_for_range _ HQ)
    | apply (sequential_for_each _ HQ)
    | apply (sequential_mret _ HQ)
    | apply (sequential_panic _ HQ)
    | apply sequential_tell; apply Hadm; reflexivity
    | apply sequential_ask; apply Hadm; reflexivity
    | progress cbv beta
    | case_match ].

Ltac sequential_steps HQ Hadm := repeat (intros; sequential_step HQ Hadm).

Section Calls.

Context (Q : ∀ A : Type, outcome A → list (call * option error) → Prop).
Context (HQ : sequential Q).

Implicit Types (owner name : string).

Lemma GetSettingsFromGithub_calls client owner name :
  (∀ c, kind_of c = Reader → issued c = true → admits Q c) →
  returns (GetSettingsFromGithub client owner name) (Q _).
Proof.
  intros Hadm.
  unfold GetSettingsFromGithub, read_branch, read_hook, config_string.
  sequential_steps HQ Hadm.
Qed.

Lemma updateRepoSettings_calls client owner name githubRepo repo :
  (∀ c, kind_of c = RepositoryAttributes → issued c = true → admits Q c) →
  returns (updateRepoSettings client owner name githubRepo repo) (Q _).
Proof. intros Hadm. unfold updateRepoSettings. sequential_steps HQ Hadm. Qed.

Lemma updateLabels_calls client owner name githubLabels labelsSettings :
  (∀ c, kind_of c = Labels → issued c = true → admits Q c) →
  returns (updateLabels client owner name githubLabels labelsSettings) (Q _).
Proof. intros Hadm. unfold updateLabels. sequential_steps HQ Hadm. Qed.

Lemma createBranch_calls client branches url :
  (∀ c, kind_of c = Branches → issued c = true → admits Q c) →
  returns (createBranch client branches url) (Q _).
Proof. intros Hadm. unfold createBranch. sequential_steps HQ Hadm. Qed.

Lemma diff_branches_calls client owner name githubBranches branchesSettings :
  (∀ c, kind_of c = Branches → operation_of c = Some creating →
        issued c = true → admits Q c) →
  returns (diff_branches client owner name githubBranches branchesSettings)
          (Q _).
Proof.
  intros Hadm. unfold diff_branches, diff_branch.
  sequential_steps HQ Hadm.
Qed.

Lemma updateBranchSettings_calls client owner name githubBranches
    branchesSettings :
  (∀ c, kind_of c = Branches → issued c = true → admits Q c) →
  returns (updateBranchSettings client owner name githubBranches
             branchesSettings) (Q _).
Proof.
  intros Hadm. unfold updateBranchSettings.
  apply (sequential_bind _ HQ); [apply diff_branches_calls; auto|].
  sequential_steps HQ Hadm.
Qed.

Lemma diff_webhooks_calls client owner name githubWebhooks webhooksSettings :
  (∀ c, kind_of c = Webhooks → operation_of c = Some creating →
        issued c = true → admits Q c) →
  returns (diff_webhooks client owner name githubWebhooks webhooksSettings)
          (Q _).
Proof.
  intros Hadm. unfold diff_webhooks, diff_webhook.
  sequential_steps HQ Hadm.
Qed.

Lemma updateWebhooks_calls client owner name githubWebhooks webhooksSettings :
  (∀ c, kind_of c = Webhooks → issued c = true → admits Q c) →
  returns (updateWebhooks client owner name githubWebhooks webhooksSettings)
          (Q _).
Proof.
  intros Hadm. unfold updateWebhooks.
  apply (sequential_bind _ HQ); [apply diff_webhooks_calls; auto|].
  sequential_steps HQ Hadm.
Qed.

Lemma updateTopicsSettings_calls client owner name githubTopics topics :
  (∀ c, kind_of c = Topics → issued c = true → admits Q c) →
  returns (updateTopicsSettings client owner name githubTopics topics) (Q _).
Proof. intros Hadm. unfold updateTopicsSettings. sequential_steps HQ Hadm. Qed.

Lemma Apply_calls client settings :
  (∀ c, issued c = true → admits Q c) →
  returns (Apply client settings) (Q _).
Proof.
  intros Hadm. unfold Apply.
  apply (sequential_bind _ HQ);
    [apply (sequential_wrapping _ HQ), GetSettingsFromGithub_calls; auto|].
  intros githubSettings.
  apply (sequential_bind _ HQ);
    [apply (sequential_wrapping _ HQ), updateRepoSettings_calls; auto|].
  intros _.
  apply (sequential_bind _ HQ);
    [apply (sequential_wrapping _ HQ), updateLabels_calls; auto|].
  intros _.
  apply (sequential_bind _ HQ);
    [apply (sequential_wrapping _ HQ), updateBranchSettings_calls; auto|].
  intros _.
  apply (sequential_bind _ HQ);
    [apply (sequential_wrapping _ HQ), updateWebhooks_calls; auto|].
  intros _.
  apply (sequential_wrapping _ HQ), updateTopicsSettings_calls; auto.
Qed.

End Calls.

(** ** C5: the normalization of the desired branches *)

Lemma normalize_at_middle pre b rest :
  normalize_at (length pre) (pre ++ b :: rest)
  = pre ++ normalize_branch b :: rest.
Proof.
  unfold normalize_at, normalize_branch.
  rewrite list_lookup_middle by done.
  replace (length pre) with (length pre + 0)%nat by lia.
  rewrite alter_app_r. simpl.
  destruct (decide (review_count b = 0)); [|done].
  by rewrite alter_app_r.
Qed.

Lemma normalize_from pre rest :
  foldl (λ acc i, normalize_at i acc) (pre ++ rest)
        (seq (length pre) (length rest))
  = pre ++ (normalize_branch <$> rest).
Proof.
  revert pre. induction rest as [|b rest IH]; intros pre; [done|].
  simpl. rewrite normalize_at_middle.
  specialize (IH (pre ++ [normalize_branch b])).
  rewrite length_app, <- !app_assoc in IH. simpl in IH.
  by replace (length pre + 1)%nat with (S (length pre)) in IH by lia.
Qed.

(** The loop over the indices is a map over the entries. *)
Lemma normalize_branches_fmap branches :
  normalize_branches branches = normalize_branch <$> branches.
Proof. apply (normalize_from [] branches). Qed.

Lemma normalize_branch_normal b :
  protection.Enabled (branch.Protection (normalize_branch b)) = true ∧
  (review_count (normalize_branch b) = 0 →
   DismissStaleReviews (normalize_branch b) = false ∧
   RequireCodeOwnerReviews (normalize_branch b) = false).
Proof.
  unfold normalize_branch.
  destruct (decide (review_count b = 0)) as [Hz|Hnz]; simpl.
  - done.
  - split; [done|]. intros Hz. by destruct Hnz.
Qed.

(** C5. Whenever [GetSettingsFromFile] returns settings, every branch
    entry of them has [Protection.Enabled] set, and every entry that
    requires zero approving reviews has [DismissStaleReviews] and
    [RequireCodeOwnerReviews] cleared, whatever the decoded input. *)
Theorem GetSettingsFromFile_normalized file st settings st' :
  GetSettingsFromFile file st = (Ok settings, st') →
  Forall (λ b,
            protection.Enabled (branch.Protection b) = true ∧
            (review_count b = 0 →
             DismissStaleReviews b = false ∧
             RequireCodeOwnerReviews b = false))
         (Settings.Branches settings).
Proof.
  unfold GetSettingsFromFile. intros H.
  apply bind_Ok in H as (content & s1 & _ & H).
  apply bind_Ok in H as (raw & s2 & _ & H).
  rewrite mret_run in H. injection H as <- _. simpl.
  rewrite normalize_branches_fmap, Forall_fmap.
  apply Forall_forall. intros b _. apply normalize_branch_normal.
Qed.


(** ** The stages of a run of [Apply] *)

Lemma always_sequential : sequential (only (λ _, True)).
Proof. apply only_sequential. Qed.

Lemma always_admits c : admits (only (λ _, True)) c.
Proof. by apply admits_only. Qed.

(** A run only appends to the log. *)
Lemma run_extends {A} (m : M World A) s r s' :
  returns m (only (λ _, True) A) → m s = (r, s') → ∃ l, log s' = log s ++ l.
Proof. intros Hm Hrun. destruct (returns_run _ _ _ _ _ Hm Hrun) as (l & ? & _). eauto. Qed.

(** A run of [Apply] that returns no error went through the reader
    and the five reconcilers, none of which returned an error. *)
Lemma Apply_Ok_stages client settings st st' :
  let owner := repository.Owner (Settings.Repository settings) in
  let name := repository.Name (Settings.Repository settings) in
  Apply client settings st = (Ok tt, st') →
  ∃ actual s1 s2 s3 s4 s5,
    GetSettingsFromGithub client owner name st = (Ok actual, s1) ∧
    updateRepoSettings client owner name (Settings.Repository actual)
      (Settings.Repository settings) s1 = (Ok tt, s2) ∧
    updateLabels client owner name (Settings.Labels actual)
      (Settings.Labels settings) s2 = (Ok tt, s3) ∧
    updateBranchSettings client owner name (Settings.Branches actual)
      (Settings.Branches settings) s3 = (Ok tt, s4) ∧
    updateWebhooks client owner name (Settings.Webhooks actual)
      (Settings.Webhooks settings) s4 = (Ok tt, s5) ∧
    updateTopicsSettings client owner name (Settings.Topics actual)
      (Settings.Topics settings) s5 = (Ok tt, st').
Proof.
  intros owner name H. unfold Apply in H.
  apply bind_Ok in H as (actual & s1 & H1 & H).
  apply bind_Ok in H as ([] & s2 & H2 & H).
  apply bind_Ok in H as ([] & s3 & H3 & H).
  apply bind_Ok in H as ([] & s4 & H4 & H).
  apply bind_Ok in H as ([] & s5 & H5 & H).
  apply wrapping_Ok in H1, H2, H3, H4, H5, H.
  by exists actual, s1, s2, s3, s4, s5.
Qed.

(** ** C4: the pages flag of the snapshot *)

Lemma GetSettingsFromGithub_Repository client owner name st actual st' :
  GetSettingsFromGithub client owner name st = (Ok actual, st') →
  repository.HasPages (Settings.Repository actual) = false.
Proof.
  unfold GetSettingsFromGithub. intros H.
  apply bind_Ok in H as (githubRepo & s1 & _ & H).
  apply bind_Ok in H as (githubLabels & s2 & _ & H).
  apply bind_Ok in H as (githubBranches & s3 & _ & H).
  apply bind_Ok in H as (branchesSettings & s4 & _ & H).
  apply bind_Ok in H as (hooks & s5 & _ & H).
  apply bind_Ok in H as (webhooksSettings & s6 & _ & H).
  rewrite mret_run in H. by injection H as <- _.
Qed.

Lemma updateRepoSettings_edit client owner name githubRepo repo s :
  githubRepo ≠ repo →
  ∃ o, (updateRepoSettings client owner name githubRepo repo s).2.(log)
       = log s ++ [(Repositories_Edit owner name (edit_request repo), o)] ∧
       ((updateRepoSettings client owner name githubRepo repo s).1 = Ok tt
        → o = None).
Proof.
  intros Hne. unfold updateRepoSettings, DeepEqual.
  rewrite bool_decide_eq_false_2 by done.
  unfold wrapping, tell.
  destruct (invoke _ (world s)) as [[e|] w]; simpl; eauto.
  eexists. split; [done|]. discriminate.
Qed.

(** C4. Whenever [GetSettingsFromGithub] returns a snapshot, its
    [HasPages] is false, whatever the remote answered. So a desired
    repository with pages enabled is never deeply equal to the
    snapshot, and [updateRepoSettings] makes the edit call each
    time. *)
Theorem GetSettingsFromGithub_HasPages client owner name st actual st' :
  GetSettingsFromGithub client owner name st = (Ok actual, st') →
  repository.HasPages (Settings.Repository actual) = false ∧
  ∀ desired, repository.HasPages desired = true →
    DeepEqual (Settings.Repository actual) desired = false ∧
    ∀ s, ∃ o,
      (updateRepoSettings client owner name (Settings.Repository actual)
         desired s).2.(log)
      = log s ++ [(Repositories_Edit owner name (edit_request desired), o)].
Proof.
  intros H. apply GetSettingsFromGithub_Repository in H.
  split; [done|]. intros desired Hpages.
  assert (Settings.Repository actual ≠ desired) as Hne by congruence.
  split; [by apply bool_decide_eq_false_2|].
  intros s.
  destruct (updateRepoSettings_edit client owner name _ _ s Hne) as (o & ? & _).
  eauto.
Qed.

(** ** The pages flag on a second run *)

Lemma Reader_not_write c : kind_of c = Reader → is_write c = false.
Proof. by destruct c. Qed.

(** With pages enabled in the desired settings, every run of [Apply]
    that returns no error makes the call that edits the repository,
    after the reads: from whatever state it starts, and so also from
    the state a first run has left. *)
Theorem Apply_edits_again client settings st st' :
  repository.HasPages (Settings.Repository settings) = true →
  Apply client settings st = (Ok tt, st') →
  ∃ reads rest,
    log st' = log st ++ reads
              ++ (Repositories_Edit
                    (repository.Owner (Settings.Repository settings))
                    (repository.Name (Settings.Repository settings))
                    (edit_request (Settings.Repository settings)), None)
                 :: rest ∧
    Forall (λ x, is_write x.1 = false) reads.
Proof.
  intros Hpages H.
  apply Apply_Ok_stages in H
    as (actual & s1 & s2 & s3 & s4 & s5 & H1 & H2 & H3 & H4 & H5 & H6).
  pose proof (GetSettingsFromGithub_Repository _ _ _ _ _ _ H1) as Hfalse.
  destruct (returns_run _ _ _ _ _
    (GetSettingsFromGithub_calls (only (λ c, is_write c = false))
       (only_sequential _) client _ _
       (λ c Hk _, admits_only _ c (Reader_not_write c Hk))) H1)
    as (reads & Hreads & Hr).
  assert (Settings.Repository actual ≠ Settings.Repository settings) as Hne
    by congruence.
  destruct (updateRepoSettings_edit client
    (repository.Owner (Settings.Repository settings))
    (repository.Name (Settings.Repository settings)) _ _ s1 Hne)
    as (o & Hedit & Ho).
  rewrite H2 in Hedit, Ho. simpl in Hedit, Ho. rewrite (Ho eq_refl) in Hedit.
  destruct (run_extends _ _ _ _
    (updateLabels_calls _ always_sequential client _ _ _ _
       (λ c _ _, always_admits c)) H3) as (l3 & Hl3).
  destruct (run_extends _ _ _ _
    (updateBranchSettings_calls _ always_sequential client _ _ _ _
       (λ c _ _, always_admits c)) H4) as (l4 & Hl4).
  destruct (run_extends _ _ _ _
    (updateWebhooks_calls _ always_sequential client _ _ _ _
       (λ c _ _, always_admits c)) H5) as (l5 & Hl5).
  destruct (run_extends _ _ _ _
    (updateTopicsSettings_calls _ always_sequential client _ _ _ _
       (λ c _ _, always_admits c)) H6) as (l6 & Hl6).
  exists reads, (l3 ++ l4 ++ l5 ++ l6). split; [|exact Hr].
  rewrite Hl6, Hl5, Hl4, Hl3, Hedit, Hreads.
  rewrite <- !app_assoc. done.
Qed.


(** ** C3: the order of the calls *)

Section Order.

Context (turn : resource_kind → operation → nat).

Lemma ordered_nil lo hi : ordered turn lo hi [].
Proof. split; constructor. Qed.

Lemma ordered_app a b c d l1 l2 :
  (b ≤ c)%nat →
  ordered turn a b l1 → ordered turn c d l2 →
  ordered turn (a `min` c) (b `max` d) (l1 ++ l2).
Proof.
  intros Hbc [Hs1 Hb1] [Hs2 Hb2]. split.
  - apply StronglySorted_app_2; [|done..].
    intros x y Hx Hy.
    rewrite Forall_forall in Hb1, Hb2.
    specialize (Hb1 x Hx). specialize (Hb2 y Hy). lia.
  - apply Forall_app. split; eapply Forall_impl; eauto; simpl; lia.
Qed.

Lemma ordered_weaken a b a' b' l :
  (a' ≤ a)%nat → (b ≤ b')%nat → ordered turn a b l → ordered turn a' b' l.
Proof.
  intros Ha Hb [Hs Hbounds]. split; [done|].
  eapply Forall_impl; eauto. simpl. lia.
Qed.

Lemma ordered_at r l :
  Forall (λ x, position turn x.1 = r) l → ordered turn r r l.
Proof.
  intros H. split.
  - induction H as [|x l Hx Hl IH]; constructor; [done|].
    eapply Forall_impl; eauto. simpl. lia.
  - eapply Forall_impl; eauto. simpl. lia.
Qed.

Lemma ordered_bind {A B} (m : M World A) (k : A → M World B) a b c d :
  (a ≤ c)%nat → (b ≤ c)%nat → (b ≤ d)%nat →
  emits m (ordered turn a b) → (∀ x, emits (k x) (ordered turn c d)) →
  emits (m ≫= k) (ordered turn a d).
Proof.
  intros Hac Hbc Hbd Hm Hk.
  eapply (returns_bind _ _ _ (λ _ _, ordered turn c d)).
  - exact Hm.
  - intros x l1 _. apply Hk.
  - intros x l1 r l2 H1 H2.
    eapply ordered_weaken; [| |by apply (ordered_app a b c d)]; lia.
  - intros e l. apply ordered_weaken; lia.
  - intros l. apply ordered_weaken; lia.
Qed.

Lemma ordered_wrapping {A} message (m : M World A) a b :
  emits m (ordered turn a b) → emits (wrapping message m) (ordered turn a b).
Proof. intros Hm. eapply returns_wrapping; eauto. Qed.

(** A loop of calls that all have the place [r]. *)
Lemma ordered_for_each {X} (f : X → call) message (xs : list X) r :
  (∀ x, position turn (f x) = r) →
  emits (for_each xs (λ x, wrapping message (tell (f x)))) (ordered turn r r).
Proof.
  intros Hf. eapply returns_weaken; [apply for_each_told|].
  intros o l Htold. apply ordered_at.
  eapply (told_only f message xs (λ c, position turn c = r)); eauto.
Qed.

Lemma ordered_calls {A} (m : M World A) r :
  returns m (only (λ c, position turn c = r) A) → emits m (ordered turn r r).
Proof. intros Hm. eapply returns_weaken; [exact Hm|]. intros o l. apply ordered_at. Qed.

End Order.

Ltac place c := destruct c; try done.

Lemma updateLabels_ordered client owner name githubLabels labelsSettings :
  emits (updateLabels client owner name githubLabels labelsSettings)
        (ordered turn 6 8).
Proof.
  unfold updateLabels.
  destruct (diff_labels _ _) as [[labelsToCreate labelsToUpdate] deleteLabelMap].
  apply (ordered_bind turn _ _ 6 6 7 8); [lia..| |intros _].
  { by apply ordered_for_each. }
  apply (ordered_bind turn _ _ 7 7 8 8); [lia..| |intros _].
  { by apply ordered_for_each. }
  by apply ordered_for_each.
Qed.

Lemma updateBranchSettings_ordered client owner name githubBranches
    branchesSettings :
  emits (updateBranchSettings client owner name githubBranches branchesSettings)
        (ordered turn 9 11).
Proof.
  unfold updateBranchSettings.
  apply (ordered_bind turn _ _ 9 9 10 11); [lia..| |intros [toUpdate m]].
  { apply ordered_calls, diff_branches_calls; [apply only_sequential|].
    intros c Hk Ho _. apply admits_only. unfold position. by rewrite Hk, Ho. }
  apply (ordered_bind turn _ _ 10 10 11 11); [lia..| |intros _].
  { by apply ordered_for_each. }
  by apply ordered_for_each.
Qed.

Lemma updateWebhooks_ordered client owner name githubWebhooks webhooksSettings :
  emits (updateWebhooks client owner name githubWebhooks webhooksSettings)
        (ordered turn 12 14).
Proof.
  unfold updateWebhooks.
  apply (ordered_bind turn _ _ 12 12 13 14); [lia..| |intros [toUpdate m]].
  { apply ordered_calls, diff_webhooks_calls; [apply only_sequential|].
    intros c Hk Ho _. apply admits_only. unfold position. by rewrite Hk, Ho. }
  apply (ordered_bind turn _ _ 13 13 14 14); [lia..| |intros _].
  { by apply ordered_for_each. }
  by apply ordered_for_each.
Qed.

(** C3, as the code has it. The calls of a run of [Apply] are made in
    the order of their kinds: the reads, then Repository Attributes,
    Labels, Branches, Webhooks, Topics; and within a kind in the
    order of [turn]: labels are deleted, then created, then updated,
    while branches are materialized, then unprotected, then
    protected, and webhooks are created, then deleted, then
    updated. *)
Theorem Apply_in_order client settings :
  emits (Apply client settings) (in_order turn).
Proof.
  apply (returns_weaken _ (λ _, ordered turn 0 17));
    [|intros r l [Hl _]; exact Hl].
  unfold Apply.
  apply (ordered_bind turn _ _ 0 0 5 17); [lia..| |intros actual].
  { apply ordered_wrapping, ordered_calls, GetSettingsFromGithub_calls;
      [apply only_sequential|].
    intros c Hk _. apply admits_only. by place c. }
  apply (ordered_bind turn _ _ 5 5 6 17); [lia..| |intros _].
  { apply ordered_wrapping, ordered_calls, updateRepoSettings_calls;
      [apply only_sequential|].
    intros c Hk _. apply admits_only. by place c. }
  apply (ordered_bind turn _ _ 6 8 9 17); [lia..| |intros _].
  { apply ordered_wrapping, updateLabels_ordered. }
  apply (ordered_bind turn _ _ 9 11 12 17); [lia..| |intros _].
  { apply ordered_wrapping, updateBranchSettings_ordered. }
  apply (ordered_bind turn _ _ 12 14 17 17); [lia..| |intros _].
  { apply ordered_wrapping, updateWebhooks_ordered. }
  apply ordered_wrapping, ordered_calls, updateTopicsSettings_calls;
    [apply only_sequential|].
  intros c Hk _. apply admits_only. by place c.
Qed.


(** ** C10: a label call that fails *)

Lemma told_fails_with {X} (f : X → call) message' (xs : list X) message r l :
  (∀ x, message (f x) = message') →
  told f message' xs r l → fails_with message r l.
Proof.
  intros Hm. destruct r as [[]|e|]; simpl.
  - intros ->. apply Forall_fmap, Forall_forall. done.
  - intros (pre & x & post & cause & -> & -> & ->).
    exists ((λ x, (f x, None)) <$> pre), (f x), cause.
    split_and!; [done| |by rewrite Hm].
    apply Forall_fmap, Forall_forall. done.
  - done.
Qed.

Lemma fails_with_bind {A B} message (m : M World A) (k : A → M World B) :
  returns m (fails_with message) → (∀ a, returns (k a) (fails_with message)) →
  returns (m ≫= k) (fails_with message).
Proof.
  intros Hm Hk. eapply (returns_bind _ _ _ (λ _, fails_with message)).
  - exact Hm.
  - intros a l1 _. apply Hk.
  - intros a l1 r l2 H1 H2. destruct r as [b|e|]; simpl in *.
    + by apply Forall_app.
    + destruct H2 as (pre & c & cause & -> & Hpre & ->).
      exists (l1 ++ pre), c, cause. rewrite app_assoc.
      split_and!; [done| |done]. by apply Forall_app.
    + done.
  - done.
  - done.
Qed.

Lemma updateLabels_fails_with client owner name githubLabels labelsSettings :
  returns (updateLabels client owner name githubLabels labelsSettings)
          (fails_with label_message).
Proof.
  unfold updateLabels.
  destruct (diff_labels _ _) as [[labelsToCreate labelsToUpdate] deleteLabelMap].
  apply fails_with_bind; [|intros _; apply fails_with_bind; [|intros _]].
  all: eapply returns_weaken; [apply for_each_told|].
  all: intros r l; by apply told_fails_with.
Qed.

(** The three reconcilers that follow the labels make no label call. *)
Lemma after_labels_calls client owner name actual settings :
  returns
    (wrapping "Error updating repository branches protection"
       (updateBranchSettings client owner name
          (Settings.Branches actual) (Settings.Branches settings));;
     wrapping "Error updating repository webhooks"
       (updateWebhooks client owner name
          (Settings.Webhooks actual) (Settings.Webhooks settings));;
     wrapping "Error updating repository topics"
       (updateTopicsSettings client owner name
          (Settings.Topics actual) (Settings.Topics settings)))
    (only (λ c, kind_of c ≠ Labels) unit).
Proof.
  pose proof (only_sequential (λ c, kind_of c ≠ Labels)) as HQ.
  apply (sequential_bind _ HQ); [|intros _; apply (sequential_bind _ HQ); [|intros _]].
  - apply (sequential_wrapping _ HQ), updateBranchSettings_calls; [done|].
    intros c Hk _. apply admits_only. by rewrite Hk.
  - apply (sequential_wrapping _ HQ), updateWebhooks_calls; [done|].
    intros c Hk _. apply admits_only. by rewrite Hk.
  - apply (sequential_wrapping _ HQ), updateTopicsSettings_calls; [done|].
    intros c Hk _. apply admits_only. by rewrite Hk.
Qed.

(** C10. In a run of [Apply], a call of the Label reconciler that is
    answered with an error is the last call of the run: [Apply]
    returns that error, wrapped by [updateLabels] and then by
    [Apply], and every call made before it is a read or a call of
    the Repository Attributes or Label reconcilers; no call of the
    Branch, Webhook or Topic reconcilers is made. *)
Theorem Apply_label_failure client settings :
  returns (Apply client settings) (λ r l,
    ∀ c cause, (c, Some cause) ∈ l → kind_of c = Labels →
      r = Err (Wrap (Wrap cause (label_message c))
                    "Error updating repository labels") ∧
      ∃ pre, l = pre ++ [(c, Some cause)] ∧
             Forall (λ x, kind_of x.1 ∈ [Reader; RepositoryAttributes; Labels])
                    pre).
Proof.
  set (R := λ (r : outcome unit) (l : list (call * option error)),
    ∀ c cause, (c, Some cause) ∈ l → kind_of c = Labels →
      r = Err (Wrap (Wrap cause (label_message c))
                    "Error updating repository labels") ∧
      ∃ pre, l = pre ++ [(c, Some cause)] ∧
             Forall (λ x, kind_of x.1 ∈ [Reader; RepositoryAttributes; Labels])
                    pre).
  assert (∀ r l, Forall (λ x, kind_of x.1 ≠ Labels) l → R r l) as Hvacuous.
  { intros r l Hl c cause Hin Hk. rewrite Forall_forall in Hl.
    by destruct (Hl _ Hin). }
  assert (∀ r l1 l2,
            Forall (λ x, kind_of x.1 ∈ [Reader; RepositoryAttributes]) l1 →
            R r l2 → R r (l1 ++ l2)) as Hprepend.
  { intros r l1 l2 Hl1 Hl2 c cause Hin Hk.
    apply elem_of_app in Hin as [Hin|Hin].
    - rewrite Forall_forall in Hl1. specialize (Hl1 _ Hin). simpl in Hl1.
      rewrite Hk in Hl1.
      repeat (apply elem_of_cons in Hl1 as [Hl1|Hl1]; [discriminate Hl1|]).
      by apply elem_of_nil in Hl1.
    - destruct (Hl2 c cause Hin Hk) as (-> & pre & -> & Hpre).
      split; [done|]. exists (l1 ++ pre). rewrite app_assoc. split; [done|].
      apply Forall_app. split; [|done].
      eapply Forall_impl; [exact Hl1|]. simpl. intros x Hx.
      repeat (apply elem_of_cons in Hx as [->|Hx]; [repeat constructor|]).
      by apply elem_of_nil in Hx. }
  unfold Apply.
  eapply (returns_bind _ _
            (λ _ l, Forall (λ x, kind_of x.1 = Reader) l) (λ _, R)).
  { apply (sequential_wrapping (only (λ c, kind_of c = Reader))
             (only_sequential _)).
    apply GetSettingsFromGithub_calls; [apply only_sequential|].
    intros c Hk _. by apply admits_only. }
  2: { intros a l1 r l2 Hl1 Hl2. apply Hprepend; [|done].
       eapply Forall_impl; [exact Hl1|]. simpl. intros x ->.
       repeat constructor. }
  2,3: intros; apply Hvacuous; eapply Forall_impl; [eassumption|];
       simpl; congruence.
  intros actual _ _.
  eapply (returns_bind _ _
            (λ _ l, Forall (λ x, kind_of x.1 = RepositoryAttributes) l)
            (λ _, R)).
  { apply (sequential_wrapping (only (λ c, kind_of c = RepositoryAttributes))
             (only_sequential _)).
    apply updateRepoSettings_calls; [apply only_sequential|].
    intros c Hk _. by apply admits_only. }
  2: { intros a l1 r l2 Hl1 Hl2. apply Hprepend; [|done].
       eapply Forall_impl; [exact Hl1|]. simpl. intros x ->.
       repeat constructor. }
  2,3: intros; apply Hvacuous; eapply Forall_impl; [eassumption|];
       simpl; congruence.
  intros _ _ _.
  eapply (returns_bind _ _
            (λ r l, Forall (λ x, kind_of x.1 = Labels) l ∧
                    match r with
                    | Ok _ => clean l
                    | Err e =>
                        ∃ pre c cause,
                          l = pre ++ [(c, Some cause)] ∧ clean pre ∧
                          e = Wrap (Wrap cause (label_message c))
                                   "Error updating repository labels"
                    | Panic => False
                    end)
            (λ _ _ l, Forall (λ x, kind_of x.1 ≠ Labels) l)).
  - eapply returns_wrapping.
    + apply returns_and.
      * apply (updateLabels_calls (only (λ c, kind_of c = Labels))
                 (only_sequential _)).
        intros c Hk _. by apply admits_only.
      * apply updateLabels_fails_with.
    + intros a l [Hk Hc]. split; [exact Hk|exact Hc].
    + intros e l [Hk (pre & c & cause & -> & Hpre & ->)].
      split; [exact Hk|]. by exists pre, c, cause.
    + intros l [_ []].
  - intros _ l1 _. apply after_labels_calls.
  - intros _ l1 r l2 [Hk Hc] Hl2 c cause Hin Hkind.
    apply elem_of_app in Hin as [Hin|Hin].
    + unfold clean in Hc. rewrite Forall_forall in Hc.
      by specialize (Hc _ Hin).
    + rewrite Forall_forall in Hl2. by destruct (Hl2 _ Hin).
  - intros e l [Hk (pre & c & cause & -> & Hpre & ->)] c' cause' Hin Hk'.
    apply elem_of_app in Hin as [Hin|Hin].
    + unfold clean in Hpre. rewrite Forall_forall in Hpre.
      by specialize (Hpre _ Hin).
    + apply list_elem_of_singleton in Hin as [= -> ->].
      split; [done|]. exists pre. split; [done|].
      apply Forall_app in Hk as [Hk _].
      eapply Forall_impl; [exact Hk|]. simpl. intros x ->.
      repeat constructor.
  - intros l [_ []].
Qed.


(** ** C7: topics *)

Lemma string_compare_trans (x y z : string) :
  String.compare x y ≠ Gt → String.compare y z ≠ Gt →
  String.compare x z ≠ Gt.
Proof.
  revert y z. induction x as [|c1 x IH]; intros [|c2 y] [|c3 z];
    simpl; try done.
  unfold Ascii.compare.
  destruct (N.compare_spec (Ascii.N_of_ascii c1) (Ascii.N_of_ascii c2))
    as [H12|H12|H12]; [| |done];
  destruct (N.compare_spec (Ascii.N_of_ascii c2) (Ascii.N_of_ascii c3))
    as [H23|H23|H23]; try done.
  - rewrite H12, H23, N.compare_refl. apply IH.
  - intros _ _. rewrite H12. by apply N.compare_lt_iff in H23 as ->.
  - intros _ _. rewrite <- H23. by apply N.compare_lt_iff in H12 as ->.
  - intros _ _.
    assert (Ascii.N_of_ascii c1 < Ascii.N_of_ascii c3)%N as H13 by lia.
    by apply N.compare_lt_iff in H13 as ->.
Qed.

#[local] Instance string_le_trans : Transitive string_le.
Proof.
  intros x y z. unfold string_le, String.leb. intros H12 H23.
  pose proof (string_compare_trans x y z) as H.
  destruct (String.compare x y), (String.compare y z),
           (String.compare x z); try done; by destruct H.
Qed.

#[local] Instance string_le_antisym : AntiSymm eq string_le.
Proof. intros x y. apply String.leb_antisym. Qed.

#[local] Instance string_le_total : Total string_le.
Proof. intros x y. apply String.leb_total. Qed.

(** [sort.Strings] returns the sorted arrangement of its argument,
    and there is only one. *)
Lemma sort_Strings_sorted l :
  Sorted string_le (merge_sort string_le l) ∧ merge_sort string_le l ≡ₚ l.
Proof. split; [apply Sorted_merge_sort, _ | apply merge_sort_Permutation]. Qed.

Lemma sort_Strings_eq_iff githubTopics topics :
  sort_Strings githubTopics = sort_Strings topics
  ↔ same_topics githubTopics topics.
Proof.
  destruct githubTopics as [|a], topics as [|b]; simpl; try done.
  split.
  - intros [= H]. rewrite <- (merge_sort_Permutation string_le a), H.
    apply merge_sort_Permutation.
  - intros H. f_equal.
    apply (Sorted_unique string_le); try apply _.
    + apply Sorted_merge_sort, _.
    + apply Sorted_merge_sort, _.
    + by rewrite !merge_sort_Permutation.
Qed.

(** What [updateTopicsSettings] does on any two slices: no call when
    both are nil or both are not nil with the same topics; otherwise,
    and so for a nil slice against an empty one, one call that
    replaces the topics with the desired topics, sorted. *)
Lemma updateTopicsSettings_DeepEqual client owner name githubTopics topics s :
  (same_topics githubTopics topics →
   updateTopicsSettings client owner name githubTopics topics s = (Ok tt, s)) ∧
  (¬ same_topics githubTopics topics →
   ∃ o,
     (updateTopicsSettings client owner name githubTopics topics s).2.(log)
     = log s ++ [(Repositories_ReplaceAllTopics owner name
                    (sort_Strings topics), o)]).
Proof.
  split.
  - intros Hsame. apply sort_Strings_eq_iff in Hsame.
    unfold updateTopicsSettings, DeepEqual.
    by rewrite bool_decide_eq_true_2.
  - intros Hdiff. rewrite <- sort_Strings_eq_iff in Hdiff.
    unfold updateTopicsSettings, DeepEqual.
    rewrite bool_decide_eq_false_2 by done.
    rewrite wrapping_state. unfold tell.
    destruct (invoke _ (world s)) as [[e|] w]; simpl; eauto.
Qed.

(** X24. What [updateTopicsSettings] does, whatever the two slices. It
    sorts both and compares them with [reflect.DeepEqual]: when both
    are nil, or both are not nil and hold the same topics, it makes
    no call and returns no error; otherwise, and so for a nil slice
    against an empty one, it makes exactly one call, which replaces
    the topics of the repository with the desired topics (sorted, so
    the same topics as desired), and it returns the error of that
    call, if any, wrapped once. *)
Theorem updateTopicsSettings_replaces client owner name githubTopics topics s :
  slice_elems (sort_Strings topics) ≡ₚ slice_elems topics ∧
  (same_topics githubTopics topics →
   updateTopicsSettings client owner name githubTopics topics s = (Ok tt, s)) ∧
  (¬ same_topics githubTopics topics →
   ∃ o,
     (updateTopicsSettings client owner name githubTopics topics s).2.(log)
     = log s ++ [(Repositories_ReplaceAllTopics owner name
                    (sort_Strings topics), o)] ∧
     (updateTopicsSettings client owner name githubTopics topics s).1
     = match o with
       | None => Ok tt
       | Some e => Err (Wrap e ("Error updating repository topics" +:+ LF))
       end).
Proof.
  split_and!.
  - destruct topics; simpl; [done|apply merge_sort_Permutation].
  - apply updateTopicsSettings_DeepEqual.
  - intros Hdiff. rewrite <- sort_Strings_eq_iff in Hdiff.
    unfold updateTopicsSettings, DeepEqual.
    rewrite bool_decide_eq_false_2 by done.
    unfold wrapping, tell.
    destruct (invoke _ (world s)) as [[e|] w]; simpl; eauto.
Qed.

(** X25. The order of the topics does not matter: slices that hold the
    same topics, in any order, give the same run. *)
Theorem updateTopicsSettings_order client owner name
    githubTopics githubTopics' topics topics' s :
  same_topics githubTopics githubTopics' →
  same_topics topics topics' →
  updateTopicsSettings client owner name githubTopics topics s
  = updateTopicsSettings client owner name githubTopics' topics' s.
Proof.
  intros Hg%sort_Strings_eq_iff Ht%sort_Strings_eq_iff.
  unfold updateTopicsSettings. by rewrite Hg, Ht.
Qed.

(** ** The identity-keyed diff *)

Section Diff.

Context {T : Type} (key : T → string).
Context (differs : T → T → bool) (adopt : T → T → T).

Implicit Types (A D : list T) (m : gmap string T) (g d : T).

Lemma index_snoc A g : index key (A ++ [g]) = <[key g := g]> (index key A).
Proof. unfold index. by rewrite foldl_snoc. Qed.

Lemma index_lookup_None A k : index key A !! k = None ↔ k ∉ key <$> A.
Proof.
  induction A as [|g A IH] using rev_ind.
  - split; [intros _; apply not_elem_of_nil | done].
  - rewrite index_snoc, fmap_app, not_elem_of_app. simpl.
    rewrite lookup_insert_None, IH, not_elem_of_cons.
    split; [intros [? ?]|intros [? [? _]]]; split_and!;
      try done; apply not_elem_of_nil.
Qed.

Lemma index_lookup_Some A k g :
  index key A !! k = Some g → g ∈ A ∧ key g = k.
Proof.
  induction A as [|g' A IH] using rev_ind; [done|].
  rewrite index_snoc, lookup_insert_Some. intros [[<- <-]|[_ H]].
  - split; [|done]. apply elem_of_app. right. left.
  - destruct (IH H) as [? ?]. split; [|done]. apply elem_of_app. by left.
Qed.

Lemma index_lookup_NoDup A g :
  NoDup (key <$> A) → g ∈ A → index key A !! key g = Some g.
Proof.
  induction A as [|g' A IH] using rev_ind; [by intros _ ?%elem_of_nil|].
  rewrite fmap_app, NoDup_app. simpl. intros (HA & Hfresh & _) Hin.
  rewrite index_snoc. apply elem_of_app in Hin as [Hin|Hin].
  - rewrite lookup_insert_ne; [by apply IH|].
    intros Heq. apply (Hfresh (key g)).
    + apply list_elem_of_fmap. eauto.
    + rewrite Heq. left.
  - apply list_elem_of_singleton in Hin as ->. apply lookup_insert_eq.
Qed.

(** The map of the remote entities, when their identities are
    pairwise distinct. *)
Lemma index_lookup_iff A k g :
  NoDup (key <$> A) → index key A !! k = Some g ↔ g ∈ A ∧ key g = k.
Proof.
  intros HA. split; [apply index_lookup_Some|].
  intros [Hin <-]. by apply index_lookup_NoDup.
Qed.

Lemma changed_delete m k d :
  key d ≠ k → changed key differs adopt (delete k m) d
              = changed key differs adopt m d.
Proof. intros Hne. unfold changed. by rewrite lookup_delete_ne. Qed.

Lemma filter_ext_in {X} (P Q : X → Prop) `{!∀ x, Decision (P x)}
    `{!∀ x, Decision (Q x)} (l : list X) :
  (∀ x, x ∈ l → P x ↔ Q x) → filter P l = filter Q l.
Proof.
  induction l as [|x l IH]; intros Hext; [done|].
  assert (filter P l = filter Q l) as Hl.
  { apply IH. intros y Hy. apply Hext. by right. }
  destruct (decide (P x)) as [HP|HP].
  - rewrite !filter_cons_True; [by rewrite Hl| |done].
    apply Hext; [left|done].
  - rewrite !filter_cons_False; [done| |done].
    intros HQ. apply HP, Hext; [left|done].
Qed.

(** The loop over desired entities of pairwise distinct identities:
    each is classified against the map the loop started with. *)
Lemma classify_fold D cs us m :
  NoDup (key <$> D) →
  foldl (classify key differs adopt) (cs, us, m) D
  = (cs ++ filter (λ d, m !! key d = None) D,
     us ++ omap (changed key differs adopt m) D,
     foldr delete m (key <$> D)).
Proof.
  revert cs us m. induction D as [|d D IH]; intros cs us m HD.
  { simpl. by rewrite !app_nil_r. }
  rewrite fmap_cons, NoDup_cons in HD. destruct HD as [Hd HD].
  assert (∀ d', d' ∈ D → key d' ≠ key d) as Hne.
  { intros d' Hd' Heq. apply Hd. rewrite <- Heq.
    apply list_elem_of_fmap. eauto. }
  simpl foldl.
  assert (omap (changed key differs adopt (delete (key d) m)) D
          = omap (changed key differs adopt m) D) as Homap.
  { apply list_omap_ext, Forall_Forall2_diag, Forall_forall.
    intros d' Hd'. apply changed_delete. auto. }
  assert (filter (λ d0, delete (key d) m !! key d0 = None) D
          = filter (λ d0, m !! key d0 = None) D) as Hfilter.
  { apply filter_ext_in. intros d' Hd'.
    by rewrite lookup_delete_ne by (symmetry; auto). }
  assert (omap (changed key differs adopt m) (d :: D)
          = match changed key differs adopt m d with
            | Some y => y :: omap (changed key differs adopt m) D
            | None => omap (changed key differs adopt m) D
            end) as -> by done.
  rewrite fmap_cons. simpl foldr. unfold changed at 1.
  destruct (m !! key d) as [g|] eqn:Hm.
  - rewrite filter_cons_False by (rewrite Hm; done).
    rewrite delete_foldr_delete.
    destruct (differs g d); rewrite IH by done; rewrite Homap, Hfilter.
    + by rewrite <- app_assoc.
    + done.
  - rewrite IH by done. rewrite filter_cons_True by done.
    rewrite <- app_assoc. simpl.
    f_equal. symmetry. apply delete_id.
    by rewrite lookup_foldr_delete_not_elem_of.
Qed.

Lemma foldl_step {S} (f : S → T → S) (a : S) d D :
  foldl f a (d :: D) = foldl f (f a d) D.
Proof. done. Qed.

Lemma classify_cases cs us m d cs1 us1 m1 :
  classify key differs adopt (cs, us, m) d = (cs1, us1, m1) →
  m1 = delete (key d) m ∧
  ((m !! key d = None ∧ cs1 = cs ++ [d] ∧ us1 = us) ∨
   (∃ g, m !! key d = Some g ∧ cs1 = cs ∧
         ((differs g d = true ∧ us1 = us ++ [adopt g d]) ∨
          (differs g d = false ∧ us1 = us)))).
Proof.
  unfold classify. destruct (m !! key d) as [g|] eqn:Hm.
  - destruct (differs g d) eqn:Hd; intros [= <- <- <-];
      (split; [done|]); right; exists g; eauto.
  - intros [= <- <- <-]. split; [|by left].
    symmetry. by apply delete_id.
Qed.

(** Whatever the desired list, the identities left in the map are
    those of the remote entities that no desired entity has. *)
Lemma classify_fold_map D cs us m cs' us' m' :
  foldl (classify key differs adopt) (cs, us, m) D = (cs', us', m') →
  m' = foldr delete m (key <$> D).
Proof.
  revert cs us m. induction D as [|d D IH]; intros cs us m.
  - by intros [= _ _ <-].
  - rewrite foldl_step. destruct (classify key differs adopt (cs, us, m) d)
      as [[cs1 us1] m1] eqn:Hstep.
    apply classify_cases in Hstep as [-> _].
    intros ->%IH. rewrite fmap_cons. simpl.
    by rewrite delete_foldr_delete.
Qed.

(** An entity recorded to update was found in the map, and differs
    from what the map had for it. *)
Lemma classify_fold_changed D cs us m cs' us' m' u :
  foldl (classify key differs adopt) (cs, us, m) D = (cs', us', m') →
  u ∈ us' →
  u ∈ us ∨ ∃ d g, d ∈ D ∧ m !! key d = Some g ∧ u = adopt g d ∧
                  differs g d = true.
Proof.
  revert cs us m. induction D as [|d D IH]; intros cs us m.
  - intros [= _ <- _]. by left.
  - rewrite foldl_step. destruct (classify key differs adopt (cs, us, m) d)
      as [[cs1 us1] m1] eqn:Hstep.
    apply classify_cases in Hstep as [-> Hstep].
    intros Hfold Hu. destruct (IH _ _ _ Hfold Hu) as [Hin|Hlater].
    + destruct Hstep as [(_ & _ & ->)|(g & Hg & _ & [[Hd ->]|[_ ->]])];
        [by left| |by left].
      apply elem_of_app in Hin as [Hin|Hin]; [by left|].
      apply list_elem_of_singleton in Hin as ->.
      right. exists d, g. split_and!; [left|done..].
    + destruct Hlater as (d' & g' & Hd' & Hg' & -> & Hdiff).
      apply lookup_delete_Some in Hg' as [_ Hg'].
      right. exists d', g'. split_and!; [by right|done..].
Qed.

(** An entity whose identity is not in the map is recorded to
    create. *)
Lemma classify_fold_absent D cs us m cs' us' m' d :
  foldl (classify key differs adopt) (cs, us, m) D = (cs', us', m') →
  (d ∈ cs ∨ (d ∈ D ∧ m !! key d = None)) → d ∈ cs'.
Proof.
  revert cs us m. induction D as [|d0 D IH]; intros cs us m.
  - intros [= <- _ _] [Hin|[Hin _]]; [done|by apply elem_of_nil in Hin].
  - rewrite foldl_step. destruct (classify key differs adopt (cs, us, m) d0)
      as [[cs1 us1] m1] eqn:Hstep.
    apply classify_cases in Hstep as [-> Hstep].
    intros Hfold Hd. apply (IH _ _ _ Hfold).
    destruct Hd as [Hin|[Hin Hnone]].
    + left. destruct Hstep as [(_ & -> & _)|(g & _ & -> & _)]; [|done].
      apply elem_of_app. by left.
    + apply elem_of_cons in Hin as [->|Hin].
      * left. destruct Hstep as [(_ & -> & _)|(g & Hg & _)];
          [|congruence].
        apply elem_of_app. right. left.
      * right. split; [done|].
        apply lookup_delete_None. by right.
Qed.

(** The three sets of the diff, for remote and desired entities of
    pairwise distinct identities. *)
Lemma classify_sets A D cs us m :
  NoDup (key <$> A) → NoDup (key <$> D) →
  foldl (classify key differs adopt) ([], [], index key A) D = (cs, us, m) →
  (∀ d, d ∈ cs ↔ d ∈ D ∧ absent_from key A d) ∧
  (∀ g, g ∈ (map_to_list m).*2 ↔ g ∈ A ∧ absent_from key D g) ∧
  (∀ u, u ∈ us ↔ ∃ d g, d ∈ D ∧ g ∈ A ∧ key g = key d ∧
                        differs g d = true ∧ u = adopt g d).
Proof.
  intros HA HD. rewrite classify_fold by done. intros [= <- <- <-].
  unfold absent_from. split_and!.
  - intros d. rewrite list_elem_of_filter, index_lookup_None. tauto.
  - intros g. rewrite list_elem_of_fmap. split.
    + intros ([k g'] & -> & Hin). simpl.
      apply elem_of_map_to_list, lookup_foldr_delete_Some in Hin
        as [Hk Hin].
      apply index_lookup_Some in Hin as [? <-]. done.
    + intros [Hin Hk]. exists (key g, g). split; [done|].
      apply elem_of_map_to_list, lookup_foldr_delete_Some.
      split; [done|]. by apply index_lookup_NoDup.
  - intros u. simpl. rewrite list_elem_of_omap. unfold changed. split.
    + intros (d & Hd & Hu). exists d.
      destruct (index key A !! key d) as [g|] eqn:Hg; [|done].
      destruct (differs g d) eqn:Hdiff; [|done].
      injection Hu as <-. apply index_lookup_Some in Hg as [? ?].
      by exists g.
    + intros (d & g & Hd & Hg & Hkey & Hdiff & ->). exists d.
      split; [done|]. rewrite <- Hkey, index_lookup_NoDup, Hdiff; done.
Qed.

Lemma index_all_deleted A D :
  (∀ g, g ∈ A → key g ∈ key <$> D) →
  foldr delete (index key A) (key <$> D) = ∅.
Proof.
  intros Hsub. apply map_empty. intros k.
  destruct (decide (k ∈ key <$> D)) as [Hk|Hk].
  - by apply lookup_foldr_delete.
  - rewrite lookup_foldr_delete_not_elem_of by done.
    apply index_lookup_None. intros (g & -> & Hg)%list_elem_of_fmap.
    apply Hk, Hsub, Hg.
Qed.

(** When every desired entity has a remote one that does not
    differ, and every remote one is desired, nothing is to create,
    to update or to delete. *)
Lemma classify_settled A D :
  NoDup (key <$> D) →
  (∀ d, d ∈ D → ∃ g, index key A !! key d = Some g ∧ differs g d = false) →
  (∀ g, g ∈ A → key g ∈ key <$> D) →
  foldl (classify key differs adopt) ([], [], index key A) D = ([], [], ∅).
Proof.
  intros HD Hfound Hsub. rewrite classify_fold by done. simpl.
  f_equal; [f_equal|].
  - apply elem_of_nil_inv. intros d [Hnone Hd]%list_elem_of_filter.
    destruct (Hfound d Hd) as (g & Hg & _). congruence.
  - apply elem_of_nil_inv. intros u (d & Hd & Hu)%list_elem_of_omap.
    destruct (Hfound d Hd) as (g & Hg & Hsame).
    unfold changed in Hu. by rewrite Hg, Hsame in Hu.
  - by apply index_all_deleted.
Qed.

End Diff.


(** ** The three diff loops are the shared one *)

Lemma diff_labels_classify githubLabels labelsSettings :
  diff_labels githubLabels labelsSettings
  = foldl (classify label.Name label_differs (λ _ d, d))
          ([], [], index label.Name githubLabels) labelsSettings.
Proof.
  unfold diff_labels. change (label_map githubLabels)
    with (index label.Name githubLabels).
  generalize (@nil label.t, @nil label.t, index label.Name githubLabels).
  induction labelsSettings as [|d D IH]; intros acc; [done|].
  rewrite !foldl_step, IH. f_equal.
  destruct acc as [[cs us] m]. unfold diff_label, classify, label_differs.
  destruct (m !! label.Name d) as [g|]; [|done].
  unfold bool_decide, decide. by destruct (not_dec _).
Qed.

Lemma wrapped_tell_Ok message c s s' :
  wrapping message (tell c) s = (Ok tt, s') → log s' = log s ++ [(c, None)].
Proof.
  intros H. destruct (returns_run _ _ _ _ _ (wrapped_tell message c) H)
    as (l & -> & ->). done.
Qed.

Lemma wrapped_ask_Ok {A} message c (f : World → response A * World) s a s' :
  wrapping message (ask c f) s = (Ok a, s') → log s' = log s ++ [(c, None)].
Proof.
  intros H%wrapping_Ok. unfold ask in H.
  destruct (f (world s)) as [[a'|e] w]; [|done].
  by injection H as _ <-.
Qed.

(** A successful materialization of one branch. *)
Lemma createBranch_Ok client branchName url s s' :
  createBranch client [branchName] url s = (Ok tt, s') →
  ∃ hash, log s' = log s ++ materialized url branchName hash.
Proof.
  unfold createBranch, for_each. intros H.
  apply bind_Ok in H as ([] & s1 & H1%wrapped_tell_Ok & H).
  apply bind_Ok in H as (hash & s2 & H2%wrapped_ask_Ok & H).
  simpl in H.
  apply bind_Ok in H as ([] & s3 & H3 & H).
  apply bind_Ok in H3 as ([] & s4 & H4%wrapped_tell_Ok & H5%wrapped_tell_Ok).
  unfold ret in H. injection H as <-.
  exists hash. rewrite H5, H4, H2, H1. unfold materialized.
  by rewrite <- !app_assoc.
Qed.

Lemma diff_webhook_loop client owner name webhooksSettings :
  ∀ us m s us' m' s' cs0,
    for_range webhooksSettings (diff_webhook client owner name) (us, m) s
    = (Ok (us', m'), s') →
    ∃ cs,
      foldl (classify webhook.URL webhook_differs webhook_adopt)
            (cs0, us, m) webhooksSettings = (cs0 ++ cs, us', m') ∧
      log s' = log s ++ ((λ d, (Repositories_CreateHook owner name
                                  (github_hook d), None)) <$> cs).
Proof.
  induction webhooksSettings as [|d D IH]; intros us m s us' m' s' cs0 H.
  { rewrite for_range_nil in H. injection H as <- <- <-.
    exists []. by rewrite !app_nil_r. }
  rewrite for_range_cons in H.
  apply bind_Ok in H as ([us1 m1] & s1 & Hstep & H).
  rewrite foldl_step. unfold diff_webhook in Hstep. unfold classify at 2.
  destruct (m !! webhook.URL d) as [g|].
  - assert (s1 = s ∧ m1 = delete (webhook.URL d) m ∧
            us1 = if webhook_differs g d then us ++ [webhook_adopt g d]
                  else us) as (-> & -> & ->).
    { unfold webhook_differs, webhook_adopt.
      destruct (negb _); rewrite mret_run in Hstep;
        by injection Hstep as <- <- <-. }
    destruct (IH _ _ _ _ _ _ cs0 H) as (cs & Hfold & Hlog).
    exists cs. split; [|done]. by destruct (webhook_differs g d).
  - apply bind_Ok in Hstep as ([] & s2 & Hcall%wrapped_tell_Ok & Hret).
    rewrite mret_run in Hret. injection Hret as <- <- <-.
    destruct (IH _ _ _ _ _ _ (cs0 ++ [d]) H) as (cs & Hfold & Hlog).
    exists (d :: cs). rewrite Hfold, Hlog, Hcall, <- !app_assoc. done.
Qed.

Lemma diff_branch_loop client owner name branchesSettings :
  ∀ tu m s tu' m' s' cs0 us0,
    for_range branchesSettings (diff_branch client owner name) (tu, m) s
    = (Ok (tu', m'), s') →
    ∃ cs us hashes,
      foldl (classify branch.Name branch_differs (λ _ d, d))
            (cs0, us0, m) branchesSettings = (cs0 ++ cs, us0 ++ us, m') ∧
      (∀ d, d ∈ tu' ↔ d ∈ tu ∨ d ∈ cs ∨ d ∈ us) ∧
      length hashes = length cs ∧
      log s' = log s ++ materializations
                          (fmtGithubURL owner name (token client)) cs hashes.
Proof.
  induction branchesSettings as [|d D IH];
    intros tu m s tu' m' s' cs0 us0 H.
  { rewrite for_range_nil in H. injection H as <- <- <-.
    exists [], [], []. rewrite !app_nil_r. split_and!; try done.
    intros d. split; [by left|]. intros [?|[?%elem_of_nil|?%elem_of_nil]]; done. }
  rewrite for_range_cons in H.
  apply bind_Ok in H as ([tu1 m1] & s1 & Hstep & H).
  rewrite foldl_step. unfold diff_branch in Hstep. unfold classify at 2.
  destruct (m !! branch.Name d) as [g|].
  - assert (s1 = s ∧ m1 = delete (branch.Name d) m ∧
            tu1 = if branch_differs g d then tu ++ [d] else tu)
      as (-> & -> & ->).
    { unfold branch_differs.
      destruct (negb _); rewrite mret_run in Hstep;
        by injection Hstep as <- <- <-. }
    destruct (branch_differs g d).
    + destruct (IH _ _ _ _ _ _ cs0 (us0 ++ [d]) H)
        as (cs & us & hashes & Hfold & Hin & Hlen & Hlog).
      exists cs, (d :: us), hashes. rewrite Hfold, <- app_assoc.
      split_and!; try done. intros d'. rewrite Hin, elem_of_app,
        list_elem_of_singleton, elem_of_cons. tauto.
    + destruct (IH _ _ _ _ _ _ cs0 us0 H)
        as (cs & us & hashes & Hfold & Hin & Hlen & Hlog).
      by exists cs, us, hashes.
  - apply bind_Ok in Hstep as ([] & s2 & Hcall%wrapping_Ok & Hret).
    apply createBranch_Ok in Hcall as (hash & Hcall).
    rewrite mret_run in Hret. injection Hret as <- <- <-.
    destruct (IH _ _ _ _ _ _ (cs0 ++ [d]) us0 H)
      as (cs & us & hashes & Hfold & Hin & Hlen & Hlog).
    exists (d :: cs), us, (hash :: hashes).
    rewrite Hfold, <- app_assoc. split_and!; try done.
    + intros d'. rewrite Hin, elem_of_app, list_elem_of_singleton,
        elem_of_cons. tauto.
    + simpl. by rewrite Hlen.
    + rewrite Hlog, Hcall, <- app_assoc. done.
Qed.


(** ** Successful runs of the branch reconciler *)

Lemma for_each_Ok {X} (f : X → call) message (xs : list X) s s' :
  for_each xs (λ x, wrapping message (tell (f x))) s = (Ok tt, s') →
  log s' = log s ++ ((λ x, (f x, None)) <$> xs).
Proof.
  intros H. destruct (returns_run _ _ _ _ _ (for_each_told f message xs) H)
    as (l & -> & ->). done.
Qed.

(** A run of [updateBranchSettings] that returns no error: the diff
    loop, the removals and the updates. *)
Lemma updateBranchSettings_Ok client owner name githubBranches
    branchesSettings s s' :
  updateBranchSettings client owner name githubBranches branchesSettings s
  = (Ok tt, s') →
  ∃ toUpdate m s1,
    diff_branches client owner name githubBranches branchesSettings s
    = (Ok (toUpdate, m), s1) ∧
    log s' = log s1
      ++ ((λ b, (Repositories_RemoveBranchProtection owner name b, None))
            <$> (map_range m).*1)
      ++ ((λ d, (Repositories_UpdateBranchProtection owner name
                   (branch.Name d) (protection_request d), None))
            <$> toUpdate).
Proof.
  unfold updateBranchSettings. intros H.
  apply bind_Ok in H as ([toUpdate m] & s1 & Hdiff & H).
  apply bind_Ok in H as ([] & s2 & Hremove%for_each_Ok & Hupdate%for_each_Ok).
  exists toUpdate, m, s1. split; [done|].
  by rewrite Hupdate, Hremove, <- app_assoc.
Qed.

Lemma diff_branches_Ok client owner name githubBranches branchesSettings
    s toUpdate m s1 :
  diff_branches client owner name githubBranches branchesSettings s
  = (Ok (toUpdate, m), s1) →
  ∃ cs us hashes,
    foldl (classify branch.Name branch_differs (λ _ d, d))
          ([], [], index branch.Name githubBranches) branchesSettings
    = (cs, us, m) ∧
    (∀ d, d ∈ toUpdate ↔ d ∈ cs ∨ d ∈ us) ∧
    length hashes = length cs ∧
    log s1 = log s ++ materializations
                        (fmtGithubURL owner name (token client)) cs hashes.
Proof.
  unfold diff_branches. intros H.
  destruct (diff_branch_loop _ _ _ _ _ _ _ _ _ _ [] [] H)
    as (cs & us & hashes & Hfold & Hin & Hlen & Hlog).
  exists cs, us, hashes. split_and!; try done.
  intros d. rewrite Hin. split; [|by right].
  by intros [?%elem_of_nil|?].
Qed.

Lemma materializations_elem url cs hashes d :
  d ∈ cs → length hashes = length cs →
  ∃ pre hash post,
    materializations url cs hashes
    = pre ++ materialized url (branch.Name d) hash ++ post.
Proof.
  unfold materializations. revert hashes.
  induction cs as [|c cs IH]; intros [|h hashes] Hin Hlen;
    try (by apply elem_of_nil in Hin); try done.
  apply elem_of_cons in Hin as [->|Hin].
  - exists [], h, (mjoin (zip_with
      (λ d hash, materialized url (branch.Name d) hash) cs hashes)).
    done.
  - destruct (IH hashes Hin) as (pre & hash & post & Heq); [by injection Hlen|].
    exists (materialized url (branch.Name c) h ++ pre), hash, post.
    simpl in *. rewrite Heq. done.
Qed.

(** ** C8: a branch that is not on the remote *)

(** *** The worlds of a materialization *)

Lemma wrapped_tell_Ok_world message c s s' :
  wrapping message (tell c) s = (Ok tt, s') →
  ∃ w, invoke c (world s) = (None, w) ∧
       s' = mk_state w (log s ++ [(c, None)]).
Proof.
  intros H%wrapping_Ok. unfold tell in H.
  destruct (invoke c (world s)) as [[e|] w]; [done|].
  injection H as <-. by exists w.
Qed.

Lemma wrapped_ask_Ok_world {A} message c (f : World → response A * World)
    s a s' :
  wrapping message (ask c f) s = (Ok a, s') →
  ∃ w, f (world s) = (Success a, w) ∧
       s' = mk_state w (log s ++ [(c, None)]).
Proof.
  intros H%wrapping_Ok. unfold ask in H.
  destruct (f (world s)) as [[a'|e] w]; [|done].
  injection H as <- <-. by exists w.
Qed.

Lemma createBranch_loop_Ok hash branches :
  ∀ s s',
    for_each branches (λ branch,
      wrapping ("Error setting reference storer for branch " +:+ branch)
        (tell (Storer_SetReference ("refs/heads/" +:+ branch) hash));;
      wrapping ("Error pushing reference for branch " +:+ branch)
        (tell (Repository_Push []))) s = (Ok tt, s') →
    log s' = log s
             ++ mjoin ((λ branch,
                          [(Storer_SetReference ("refs/heads/" +:+ branch)
                              hash, None);
                           (Repository_Push [], None)]) <$> branches).
Proof.
  unfold for_each.
  induction branches as [|branch branches IH]; intros s s' H.
  - rewrite for_range_nil in H. injection H as <-. by rewrite app_nil_r.
  - rewrite for_range_cons in H.
    apply bind_Ok in H as ([] & s1 & H1 & H).
    apply bind_Ok in H1 as ([] & s2 & H2%wrapped_tell_Ok & H3%wrapped_tell_Ok).
    apply IH in H. rewrite H, H3, H2, fmap_cons. simpl.
    by rewrite <- !app_assoc.
Qed.

(** A run of [createBranch] that returns no error: the head is
    read from the world the clone has left, and every reference is
    set to its commit. *)
Lemma createBranch_run client branches url s s' :
  createBranch client branches url s = (Ok tt, s') →
  ∃ hash,
    head_of_clone url (world s) hash ∧
    log s' = log s
             ++ [(git_Clone url, None); (Repository_Head, None)]
             ++ mjoin ((λ branch,
                          [(Storer_SetReference ("refs/heads/" +:+ branch)
                              hash, None);
                           (Repository_Push [], None)]) <$> branches).
Proof.
  unfold createBranch. intros H.
  apply bind_Ok in H as ([] & s1 & H1 & H).
  apply wrapped_tell_Ok_world in H1 as (w1 & Hclone & ->).
  apply bind_Ok in H as (hash & s2 & H2 & H).
  apply wrapped_ask_Ok_world in H2 as (w2 & Hhead & ->).
  apply createBranch_loop_Ok in H. simpl in *.
  exists hash. split; [by exists w1, w2|].
  by rewrite H, <- !app_assoc.
Qed.

Lemma for_range_app_Ok {X S} (xs ys : list X) (body : X → S → M World S)
    acc s r s' :
  for_range (xs ++ ys) body acc s = (Ok r, s') →
  ∃ acc0 s0,
    for_range xs body acc s = (Ok acc0, s0) ∧
    for_range ys body acc0 s0 = (Ok r, s').
Proof.
  revert acc s. induction xs as [|x xs IH]; intros acc s H.
  - exists acc, s. by rewrite for_range_nil.
  - rewrite <- app_comm_cons, for_range_cons in H.
    apply bind_Ok in H as (acc1 & s1 & Hstep & H).
    destruct (IH _ _ H) as (acc0 & s0 & Hxs & Hys).
    exists acc0, s0. split; [|done].
    rewrite for_range_cons. by rewrite (bind_run_Ok _ _ _ _ _ Hstep).
Qed.

(** The materialization of a desired branch whose name the remote
    does not have, in the loop of [updateBranchSettings]: the
    branches before it have been gone through, the clone is made in
    the world they have left, and the reference is set to the commit
    of the head of that clone. *)
Lemma new_branch_materialized client owner name githubBranches
    branchesSettings d s toUpdate m s1 :
  d ∈ branchesSettings →
  branch.Name d ∉ branch.Name <$> githubBranches →
  diff_branches client owner name githubBranches branchesSettings s
  = (Ok (toUpdate, m), s1) →
  ∃ before after acc0 s0 pre hash post,
    branchesSettings = before ++ d :: after ∧
    diff_branches client owner name githubBranches before s
    = (Ok acc0, s0) ∧
    log s0 = log s ++ pre ∧
    head_of_clone (fmtGithubURL owner name (token client)) (world s0) hash ∧
    log s1 = log s ++ pre
             ++ materialized (fmtGithubURL owner name (token client))
                  (branch.Name d) hash
             ++ post.
Proof.
  intros Hd Hnew H.
  apply list_elem_of_split in Hd as (before & after & ->).
  unfold diff_branches in H.
  apply for_range_app_Ok in H as ([tu0 m0] & s0 & Hpre & Hrest).
  rewrite for_range_cons in Hrest.
  apply bind_Ok in Hrest as ([tu1 m1] & s2 & Hstep & Hrest).
  destruct (diff_branch_loop _ _ _ before _ _ _ _ _ _ [] [] Hpre)
    as (cs & us & hashes & Hfold & _ & _ & Hlog0).
  apply classify_fold_map in Hfold.
  assert (m0 !! branch.Name d = None) as Hnone.
  { rewrite Hfold.
    destruct (decide (branch.Name d ∈ branch.Name <$> before)).
    - by apply lookup_foldr_delete.
    - rewrite lookup_foldr_delete_not_elem_of by done.
      by apply (index_lookup_None branch.Name). }
  unfold diff_branch in Hstep. rewrite Hnone in Hstep.
  apply bind_Ok in Hstep as ([] & s3 & Hcreate & Hret).
  rewrite mret_run in Hret. injection Hret as _ _ <-.
  apply wrapping_Ok, createBranch_run in Hcreate
    as (hash & Hhead & Hlog2).
  destruct (diff_branch_loop _ _ _ after _ _ _ _ _ _ [] [] Hrest)
    as (cs' & us' & hashes' & _ & _ & _ & Hlog1).
  exists before, after, (tu0, m0), s0,
    (materializations (fmtGithubURL owner name (token client)) cs hashes),
    hash,
    (materializations (fmtGithubURL owner name (token client)) cs' hashes').
  split_and!; [done..|].
  rewrite Hlog1, Hlog2, Hlog0. unfold materialized. simpl.
  by rewrite <- !app_assoc.
Qed.

(** C8. A desired branch whose name the remote does not have: the
    loop of [updateBranchSettings] goes through the branches before
    it, then runs the Branch Materializer for it, that is clones the
    repository, reads the head of that clone, sets the reference of
    the branch to the commit of that head and pushes; when the loop
    ends without an error the branch is among those whose protection
    is to update, whatever its protection; and when
    [updateBranchSettings] returns no error, the call that updates
    its protection comes later in the same run. *)
Theorem new_branch_then_protection client owner name githubBranches
    branchesSettings d s s' :
  d ∈ branchesSettings →
  branch.Name d ∉ branch.Name <$> githubBranches →
  (∀ toUpdate m s1,
     diff_branches client owner name githubBranches branchesSettings s
     = (Ok (toUpdate, m), s1) →
     d ∈ toUpdate ∧
     ∃ before after acc0 s0 pre hash post,
       branchesSettings = before ++ d :: after ∧
       diff_branches client owner name githubBranches before s
       = (Ok acc0, s0) ∧
       log s0 = log s ++ pre ∧
       head_of_clone (fmtGithubURL owner name (token client))
         (world s0) hash ∧
       log s1 = log s ++ pre
                ++ materialized (fmtGithubURL owner name (token client))
                     (branch.Name d) hash
                ++ post) ∧
  (updateBranchSettings client owner name githubBranches branchesSettings s
   = (Ok tt, s') →
   ∃ before after acc0 s0 pre hash mid post,
     branchesSettings = before ++ d :: after ∧
     diff_branches client owner name githubBranches before s
     = (Ok acc0, s0) ∧
     log s0 = log s ++ pre ∧
     head_of_clone (fmtGithubURL owner name (token client))
       (world s0) hash ∧
     log s' = log s ++ pre
              ++ materialized (fmtGithubURL owner name (token client))
                   (branch.Name d) hash
              ++ mid
              ++ (Repositories_UpdateBranchProtection owner name
                    (branch.Name d) (protection_request d), None) :: post).
Proof.
  intros Hd Hnew.
  assert (∀ toUpdate m s1,
     diff_branches client owner name githubBranches branchesSettings s
     = (Ok (toUpdate, m), s1) → d ∈ toUpdate) as Hscheduled.
  { intros toUpdate m s1 H.
    apply diff_branches_Ok in H
      as (cs & us & hashes & Hfold & Hin & Hlen & Hlog).
    apply Hin. left.
    eapply classify_fold_absent; [exact Hfold|]. right.
    split; [done|]. by apply index_lookup_None. }
  split.
  { intros toUpdate m s1 H. split; [by eapply Hscheduled|].
    by eapply new_branch_materialized. }
  intros H.
  apply updateBranchSettings_Ok in H as (toUpdate & m & s1 & H1 & Hlog).
  destruct (new_branch_materialized _ _ _ _ _ _ _ _ _ _ Hd Hnew H1)
    as (before & after & acc0 & s0 & pre & hash & post
        & HD & Hpre & Hlog0 & Hhead & Hlog1).
  pose proof (Hscheduled _ _ _ H1) as Hin.
  apply list_elem_of_split in Hin as (earlier & later & ->).
  exists before, after, acc0, s0, pre, hash,
    (post ++ ((λ b, (Repositories_RemoveBranchProtection owner name b, None))
                <$> (map_range m).*1)
          ++ ((λ d, (Repositories_UpdateBranchProtection owner name
                       (branch.Name d) (protection_request d), None))
                <$> earlier)),
    ((λ d, (Repositories_UpdateBranchProtection owner name
              (branch.Name d) (protection_request d), None)) <$> later).
  split_and!; [done..|].
  rewrite Hlog, Hlog1, fmap_app, fmap_cons. by rewrite <- !app_assoc.
Qed.

(** ** C9: a remote branch that is not desired *)

Lemma issued_keeps_branches c : issued c = true → deletes_branch c = false.
Proof.
  destruct c; try done. simpl. by intros ->%bool_decide_eq_true.
Qed.

(** C9. In a run of [updateBranchSettings] that returns no error, the
    call that removes the protection of a branch is made for every
    remote branch whose name no desired branch has; and no run of
    [Apply] makes a call that deletes a branch, neither through the
    client nor through a push. *)
Theorem unlisted_branch_unprotected client owner name githubBranches
    branchesSettings settings g s s' :
  updateBranchSettings client owner name githubBranches branchesSettings s
  = (Ok tt, s') →
  g ∈ githubBranches →
  branch.Name g ∉ branch.Name <$> branchesSettings →
  (∃ l, log s' = log s ++ l ∧
        (Repositories_RemoveBranchProtection owner name (branch.Name g), None)
        ∈ l) ∧
  emits (Apply client settings) (Forall (λ x, deletes_branch x.1 = false)).
Proof.
  intros H Hg Hunlisted. split.
  - apply updateBranchSettings_Ok in H as (toUpdate & m & s1 & H1 & Hlog).
    apply diff_branches_Ok in H1
      as (cs & us & hashes & Hfold & _ & _ & Hlog1).
    apply classify_fold_map in Hfold as ->.
    eexists. rewrite Hlog, Hlog1, <- app_assoc. split; [done|].
    apply elem_of_app. right. apply elem_of_app. left.
    apply list_elem_of_fmap. exists (branch.Name g). split; [done|].
    destruct (index branch.Name githubBranches !! branch.Name g)
      as [g'|] eqn:Hindex.
    + apply list_elem_of_fmap. exists (branch.Name g, g'). split; [done|].
      rewrite map_range_perm. apply elem_of_map_to_list.
      by rewrite lookup_foldr_delete_not_elem_of.
    + apply index_lookup_None in Hindex. destruct Hindex.
      apply list_elem_of_fmap. eauto.
  - apply (Apply_calls (only (λ c, deletes_branch c = false))
             (only_sequential _)).
    intros c Hc. by apply admits_only, issued_keeps_branches.
Qed.


(** ** C6: the secret of a webhook *)

Lemma returns_Ok_intro {A} (m : M World A) Q (R : A → Prop) :
  returns m Q → (∀ s a s', m s = (Ok a, s') → R a) →
  returns m (λ r l, Q r l ∧ ∀ a, r = Ok a → R a).
Proof.
  intros Hm HR s. destruct (Hm s) as (l & Hl & HQ).
  exists l. split_and!; [done..|]. intros a Ha.
  apply (HR s a (m s).2). destruct (m s) as [r s']. simpl in *. by subst.
Qed.

(** The comparison of the webhook reconciler looks at the URL, the
    content type and the events, and at nothing else. *)
Lemma webhook_differs_false g d :
  webhook_differs g d = false ↔
  webhook.URL g = webhook.URL d ∧
  webhook.ContentType g = webhook.ContentType d ∧
  webhook.Events g = webhook.Events d.
Proof.
  unfold webhook_differs, webhook_adopt, DeepEqual.
  rewrite negb_false_iff, bool_decide_eq_true.
  destruct g, d. unfold webhook_set_Secret, webhook_set_ID. simpl.
  split; [intros [= -> -> ->]|intros (-> & -> & ->)]; done.
Qed.

Lemma github_hook_url w :
  github.Hook.Config (github_hook w) !! "url"
  = Some (github.of_string (webhook.URL w)).
Proof.
  unfold github_hook. cbn [github.Hook.Config].
  rewrite !lookup_insert_ne by done. apply lookup_insert_eq.
Qed.

Lemma github_hook_content_type w :
  github.Hook.Config (github_hook w) !! "content_type"
  = Some (github.of_string (webhook.ContentType w)).
Proof. unfold github_hook. cbn [github.Hook.Config]. apply lookup_insert_eq. Qed.

Lemma github_hook_inj u d :
  github_hook u = github_hook d →
  webhook.URL u = webhook.URL d ∧
  webhook.ContentType u = webhook.ContentType d ∧
  webhook.Events u = webhook.Events d.
Proof.
  intros H.
  pose proof (f_equal (λ h, github.Hook.Config h !! "url") H) as Hurl.
  pose proof (f_equal (λ h, github.Hook.Config h !! "content_type") H)
    as Htype.
  pose proof (f_equal github.Hook.Events H) as Hevents.
  cbv beta in Hurl, Htype.
  rewrite !github_hook_url in Hurl.
  rewrite !github_hook_content_type in Htype.
  injection Hurl as ->. injection Htype as ->. done.
Qed.

Lemma webhook_adopt_fields g d :
  webhook.URL (webhook_adopt g d) = webhook.URL d ∧
  webhook.ContentType (webhook_adopt g d) = webhook.ContentType d ∧
  webhook.Events (webhook_adopt g d) = webhook.Events d ∧
  webhook.Secret (webhook_adopt g d) = webhook.Secret d ∧
  webhook.ID (webhook_adopt g d) = webhook.ID g.
Proof. done. Qed.

(** The webhooks recorded to update when the diff loop ends without
    an error. *)
Lemma diff_webhooks_Ok client owner name githubWebhooks webhooksSettings
    s toUpdate m s1 :
  diff_webhooks client owner name githubWebhooks webhooksSettings s
  = (Ok (toUpdate, m), s1) →
  ∃ cs,
    foldl (classify webhook.URL webhook_differs webhook_adopt)
          ([], [], index webhook.URL githubWebhooks) webhooksSettings
    = (cs, toUpdate, m) ∧
    log s1 = log s ++ ((λ d, (Repositories_CreateHook owner name
                                (github_hook d), None)) <$> cs).
Proof.
  unfold diff_webhooks. intros H.
  destruct (diff_webhook_loop _ _ _ _ _ _ _ _ _ _ [] H) as (cs & Hfold & Hlog).
  by exists cs.
Qed.

(** The pair of a desired webhook and the remote webhook that the
    map of the reconciler holds for its URL. *)
Lemma webhook_secret_blind_found client owner name githubWebhooks
    webhooksSettings d g :
  webhook_map githubWebhooks !! webhook.URL d = Some g →
  webhook.ContentType d = webhook.ContentType g →
  webhook.Events d = webhook.Events g →
  webhook_set_Secret (webhook.Secret d) g
  = webhook_set_ID (webhook.ID g) d ∧
  webhook_differs g d = false ∧
  emits (updateWebhooks client owner name githubWebhooks webhooksSettings)
        (Forall (λ x, ∀ id,
           x.1 ≠ Repositories_EditHook owner name id (github_hook d))).
Proof.
  change (webhook_map githubWebhooks)
    with (index webhook.URL githubWebhooks).
  intros Hg Htype Hevents.
  assert (webhook_differs g d = false) as Hsame.
  { apply webhook_differs_false. split_and!; [|done..].
    by apply index_lookup_Some in Hg as [_ ?]. }
  split_and!; [|done|].
  { unfold webhook_differs, webhook_adopt, DeepEqual in Hsame.
    by apply negb_false_iff, bool_decide_eq_true in Hsame. }
  set (ψ := λ c, ∀ id,
         c ≠ Repositories_EditHook owner name id (github_hook d)).
  set (good := λ a : list webhook.t * gmap string webhook.t,
         ∀ u, u ∈ a.1 →
           ∃ d' g', index webhook.URL githubWebhooks !! webhook.URL d'
                    = Some g' ∧
                    u = webhook_adopt g' d' ∧ webhook_differs g' d' = true).
  unfold updateWebhooks.
  eapply (returns_bind _ _
            (λ r l, only ψ _ r l ∧ ∀ a, r = Ok a → good a)
            (λ _ _ l, Forall (λ x, ψ x.1) l)).
  - apply returns_Ok_intro.
    + apply diff_webhooks_calls; [apply only_sequential|].
      intros c Hk Ho _. apply admits_only. intros id ->. done.
    + intros s [toUpdate m] s1 H u Hu. simpl in Hu.
      apply diff_webhooks_Ok in H as (cs & Hfold & _).
      destruct (classify_fold_changed _ _ _ _ _ _ _ _ _ _ u Hfold Hu)
        as [Hnil|(d' & g' & _ & ? & ? & ?)]; [by apply elem_of_nil in Hnil|].
      by exists d', g'.
  - intros [toUpdate m] l1 [_ Hgood].
    specialize (Hgood _ eq_refl). simpl in Hgood.
    apply (sequential_bind _ (only_sequential ψ)).
    + eapply returns_weaken; [apply for_each_told|].
      intros r l. apply told_only. intros w _ id. done.
    + intros _. eapply returns_weaken; [apply for_each_told|].
      intros r l. apply told_only. intros u Hu id Heq.
      pose proof (f_equal (λ c, match c with
                                | Repositories_EditHook _ _ _ h => Some h
                                | _ => None
                                end) Heq) as Hhook.
      apply (inj Some) in Hhook.
      destruct (Hgood u Hu) as (d' & g' & Hg' & -> & Hdiff).
      apply github_hook_inj in Hhook as (Hurl & Htype' & Hevents').
      destruct (webhook_adopt_fields g' d') as (Eu & Et & Ee & _).
      rewrite Eu in Hurl. rewrite Et in Htype'. rewrite Ee in Hevents'.
      rewrite Hurl, Hg in Hg'. injection Hg' as <-.
      apply webhook_differs_false in Hsame as (? & ? & ?).
      assert (webhook_differs g d' = false) as Hno.
      { apply webhook_differs_false. split_and!; congruence. }
      congruence.
  - intros a l1 r l2 [H1 _] H2. by apply Forall_app.
  - intros e l [H1 _]. exact H1.
  - intros l [H1 _]. exact H1.
Qed.

(** The map of the remote entities holds, for an identity, the last
    entity listed with it. *)
Lemma index_lookup_last {T} (key : T → string) (earlier later : list T) g :
  key g ∉ key <$> later →
  index key (earlier ++ g :: later) !! key g = Some g.
Proof.
  induction later as [|x later IH] using rev_ind; intros Hlast.
  - rewrite (index_snoc key). apply lookup_insert_eq.
  - rewrite fmap_app, not_elem_of_app in Hlast. destruct Hlast as [Hlater Hx].
    rewrite app_comm_cons, app_assoc, (index_snoc key).
    rewrite lookup_insert_ne; [by apply IH|].
    intros Heq. apply Hx. simpl. rewrite Heq. left.
Qed.

(** C6, for the remote webhook that is the last one listed with the
    URL of a desired webhook, which is the one the reconciler
    compares with (the only one, when the URLs of the remote
    webhooks are pairwise distinct). When that remote webhook has
    the content type and the events of the desired one, the pair
    needs no update, whatever the two secrets and identifiers are:
    the comparison is made after the remote identifier is copied to
    the desired record and the desired secret to the remote record.
    No run of [updateWebhooks] then makes a call that edits a hook
    to that desired webhook. *)
Theorem webhook_secret_blind client owner name githubWebhooks
    webhooksSettings d g earlier later :
  githubWebhooks = earlier ++ g :: later →
  webhook.URL g = webhook.URL d →
  webhook.URL d ∉ webhook.URL <$> later →
  webhook.ContentType d = webhook.ContentType g →
  webhook.Events d = webhook.Events g →
  webhook_set_Secret (webhook.Secret d) g
  = webhook_set_ID (webhook.ID g) d ∧
  webhook_differs g d = false ∧
  emits (updateWebhooks client owner name githubWebhooks webhooksSettings)
        (Forall (λ x, ∀ id,
           x.1 ≠ Repositories_EditHook owner name id (github_hook d))).
Proof.
  intros -> Hurl Hlast Htype Hevents.
  apply webhook_secret_blind_found; [|done..].
  rewrite <- Hurl. apply (index_lookup_last webhook.URL).
  by rewrite Hurl.
Qed.


(** ** C2: the three sets of each diff *)

(** C2, as the code has it. When no two remote entities and no two
    desired entities share an identity, each diff loop that ends
    without an error has found: to create, the desired entities
    whose identity no remote entity has; to delete, the remote
    entities whose identity no desired entity has; to update, the
    desired entities whose identity a remote entity has and from
    which they differ under whole-record equality (for a webhook,
    once the remote identifier is copied to the desired record and
    the desired secret to the remote record). For branches the set
    to update holds the branches to create as well. *)
Theorem identity_diff client owner name
    (githubLabels labelsSettings : list label.t)
    (githubBranches branchesSettings : list branch.t)
    (githubWebhooks webhooksSettings : list webhook.t) :
  NoDup (label.Name <$> githubLabels) →
  NoDup (label.Name <$> labelsSettings) →
  NoDup (branch.Name <$> githubBranches) →
  NoDup (branch.Name <$> branchesSettings) →
  NoDup (webhook.URL <$> githubWebhooks) →
  NoDup (webhook.URL <$> webhooksSettings) →
  (∀ labelsToCreate labelsToUpdate deleteLabelMap,
     diff_labels githubLabels labelsSettings
     = (labelsToCreate, labelsToUpdate, deleteLabelMap) →
     (∀ d, d ∈ labelsToCreate ↔
           d ∈ labelsSettings ∧ absent_from label.Name githubLabels d) ∧
     (∀ g, g ∈ (map_to_list deleteLabelMap).*2 ↔
           g ∈ githubLabels ∧ absent_from label.Name labelsSettings g) ∧
     (∀ d, d ∈ labelsToUpdate ↔
           d ∈ labelsSettings ∧
           ∃ g, g ∈ githubLabels ∧ label.Name g = label.Name d ∧ d ≠ g)) ∧
  (∀ s branchesToUpdate deleteBranchesMap s1,
     diff_branches client owner name githubBranches branchesSettings s
     = (Ok (branchesToUpdate, deleteBranchesMap), s1) →
     (∃ created hashes,
        log s1 = log s ++ materializations
                            (fmtGithubURL owner name (token client))
                            created hashes ∧
        length hashes = length created ∧
        ∀ d, d ∈ created ↔
             d ∈ branchesSettings ∧ absent_from branch.Name githubBranches d) ∧
     (∀ g, g ∈ (map_to_list deleteBranchesMap).*2 ↔
           g ∈ githubBranches ∧ absent_from branch.Name branchesSettings g) ∧
     (∀ d, d ∈ branchesToUpdate ↔
           d ∈ branchesSettings ∧
           (absent_from branch.Name githubBranches d ∨
            ∃ g, g ∈ githubBranches ∧ branch.Name g = branch.Name d ∧ g ≠ d))) ∧
  (∀ s webhooksToUpdate deleteWebhooksMap s1,
     diff_webhooks client owner name githubWebhooks webhooksSettings s
     = (Ok (webhooksToUpdate, deleteWebhooksMap), s1) →
     (∃ created,
        log s1 = log s ++ ((λ d, (Repositories_CreateHook owner name
                                    (github_hook d), None)) <$> created) ∧
        ∀ d, d ∈ created ↔
             d ∈ webhooksSettings ∧ absent_from webhook.URL githubWebhooks d) ∧
     (∀ g, g ∈ (map_to_list deleteWebhooksMap).*2 ↔
           g ∈ githubWebhooks ∧ absent_from webhook.URL webhooksSettings g) ∧
     (∀ u, u ∈ webhooksToUpdate ↔
           ∃ d g, d ∈ webhooksSettings ∧ g ∈ githubWebhooks ∧
                  webhook.URL g = webhook.URL d ∧
                  u = webhook_set_ID (webhook.ID g) d ∧
                  webhook_set_Secret (webhook.Secret d) g ≠ u)).
Proof.
  intros HAl HDl HAb HDb HAw HDw. split_and!.
  - intros cs us m H. rewrite diff_labels_classify in H.
    destruct (classify_sets _ _ _ _ _ _ _ _ HAl HDl H) as (Hcs & Hm & Hus).
    split_and!; [done..|]. intros d. rewrite Hus. unfold label_differs.
    split.
    + intros (d' & g & Hd' & Hg & Hkey & Hdiff%bool_decide_eq_true & ->).
      eauto.
    + intros (Hd & g & Hg & Hkey & Hdiff). exists d, g.
      split_and!; try done. by apply bool_decide_eq_true.
  - intros s tu m s1 H.
    apply diff_branches_Ok in H
      as (cs & us & hashes & Hfold & Hin & Hlen & Hlog).
    destruct (classify_sets _ _ _ _ _ _ _ _ HAb HDb Hfold)
      as (Hcs & Hm & Hus).
    split_and!; [by exists cs, hashes|done|].
    intros d. rewrite Hin, Hcs, Hus. unfold branch_differs, DeepEqual.
    split.
    + intros [[? ?]|(d' & g & Hd' & Hg & Hkey & Hdiff & ->)]; [by eauto|].
      split; [done|]. right. exists g. split_and!; try done.
      by apply negb_true_iff, bool_decide_eq_false in Hdiff.
    + intros [Hd [?|(g & Hg & Hkey & Hdiff)]]; [by left|].
      right. exists d, g. split_and!; try done.
      by apply negb_true_iff, bool_decide_eq_false.
  - intros s us m s1 H.
    apply diff_webhooks_Ok in H as (cs & Hfold & Hlog).
    destruct (classify_sets _ _ _ _ _ _ _ _ HAw HDw Hfold)
      as (Hcs & Hm & Hus).
    split_and!; [by exists cs|done|].
    intros u. rewrite Hus. unfold webhook_differs, webhook_adopt, DeepEqual.
    split.
    + intros (d & g & Hd & Hg & Hkey & Hdiff & ->). exists d, g.
      split_and!; try done.
      by apply negb_true_iff, bool_decide_eq_false in Hdiff.
    + intros (d & g & Hd & Hg & Hkey & -> & Hdiff). exists d, g.
      split_and!; try done.
      by apply negb_true_iff, bool_decide_eq_false.
Qed.


(** ** C1: a run on a remote that agrees with the desired settings *)

Lemma map_range_empty {V} : map_range (∅ : gmap string V) = [].
Proof.
  apply Permutation_nil_r. rewrite map_range_perm.
  by rewrite map_to_list_empty.
Qed.

Lemma same_entities_found {T} (key : T → string) A D d :
  same_entities key A D → d ∈ D → index key A !! key d = Some d.
Proof.
  intros (HA & _ & Hsame) Hd. apply index_lookup_NoDup; [done|].
  by apply Hsame.
Qed.

Lemma same_entities_listed {T} (key : T → string) A D g :
  same_entities key A D → g ∈ A → key g ∈ key <$> D.
Proof.
  intros (_ & _ & Hsame) Hg. apply list_elem_of_fmap. exists g.
  split; [done|]. by apply Hsame.
Qed.

Lemma updateLabels_settled client owner name githubLabels labelsSettings s :
  same_entities label.Name githubLabels labelsSettings →
  updateLabels client owner name githubLabels labelsSettings s = (Ok tt, s).
Proof.
  intros Hsame. unfold updateLabels.
  rewrite diff_labels_classify, classify_settled.
  - by rewrite map_range_empty.
  - apply Hsame.
  - intros d Hd. exists d. split; [by eapply same_entities_found|].
    unfold label_differs. by apply bool_decide_eq_false_2; intros [].
  - intros g. by apply same_entities_listed.
Qed.

Lemma diff_branch_loop_settled client owner name branchesSettings :
  ∀ tu m s,
    NoDup (branch.Name <$> branchesSettings) →
    (∀ d, d ∈ branchesSettings →
          ∃ g, m !! branch.Name d = Some g ∧ branch_differs g d = false) →
    for_range branchesSettings (diff_branch client owner name) (tu, m) s
    = (Ok (tu, foldr delete m (branch.Name <$> branchesSettings)), s).
Proof.
  induction branchesSettings as [|d D IH]; intros tu m s HD Hfound; [done|].
  rewrite fmap_cons, NoDup_cons in HD. destruct HD as [Hd HD].
  destruct (Hfound d) as (g & Hg & Hsame); [left|].
  rewrite for_range_cons.
  assert (diff_branch client owner name d (tu, m) s
          = (Ok (tu, delete (branch.Name d) m), s)) as Hstep.
  { unfold diff_branch, branch_differs in *. by rewrite Hg, Hsame. }
  rewrite (bind_run_Ok _ _ _ _ _ Hstep), IH; [|done|].
  - rewrite fmap_cons. simpl. by rewrite delete_foldr_delete.
  - intros d' Hd'. destruct (Hfound d') as (g' & Hg' & Hsame'); [by right|].
    exists g'. split; [|done]. rewrite lookup_delete_ne; [done|].
    intros Heq. apply Hd. rewrite Heq. apply list_elem_of_fmap. eauto.
Qed.

Lemma updateBranchSettings_settled client owner name githubBranches
    branchesSettings s :
  same_entities branch.Name githubBranches branchesSettings →
  updateBranchSettings client owner name githubBranches branchesSettings s
  = (Ok tt, s).
Proof.
  intros Hsame. unfold updateBranchSettings, diff_branches.
  change (branch_map githubBranches) with (index branch.Name githubBranches).
  erewrite bind_run_Ok; last first.
  { apply diff_branch_loop_settled; [apply Hsame|].
    intros d Hd. exists d. split; [by eapply same_entities_found|].
    unfold branch_differs, DeepEqual. by rewrite bool_decide_eq_true_2. }
  rewrite index_all_deleted by (intros g; by apply same_entities_listed).
  by rewrite map_range_empty.
Qed.

Lemma diff_webhook_loop_settled client owner name webhooksSettings :
  ∀ us m s,
    NoDup (webhook.URL <$> webhooksSettings) →
    (∀ d, d ∈ webhooksSettings →
          ∃ g, m !! webhook.URL d = Some g ∧ webhook_differs g d = false) →
    for_range webhooksSettings (diff_webhook client owner name) (us, m) s
    = (Ok (us, foldr delete m (webhook.URL <$> webhooksSettings)), s).
Proof.
  induction webhooksSettings as [|d D IH]; intros us m s HD Hfound; [done|].
  rewrite fmap_cons, NoDup_cons in HD. destruct HD as [Hd HD].
  destruct (Hfound d) as (g & Hg & Hsame); [left|].
  rewrite for_range_cons.
  assert (diff_webhook client owner name d (us, m) s
          = (Ok (us, delete (webhook.URL d) m), s)) as Hstep.
  { unfold diff_webhook, webhook_differs, webhook_adopt in *.
    rewrite Hg. simpl. by rewrite Hsame. }
  rewrite (bind_run_Ok _ _ _ _ _ Hstep), IH; [|done|].
  - rewrite fmap_cons. simpl. by rewrite delete_foldr_delete.
  - intros d' Hd'. destruct (Hfound d') as (g' & Hg' & Hsame'); [by right|].
    exists g'. split; [|done]. rewrite lookup_delete_ne; [done|].
    intros Heq. apply Hd. rewrite Heq. apply list_elem_of_fmap. eauto.
Qed.

Lemma updateWebhooks_settled client owner name githubWebhooks
    webhooksSettings s :
  same_webhooks githubWebhooks webhooksSettings →
  updateWebhooks client owner name githubWebhooks webhooksSettings s
  = (Ok tt, s).
Proof.
  intros (HA & HD & Hfound & Hlisted). unfold updateWebhooks, diff_webhooks.
  change (webhook_map githubWebhooks)
    with (index webhook.URL githubWebhooks).
  erewrite bind_run_Ok; last first.
  { apply diff_webhook_loop_settled; [done|].
    intros d Hd. destruct (Hfound d Hd) as (g & Hg & Hurl & Htype & Hevents).
    exists g. split; [|by apply webhook_differs_false].
    rewrite <- Hurl. by apply index_lookup_NoDup. }
  rewrite index_all_deleted by done.
  by rewrite map_range_empty.
Qed.

(** X23 (C1, for a remote that agrees with the desired settings). When the
    snapshot that a run of [Apply] reads has the desired repository
    attributes, the desired labels and branches in any order, the
    desired webhooks up to their identifiers and secrets, and the
    desired topics, the run makes no call after its reads and returns
    no error: in particular it makes no write call. *)
Theorem Apply_settled client settings s actual s1 :
  GetSettingsFromGithub client
    (repository.Owner (Settings.Repository settings))
    (repository.Name (Settings.Repository settings)) s
  = (Ok actual, s1) →
  settled actual settings →
  Apply client settings s = (Ok tt, s1) ∧
  ∃ reads, log s1 = log s ++ reads ∧
           Forall (λ x, is_write x.1 = false) reads.
Proof.
  intros Hread (Hrepo & Hlabels & Hbranches & Hwebhooks & Htopics). split.
  - unfold Apply.
    erewrite bind_run_Ok; [|by apply wrapping_Ok].
    erewrite bind_run_Ok; last first.
    { apply wrapping_Ok. unfold updateRepoSettings, DeepEqual.
      by rewrite bool_decide_eq_true_2. }
    erewrite bind_run_Ok;
      [|by apply wrapping_Ok, updateLabels_settled].
    erewrite bind_run_Ok;
      [|by apply wrapping_Ok, updateBranchSettings_settled].
    erewrite bind_run_Ok;
      [|by apply wrapping_Ok, updateWebhooks_settled].
    apply wrapping_Ok.
    by apply (updateTopicsSettings_DeepEqual client).
  - apply (returns_run _ _ _ _ _
      (GetSettingsFromGithub_calls (only (λ c, is_write c = false))
         (only_sequential _) client _ _
         (λ c Hk _, admits_only _ c (Reader_not_write c Hk))) Hread).
Qed.

(** ** The errors and the panics of a run *)

Lemma staged_bind {A B} (m : M World A) (k : A → M World B) :
  returns m staged → (∀ a, returns (k a) staged) →
  returns (m ≫= k) staged.
Proof.
  intros Hm Hk.
  apply (returns_bind m k staged (λ _, staged)); [done|auto|..].
  - intros a l1 r l2 H1 H2. unfold staged, clean in *.
    destruct r as [b|e|].
    + by apply Forall_app.
    + destruct H2 as (pre & c & cause & inner & -> & Hpre & -> & Hw).
      exists (l1 ++ pre), c, cause, inner. rewrite app_assoc.
      split_and!; [done| |done..]. by apply Forall_app.
    + by apply Forall_app.
  - done.
  - done.
Qed.

Lemma staged_wrapping {A} k (m : M World A) :
  returns m (λ r l, fail_fast r l ∧ only (λ c, kind_of c = k) A r l) →
  returns (wrapping (stage_message k) m) staged.
Proof.
  intros Hm. eapply returns_wrapping; [exact Hm|..].
  - by intros a l [H _].
  - intros e l [(pre & c & cause & -> & Hpre & Hw) Hk].
    exists pre, c, cause, e. split_and!; [done..| |done].
    unfold only in Hk. rewrite Forall_app, Forall_singleton in Hk.
    destruct Hk as [_ Hk]. simpl in Hk. by rewrite Hk.
  - by intros l [H _].
Qed.

Lemma in_stage k :
  sequential (λ A r l, fail_fast r l ∧ only (λ c, kind_of c = k) A r l).
Proof. apply sequential_and; [apply fail_fast_sequential|apply only_sequential]. Qed.

Lemma in_stage_admits k c :
  kind_of c = k →
  admits (λ A r l, fail_fast r l ∧ only (λ c, kind_of c = k) A r l) c.
Proof. intros Hk. apply admits_and; [apply admits_fail_fast|by apply admits_only]. Qed.

(** X1. Whatever the remote answers, a run of [Apply] stops at the
    first call that fails: the failed call is the last one made, no
    earlier call failed, and the error returned is that call's error
    under layers of [errors.Wrap], the outermost with the message of
    the stage the call belongs to. A run that returns no error made
    no call that failed. *)
Theorem Apply_error client settings :
  returns (Apply client settings) staged.
Proof.
  unfold Apply.
  apply staged_bind;
    [apply (staged_wrapping Reader), (GetSettingsFromGithub_calls _ (in_stage _));
     intros c Hk _; by apply in_stage_admits|].
  intros githubSettings.
  apply staged_bind;
    [apply (staged_wrapping RepositoryAttributes),
           (updateRepoSettings_calls _ (in_stage _));
     intros c Hk _; by apply in_stage_admits|].
  intros _.
  apply staged_bind;
    [apply (staged_wrapping Labels), (updateLabels_calls _ (in_stage _));
     intros c Hk _; by apply in_stage_admits|].
  intros _.
  apply staged_bind;
    [apply (staged_wrapping Branches), (updateBranchSettings_calls _ (in_stage _));
     intros c Hk _; by apply in_stage_admits|].
  intros _.
  apply staged_bind;
    [apply (staged_wrapping Webhooks), (updateWebhooks_calls _ (in_stage _));
     intros c Hk _; by apply in_stage_admits|].
  intros _.
  apply (staged_wrapping Topics), (updateTopicsSettings_calls _ (in_stage _)).
  intros c Hk _; by apply in_stage_admits.
Qed.

(** ** The repository a run is about *)

Ltac only_step HQ :=
  first
    [ apply (sequential_bind _ HQ)
    | apply (sequential_wrapping _ HQ)
    | apply (sequential_for_range _ HQ)
    | apply (sequential_for_each _ HQ)
    | apply (sequential_mret _ HQ)
    | apply (sequential_panic _ HQ)
    | apply sequential_tell; apply admits_only; by simpl
    | apply sequential_ask; apply admits_only; by simpl
    | progress cbv beta
    | case_match ].

Ltac only_steps HQ := repeat (intros; only_step HQ).

Lemma Apply_only_addressed client settings :
  returns (Apply client settings)
    (only (addressed (repository.Owner (Settings.Repository settings))
             (repository.Name (Settings.Repository settings))
             (fmtGithubURL (repository.Owner (Settings.Repository settings))
                (repository.Name (Settings.Repository settings))
                (token client))) unit).
Proof.
  set (owner := repository.Owner (Settings.Repository settings)).
  set (name := repository.Name (Settings.Repository settings)).
  pose proof (only_sequential
                (addressed owner name
                   (fmtGithubURL owner name (token client)))) as HQ.
  unfold Apply, GetSettingsFromGithub, read_branch, read_hook, config_string,
    updateRepoSettings, updateLabels, updateBranchSettings, diff_branches,
    diff_branch, createBranch, updateWebhooks, diff_webhooks, diff_webhook,
    updateTopicsSettings.
  fold owner name.
  only_steps HQ.
Qed.

(** X2. Every call a run of [Apply] makes is addressed to the
    repository that the desired settings name: the calls of the
    GitHub client carry its owner and name, and a clone is made from
    the URL of that repository with the client's token. No run reads
    a file or deletes a reference. *)
Theorem Apply_addressed client settings :
  let owner := repository.Owner (Settings.Repository settings) in
  let name := repository.Name (Settings.Repository settings) in
  emits (Apply client settings)
    (Forall (λ x, addressed owner name
                    (fmtGithubURL owner name (token client)) x.1)).
Proof. apply Apply_only_addressed. Qed.

(** ** The reader *)

Section GivesUp.

Context (message : call → string).

Lemma gives_up_mret {A} (a : A) :
  returns (mret a : M World A) (gives_up message).
Proof. apply returns_mret. apply Forall_nil_2. Qed.

Lemma gives_up_panic {A} : returns (panic : M World A) (gives_up message).
Proof. apply returns_panic. apply Forall_nil_2. Qed.

Lemma gives_up_ask {A} c (f : World → response A * World) :
  returns (wrapping (message c) (ask c f)) (gives_up message).
Proof.
  apply (returns_wrapping _ (ask c f)
           (λ r l, match r with
                   | Ok _ => l = [(c, None)]
                   | Err e => l = [(c, Some e)]
                   | Panic => False
                   end)).
  - by apply returns_ask.
  - intros a l ->. by apply Forall_singleton.
  - intros e l ->. exists [], c, e. split_and!; [done| |done].
    apply Forall_nil_2.
  - done.
Qed.

Lemma gives_up_bind {A B} (m : M World A) (k : A → M World B) :
  returns m (gives_up message) → (∀ a, returns (k a) (gives_up message)) →
  returns (m ≫= k) (gives_up message).
Proof.
  intros Hm Hk.
  apply (returns_bind m k (gives_up message) (λ _, gives_up message));
    [done|auto|..].
  - intros a l1 r l2 H1 H2. unfold gives_up, clean in *.
    destruct r as [b|e|].
    + by apply Forall_app.
    + destruct H2 as (pre & c & cause & -> & Hpre & ->).
      exists (l1 ++ pre), c, cause. rewrite app_assoc.
      split_and!; [done| |done]. by apply Forall_app.
    + by apply Forall_app.
  - done.
  - done.
Qed.

Lemma gives_up_for_range {X S} (xs : list X) (body : X → S → M World S) acc :
  (∀ x acc, returns (body x acc) (gives_up message)) →
  returns (for_range xs body acc) (gives_up message).
Proof.
  intros Hbody. revert acc. induction xs as [|x xs IH]; intros acc; simpl.
  - apply gives_up_mret.
  - apply gives_up_bind; [apply Hbody|]. intros acc'. apply IH.
Qed.

End GivesUp.

Lemma GetSettingsFromGithub_gives_up client owner name :
  returns (GetSettingsFromGithub client owner name) (gives_up reader_message).
Proof.
  unfold GetSettingsFromGithub, read_branch, read_hook, config_string.
  repeat (intros;
          first
            [ apply gives_up_bind
            | apply gives_up_for_range
            | apply gives_up_mret
            | apply gives_up_panic
            | match goal with
              | |- returns (wrapping _ (ask ?c ?f)) _ =>
                  apply (gives_up_ask reader_message c f)
              end
            | progress cbv beta
            | case_match ]).
Qed.

(** X3. [GetSettingsFromGithub] only reads: none of its calls
    changes the remote. It stops at the first call that fails, and
    returns that call's error wrapped once, with the message that
    goes with the call. *)
Theorem GetSettingsFromGithub_reads client owner name :
  returns (GetSettingsFromGithub client owner name) (λ r l,
    Forall (λ x, is_write x.1 = false ∧ kind_of x.1 = Reader) l ∧
    match r with
    | Err e =>
        ∃ pre c cause,
          l = pre ++ [(c, Some cause)] ∧ Forall (λ x, x.2 = None) pre ∧
          e = Wrap cause (reader_message c)
    | _ => Forall (λ x, x.2 = None) l
    end).
Proof.
  apply returns_and; [|apply GetSettingsFromGithub_gives_up].
  apply (GetSettingsFromGithub_calls _
           (only_sequential (λ c, is_write c = false ∧ kind_of c = Reader))).
  intros c Hk _. apply admits_only. split; [by apply Reader_not_write|done].
Qed.

(** ** Panics *)

Lemma never_panics_mret {A} (a : A) : never_panics (mret a : M World A).
Proof. by intros s. Qed.

Lemma never_panics_tell c : never_panics (tell c).
Proof. intros s. unfold tell. by destruct (invoke c (world s)) as [[e|] w]. Qed.

Lemma never_panics_ask {A} c (f : World → response A * World) :
  never_panics (ask c f).
Proof. intros s. unfold ask. by destruct (f (world s)) as [[a|e] w]. Qed.

Lemma never_panics_wrapping {A} message (m : M World A) :
  never_panics m → never_panics (wrapping message m).
Proof.
  intros Hm s. specialize (Hm s). unfold wrapping.
  by destruct (m s) as [[a|e|] s'].
Qed.

Lemma never_panics_bind {A B} (m : M World A) (k : A → M World B) :
  never_panics m → (∀ a, never_panics (k a)) → never_panics (m ≫= k).
Proof.
  intros Hm Hk s. specialize (Hm s). unfold mbind, M_bind, bind.
  destruct (m s) as [[a|e|] s']; [apply Hk|done..].
Qed.

Lemma never_panics_for_range {X S} (xs : list X) (body : X → S → M World S) acc :
  (∀ x acc, never_panics (body x acc)) → never_panics (for_range xs body acc).
Proof.
  intros Hbody. revert acc. induction xs as [|x xs IH]; intros acc; simpl.
  - apply never_panics_mret.
  - apply never_panics_bind; [apply Hbody|]. intros acc'. apply IH.
Qed.

Lemma never_panics_for_each {X} (xs : list X) (body : X → M World unit) :
  (∀ x, never_panics (body x)) → never_panics (for_each xs body).
Proof. intros Hbody. apply never_panics_for_range. auto. Qed.

Ltac never_panics_steps :=
  repeat (intros;
          first
            [ apply never_panics_bind
            | apply never_panics_wrapping
            | apply never_panics_for_range
            | apply never_panics_for_each
            | apply never_panics_mret
            | apply never_panics_tell
            | apply never_panics_ask
            | progress cbv beta
            | case_match ]).

Lemma reconcilers_never_panic client owner name actual settings :
  never_panics
    (wrapping "Error updating repository settings"
       (updateRepoSettings client owner name
          (Settings.Repository actual) (Settings.Repository settings));;
     wrapping "Error updating repository labels"
       (updateLabels client owner name
          (Settings.Labels actual) (Settings.Labels settings));;
     wrapping "Error updating repository branches protection"
       (updateBranchSettings client owner name
          (Settings.Branches actual) (Settings.Branches settings));;
     wrapping "Error updating repository webhooks"
       (updateWebhooks client owner name
          (Settings.Webhooks actual) (Settings.Webhooks settings));;
     wrapping "Error updating repository topics"
       (updateTopicsSettings client owner name
          (Settings.Topics actual) (Settings.Topics settings))).
Proof.
  unfold updateRepoSettings, updateLabels, updateBranchSettings, diff_branches,
    diff_branch, createBranch, updateWebhooks, diff_webhooks, diff_webhook,
    updateTopicsSettings.
  never_panics_steps.
Qed.

(** X4. A run of [Apply] can panic only while it reads the remote:
    if [Apply] panics, the panic is the reader's, and the calls made
    up to it are reads, so the remote is as it was. Once the remote
    has been read, the five reconcilers never panic. *)
Theorem Apply_panics_while_reading client settings s s' :
  Apply client settings s = (Panic, s') →
  GetSettingsFromGithub client
    (repository.Owner (Settings.Repository settings))
    (repository.Name (Settings.Repository settings)) s = (Panic, s') ∧
  ∃ reads, log s' = log s ++ reads ∧
           Forall (λ x, is_write x.1 = false) reads.
Proof.
  intros Hrun.
  assert (GetSettingsFromGithub client
            (repository.Owner (Settings.Repository settings))
            (repository.Name (Settings.Repository settings)) s
          = (Panic, s')) as Hread.
  { unfold Apply in Hrun.
    destruct (GetSettingsFromGithub client
                (repository.Owner (Settings.Repository settings))
                (repository.Name (Settings.Repository settings)) s)
      as [[actual|e|] s1] eqn:Hread.
    - erewrite bind_run_Ok in Hrun
        by (unfold wrapping; rewrite Hread; reflexivity).
      pose proof (reconcilers_never_panic client
                    (repository.Owner (Settings.Repository settings))
                    (repository.Name (Settings.Repository settings))
                    actual settings s1) as H.
      by rewrite Hrun in H.
    - erewrite bind_run_Err in Hrun
        by (unfold wrapping; rewrite Hread; reflexivity).
      done.
    - erewrite bind_run_Panic in Hrun
        by (unfold wrapping; rewrite Hread; reflexivity).
      by injection Hrun as <-. }
  split; [done|].
  destruct (returns_run _ _ _ _ _
              (GetSettingsFromGithub_calls _ (only_sequential _) client _ _
                 (λ c Hk _, admits_only _ c (Reader_not_write c Hk)))
              Hread) as (reads & Hlog & Hreads).
  by exists reads.
Qed.

(** X26. When the remote cannot be read, a run of [Apply] ends with
    the error of the reader, wrapped once more, and has made no call
    but the reads the reader made up to the one that failed: nothing
    is written to a remote that could not be read. *)
Theorem Apply_read_failure client settings s e s1 :
  GetSettingsFromGithub client
    (repository.Owner (Settings.Repository settings))
    (repository.Name (Settings.Repository settings)) s = (Err e, s1) →
  Apply client settings s
  = (Err (Wrap e "Error getting settings from github"), s1) ∧
  ∃ reads, log s1 = log s ++ reads ∧
           Forall (λ x, is_write x.1 = false) reads.
Proof.
  intros Hread. split.
  - unfold Apply. apply bind_run_Err. unfold wrapping. by rewrite Hread.
  - destruct (returns_run _ _ _ _ _
                (GetSettingsFromGithub_calls _ (only_sequential _) client _ _
                   (λ c Hk _, admits_only _ c (Reader_not_write c Hk)))
                Hread) as (reads & Hlog & Hreads).
    by exists reads.
Qed.

(** ** The loops of the reader *)

Lemma read_branch_Ok owner name githubBranch acc s out s' :
  read_branch owner name githubBranch acc s = (Ok out, s') →
  ∃ x, out = acc ++ [x] ∧
       branch.Name x = github.Branch.GetName githubBranch ∧
       protection.Enabled (branch.Protection x)
       = github.Branch.GetProtected githubBranch ∧
       (github.Branch.GetProtected githubBranch = false →
        branch.Protection x = protection.zero) ∧
       log s' = log s ++
                (if github.Branch.GetProtected githubBranch
                 then [protection_read owner name
                         (github.Branch.GetName githubBranch)]
                 else []).
Proof.
  unfold read_branch.
  destruct (github.Branch.GetProtected githubBranch); intros H.
  - apply bind_Ok in H as (githubProtection & s1 & H1%wrapped_ask_Ok & H).
    destruct (github.Protection.GetEnforceAdmins githubProtection);
      [|done].
    destruct (github.Protection.RequiredStatusChecks githubProtection);
      [|done].
    rewrite mret_run in H. injection H as <- <-.
    eexists. split_and!; [done..|].
    by rewrite H1.
  - rewrite mret_run in H. injection H as <- <-.
    eexists. split_and!; [done..|]. by rewrite app_nil_r.
Qed.

Lemma read_branches_Ok owner name githubBranches :
  ∀ acc s out s',
    for_range githubBranches (read_branch owner name) acc s = (Ok out, s') →
    ∃ new,
      out = acc ++ new ∧
      Forall2 (λ b x,
                 branch.Name x = github.Branch.GetName b ∧
                 protection.Enabled (branch.Protection x)
                 = github.Branch.GetProtected b ∧
                 (github.Branch.GetProtected b = false →
                  branch.Protection x = protection.zero))
              githubBranches new ∧
      log s' = log s ++
               ((λ b, protection_read owner name (github.Branch.GetName b))
                  <$> filter (λ b, github.Branch.GetProtected b = true)
                        githubBranches).
Proof.
  induction githubBranches as [|b bs IH]; intros acc s out s' H.
  - rewrite for_range_nil in H. injection H as <- <-.
    exists []. by rewrite !app_nil_r.
  - rewrite for_range_cons in H.
    apply bind_Ok in H as (acc' & s1 & H1 & H).
    apply read_branch_Ok in H1 as (x & -> & Hname & Henabled & Hzero & Hlog1).
    apply IH in H as (new & -> & Hnew & Hlog).
    exists (x :: new). split_and!.
    + by rewrite <- app_assoc.
    + by constructor.
    + rewrite Hlog, Hlog1, <- app_assoc. f_equal.
      rewrite filter_cons.
      destruct (github.Branch.GetProtected b); by case_decide.
Qed.

(** X5. The loop of [GetSettingsFromGithub] over the branches the
    remote lists, when it ends without an error: the snapshot gets
    one entry per branch, in the order of the listing, with the
    branch's name; an entry is enabled exactly when the remote marks
    the branch protected; an entry that is not enabled has the zero
    protection; and the protection was requested once for each
    protected branch, in that order, and for no other branch. *)
Theorem read_branches_snapshot owner name githubBranches acc s out s' :
  for_range githubBranches (read_branch owner name) acc s = (Ok out, s') →
  ∃ new,
    out = acc ++ new ∧
    branch.Name <$> new = github.Branch.GetName <$> githubBranches ∧
    (λ x, protection.Enabled (branch.Protection x)) <$> new
    = github.Branch.GetProtected <$> githubBranches ∧
    (∀ x, x ∈ new → protection.Enabled (branch.Protection x) = false →
          branch.Protection x = protection.zero) ∧
    log s' = log s ++
             ((λ b, protection_read owner name (github.Branch.GetName b))
                <$> filter (λ b, github.Branch.GetProtected b = true)
                      githubBranches).
Proof.
  intros H. apply read_branches_Ok in H as (new & -> & Hnew & Hlog).
  exists new. split_and!; [done| | | |done].
  - clear Hlog. induction Hnew as [|b x bs new (Hname & _) _ IH]; [done|].
    rewrite !fmap_cons. by rewrite Hname, IH.
  - clear Hlog.
    induction Hnew as [|b x bs new (_ & Henabled & _) _ IH]; [done|].
    rewrite !fmap_cons. by rewrite Henabled, IH.
  - clear Hlog.
    induction Hnew as [|b x bs new (_ & Henabled & Hzero) _ IH];
      intros y Hy Hoff.
    + by apply elem_of_nil in Hy.
    + apply elem_of_cons in Hy as [->|Hy]; [|by apply IH].
      apply Hzero. by rewrite <- Henabled.
Qed.

(** X6. One turn of that loop on a protected branch whose protection
    the remote returns: the turn panics exactly when the protection
    comes without the enforcement for administrators or without the
    required status checks, which the source reads through a nil
    pointer; in any case the one request is logged. *)
Theorem read_branch_nil_protection owner name githubBranch acc s
    githubProtection w :
  github.Branch.GetProtected githubBranch = true →
  get_branch_protection owner name (github.Branch.GetName githubBranch)
    (world s) = (Success githubProtection, w) →
  ((read_branch owner name githubBranch acc s).1 = Panic ↔
   github.Protection.GetEnforceAdmins githubProtection = None ∨
   github.Protection.RequiredStatusChecks githubProtection = None) ∧
  (read_branch owner name githubBranch acc s).2
  = mk_state w (log s ++ [protection_read owner name
                            (github.Branch.GetName githubBranch)]).
Proof.
  intros Hprotected Hget. unfold read_branch. rewrite Hprotected.
  unfold mbind, M_bind, bind, wrapping, ask. rewrite Hget. simpl.
  destruct (github.Protection.GetEnforceAdmins githubProtection) as [a|],
    (github.Protection.RequiredStatusChecks githubProtection) as [c|];
    simpl; (split; [|done]);
    (split;
     [intros H; first [discriminate H | by left | by right]
     |intros H; first [reflexivity | by destruct H]]).
Qed.

Lemma forallb_false {X} (f : X → bool) (xs : list X) :
  forallb f xs = false ↔ ∃ x, x ∈ xs ∧ f x = false.
Proof.
  induction xs as [|x xs IH]; simpl.
  - split; [done|]. by intros (x & Hx%elem_of_nil & _).
  - destruct (f x) eqn:Hfx; simpl.
    + rewrite IH. split; intros (y & Hy & Hfy); exists y.
      * split; [by right|done].
      * apply elem_of_cons in Hy as [->|Hy]; [congruence|done].
    + split; [|done]. intros _. exists x. split; [by left|done].
Qed.

Lemma read_hook_run hook acc s :
  read_hook hook acc s
  = (if configured hook then Ok (acc ++ [hook_webhook hook]) else Panic, s).
Proof.
  unfold read_hook, config_string, configured, hook_webhook, config_value,
    config_is_string, mbind, M_bind, bind.
  simpl forallb.
  destruct (github.Hook.Config hook !! "url") as [[]|]; try done.
  destruct (github.Hook.Config hook !! "content_type") as [[]|]; try done.
  by destruct (github.Hook.Config hook !! "secret") as [[]|].
Qed.

Lemma read_hooks_run hooks :
  ∀ acc s,
    for_range hooks read_hook acc s
    = (if forallb configured hooks
       then Ok (acc ++ (hook_webhook <$> hooks)) else Panic, s).
Proof.
  induction hooks as [|hook hooks IH]; intros acc s.
  - rewrite for_range_nil. simpl. by rewrite app_nil_r.
  - rewrite for_range_cons. unfold mbind, M_bind, bind.
    rewrite read_hook_run. simpl.
    destruct (configured hook); [|done].
    rewrite IH. simpl. by rewrite <- app_assoc.
Qed.

(** X7. The loop of [GetSettingsFromGithub] over the hooks the
    remote lists makes no call. It panics exactly when the
    configuration of some hook lacks a string under one of the keys
    url, content_type and secret, the three type assertions of the
    source; otherwise it appends one webhook per hook, in the order
    of the listing, with the hook's identifier, the three strings
    and the hook's events. It never returns an error. *)
Theorem read_hooks_snapshot hooks acc s :
  (for_range hooks read_hook acc s).2 = s ∧
  ((for_range hooks read_hook acc s).1 = Panic ↔
   ∃ hook, hook ∈ hooks ∧ configured hook = false) ∧
  ((for_range hooks read_hook acc s).1 ≠ Panic →
   (for_range hooks read_hook acc s).1
   = Ok (acc ++ (hook_webhook <$> hooks))).
Proof.
  rewrite read_hooks_run. simpl. split_and!; [done| |].
  - rewrite <- forallb_false. by destruct (forallb configured hooks).
  - by destruct (forallb configured hooks).
Qed.

Lemma protected_reads owner name githubBranches new :
  Forall2 (λ b x,
             branch.Name x = github.Branch.GetName b ∧
             protection.Enabled (branch.Protection x)
             = github.Branch.GetProtected b ∧
             (github.Branch.GetProtected b = false →
              branch.Protection x = protection.zero))
          githubBranches new →
  (λ b, protection_read owner name (github.Branch.GetName b))
    <$> filter (λ b, github.Branch.GetProtected b = true) githubBranches
  = (λ x, protection_read owner name (branch.Name x))
      <$> filter (λ x, protection.Enabled (branch.Protection x) = true) new.
Proof.
  induction 1 as [|b x bs new (Hname & Henabled & _) _ IH]; [done|].
  rewrite !filter_cons, Henabled.
  case_decide; [|done]. by rewrite !fmap_cons, Hname, IH.
Qed.

(** X8. The calls of a read of the remote that returns a snapshot:
    the repository, the labels and the branches are requested, then
    the protection of each branch that the snapshot holds as
    enabled, in the order of the snapshot, then the hooks; nothing
    else is called and every call is answered without an error. *)
Theorem GetSettingsFromGithub_log client owner name s actual s' :
  GetSettingsFromGithub client owner name s = (Ok actual, s') →
  log s' = log s
           ++ [(Repositories_Get owner name, None);
               (Issues_ListLabels owner name, None);
               (Repositories_ListBranches owner name, None)]
           ++ ((λ x, protection_read owner name (branch.Name x))
                 <$> filter (λ x, protection.Enabled (branch.Protection x)
                                  = true)
                       (Settings.Branches actual))
           ++ [(Repositories_ListHooks owner name, None)].
Proof.
  unfold GetSettingsFromGithub. intros H.
  apply bind_Ok in H as (githubRepo & s1 & H1%wrapped_ask_Ok & H).
  apply bind_Ok in H as (githubLabels & s2 & H2%wrapped_ask_Ok & H).
  apply bind_Ok in H as (githubBranches & s3 & H3%wrapped_ask_Ok & H).
  apply bind_Ok in H as (branchesSettings & s4 & H4 & H).
  apply bind_Ok in H as (hooks & s5 & H5%wrapped_ask_Ok & H).
  apply bind_Ok in H as (webhooksSettings & s6 & H6 & H).
  rewrite mret_run in H. injection H as <- <-.
  rewrite read_hooks_run in H6. injection H6 as _ <-.
  apply read_branches_Ok in H4 as (new & -> & Hnew & H4).
  simpl. rewrite H5, H4, H3, H2, H1, (protected_reads _ _ _ _ Hnew).
  by rewrite <- !app_assoc.
Qed.

(** ** What the reconcilers call, whatever the lists *)

Section Accounted.

Context {T : Type} (key : T → string).
Context (differs : T → T → bool) (adopt : T → T → T).

Implicit Types (A D : list T) (m : gmap string T) (g d : T).

Lemma classify_fold_created D cs us m cs' us' m' d :
  foldl (classify key differs adopt) (cs, us, m) D = (cs', us', m') →
  d ∈ cs' → d ∈ cs ∨ d ∈ D.
Proof.
  revert cs us m. induction D as [|d0 D IH]; intros cs us m.
  - intros [= <- _ _]. by left.
  - rewrite foldl_step.
    destruct (classify key differs adopt (cs, us, m) d0)
      as [[cs1 us1] m1] eqn:Hstep.
    apply classify_cases in Hstep as [-> Hstep].
    intros Hfold Hd. destruct (IH _ _ _ Hfold Hd) as [Hin|Hin].
    + destruct Hstep as [(_ & -> & _)|(g & _ & -> & _)]; [|by left].
      apply elem_of_app in Hin as [Hin|Hin]; [by left|].
      apply list_elem_of_singleton in Hin as ->. right. left.
    + right. by right.
Qed.

Lemma classify_fold_kept D cs us m cs' us' m' u :
  foldl (classify key differs adopt) (cs, us, m) D = (cs', us', m') →
  u ∈ us → u ∈ us'.
Proof.
  revert cs us m. induction D as [|d0 D IH]; intros cs us m.
  - by intros [= _ <- _].
  - rewrite foldl_step.
    destruct (classify key differs adopt (cs, us, m) d0)
      as [[cs1 us1] m1] eqn:Hstep.
    apply classify_cases in Hstep as [-> Hstep].
    intros Hfold Hu. apply (IH _ _ _ Hfold).
    destruct Hstep as [(_ & _ & ->)|(g & _ & _ & [[_ ->]|[_ ->]])];
      [done| |done].
    apply elem_of_app. by left.
Qed.

(** Every desired entity is accounted for: it is to create, or the
    map held an entity of its identity, from which it differs and
    is to update, or does not differ. *)
Lemma classify_fold_covers D cs us m cs' us' m' d :
  foldl (classify key differs adopt) (cs, us, m) D = (cs', us', m') →
  d ∈ D →
  d ∈ cs' ∨
  ∃ g, m !! key d = Some g ∧
       ((differs g d = true ∧ adopt g d ∈ us') ∨ differs g d = false).
Proof.
  revert cs us m. induction D as [|d0 D IH]; intros cs us m.
  - by intros _ ?%elem_of_nil.
  - rewrite foldl_step.
    destruct (classify key differs adopt (cs, us, m) d0)
      as [[cs1 us1] m1] eqn:Hstep.
    apply classify_cases in Hstep as [-> Hstep].
    intros Hfold Hd. apply elem_of_cons in Hd as [->|Hd].
    + destruct Hstep as [(_ & -> & _)|(g & Hg & _ & [[Hdiff ->]|[Hdiff _]])].
      * left. apply (classify_fold_absent _ _ _ _ _ _ _ _ _ _ _ Hfold).
        left. apply elem_of_app. right. left.
      * right. exists g. split; [done|]. left. split; [done|].
        apply (classify_fold_kept _ _ _ _ _ _ _ _ Hfold).
        apply elem_of_app. right. left.
      * right. exists g. split; [done|]. by right.
    + destruct (IH _ _ _ Hfold Hd) as [Hin|(g & Hg & Hcase)]; [by left|].
      right. exists g. split; [|done].
      by apply lookup_delete_Some in Hg as [_ Hg].
Qed.

(** An identity left in the map when the loop ends is that of a
    remote entity, and of no desired entity. *)
Lemma classify_fold_left A D cs us m k g :
  foldl (classify key differs adopt) ([], [], index key A) D = (cs, us, m) →
  m !! k = Some g →
  g ∈ A ∧ key g = k ∧ k ∉ key <$> D.
Proof.
  intros ->%classify_fold_map [Hk Hg]%lookup_foldr_delete_Some.
  by apply index_lookup_Some in Hg as [? ?].
Qed.

End Accounted.

Lemma map_range_lookup {V} (m : gmap string V) k v :
  (k, v) ∈ map_range m ↔ m !! k = Some v.
Proof. by rewrite map_range_perm, elem_of_map_to_list. Qed.

(** X9. Whatever the two lists of labels, duplicates included, every
    call of [updateLabels] is called for: it deletes only labels of
    the remote snapshot whose name no desired label has, so never a
    desired label; it creates only desired labels; and it edits only
    a desired label that differs from a remote label of its name. It
    makes no other call. *)
Theorem updateLabels_justified client owner name githubLabels labelsSettings :
  emits (updateLabels client owner name githubLabels labelsSettings)
    (Forall (λ x, label_call_justified githubLabels labelsSettings x.1)).
Proof.
  pose proof (only_sequential
                (label_call_justified githubLabels labelsSettings)) as HQ.
  change (returns (updateLabels client owner name githubLabels labelsSettings)
            (only (label_call_justified githubLabels labelsSettings) unit)).
  unfold updateLabels.
  destruct (diff_labels githubLabels labelsSettings) as [[cs us] m] eqn:Hdiff.
  rewrite diff_labels_classify in Hdiff.
  apply (sequential_bind _ HQ); [|intros _; apply (sequential_bind _ HQ)];
    [..|intros _]; apply (sequential_for_each _ HQ); intros x Hx;
    apply (sequential_wrapping _ HQ), sequential_tell, admits_only; simpl.
  - apply list_elem_of_fmap in Hx as ([k g] & -> & Hin%map_range_lookup).
    destruct (classify_fold_left _ _ _ _ _ _ _ _ _ _ Hdiff Hin)
      as (Hg & <- & Hfree).
    split; [|done]. apply list_elem_of_fmap. eauto.
  - destruct (classify_fold_created _ _ _ _ _ _ _ _ _ _ _ Hdiff Hx)
      as [Hnil|Hin]; [by apply elem_of_nil in Hnil|].
    by exists x.
  - destruct (classify_fold_changed _ _ _ _ _ _ _ _ _ _ x Hdiff Hx)
      as [Hnil|(d & g & Hd & Hg & -> & Hdiff')];
      [by apply elem_of_nil in Hnil|].
    apply index_lookup_Some in Hg as [Hg Hkey].
    exists d, g. split_and!; [done..| |done|done].
    unfold label_differs in Hdiff'. by apply bool_decide_eq_true in Hdiff'.
Qed.

Lemma updateLabels_Ok client owner name githubLabels labelsSettings s s'
    cs us m :
  diff_labels githubLabels labelsSettings = (cs, us, m) →
  updateLabels client owner name githubLabels labelsSettings s = (Ok tt, s') →
  log s' = log s
    ++ ((λ n, (Issues_DeleteLabel owner name n, None)) <$> (map_range m).*1)
    ++ ((λ d, (Issues_CreateLabel owner name (github_label d), None)) <$> cs)
    ++ ((λ d, (Issues_EditLabel owner name (label.Name d) (github_label d),
               None)) <$> us).
Proof.
  unfold updateLabels. intros -> H.
  apply bind_Ok in H as ([] & s1 & H1%for_each_Ok & H).
  apply bind_Ok in H as ([] & s2 & H2%for_each_Ok & H3%for_each_Ok).
  by rewrite H3, H2, H1, <- !app_assoc.
Qed.

(** X10. A run of [updateLabels] that returns no error leaves no
    desired label out, whatever the two lists: each desired label is
    in the remote snapshot as it is, or was sent in a call that
    creates it, or in a call that edits the label of its name; and a
    desired label whose name no remote label has was sent in a call
    that creates it. *)
Theorem updateLabels_covers client owner name githubLabels labelsSettings
    s s' d :
  updateLabels client owner name githubLabels labelsSettings s = (Ok tt, s') →
  d ∈ labelsSettings →
  ∃ l, log s' = log s ++ l ∧
       (d ∈ githubLabels ∨
        (Issues_CreateLabel owner name (github_label d), None) ∈ l ∨
        (Issues_EditLabel owner name (label.Name d) (github_label d), None)
        ∈ l) ∧
       (label.Name d ∉ label.Name <$> githubLabels →
        (Issues_CreateLabel owner name (github_label d), None) ∈ l).
Proof.
  intros Hrun Hd.
  destruct (diff_labels githubLabels labelsSettings) as [[cs us] m] eqn:Hdiff.
  rewrite (updateLabels_Ok _ _ _ _ _ _ _ _ _ _ Hdiff Hrun).
  rewrite diff_labels_classify in Hdiff.
  eexists. split; [done|].
  assert (∀ d, d ∈ cs →
            ((Issues_CreateLabel owner name (github_label d), None)
             : call * option error)
            ∈ ((λ n, (Issues_DeleteLabel owner name n, None))
                 <$> (map_range m).*1)
              ++ ((λ d, (Issues_CreateLabel owner name (github_label d), None))
                    <$> cs)
              ++ ((λ d, (Issues_EditLabel owner name (label.Name d)
                           (github_label d), None)) <$> us)) as Hcreate.
  { intros d' Hd'. apply elem_of_app. right. apply elem_of_app. left.
    apply list_elem_of_fmap. by exists d'. }
  split.
  - destruct (classify_fold_covers _ _ _ _ _ _ _ _ _ _ _ Hdiff Hd)
      as [Hin|(g & Hg & [[Hdiffers Hin]|Hsame])].
    + right. left. by apply Hcreate.
    + right. right. apply elem_of_app. right. apply elem_of_app. right.
      apply list_elem_of_fmap. by exists d.
    + left. unfold label_differs in Hsame.
      apply bool_decide_eq_false in Hsame. apply dec_stable in Hsame as ->.
      by apply index_lookup_Some in Hg as [? _].
  - intros Hfresh. apply Hcreate.
    apply (classify_fold_absent _ _ _ _ _ _ _ _ _ _ _ Hdiff).
    right. split; [done|]. by apply index_lookup_None.
Qed.

Lemma diff_branches_justified client owner name githubBranches
    branchesSettings :
  returns (diff_branches client owner name githubBranches branchesSettings)
    (only (branch_call_justified (fmtGithubURL owner name (token client))
             githubBranches branchesSettings) _).
Proof.
  pose proof (only_sequential
                (branch_call_justified (fmtGithubURL owner name (token client))
                   githubBranches branchesSettings)) as HQ.
  unfold diff_branches, diff_branch, createBranch.
  apply (sequential_for_range _ HQ). intros d [tu m] Hd.
  only_steps HQ.
  apply sequential_tell, admits_only. simpl. by exists d.
Qed.

Lemma diff_branches_good client owner name githubBranches branchesSettings
    s toUpdate m s1 :
  diff_branches client owner name githubBranches branchesSettings s
  = (Ok (toUpdate, m), s1) →
  (∀ u, u ∈ toUpdate → u ∈ branchesSettings) ∧
  (∀ k g, m !! k = Some g →
          g ∈ githubBranches ∧ branch.Name g = k ∧
          k ∉ branch.Name <$> branchesSettings) ∧
  (∀ d, d ∈ branchesSettings → d ∈ githubBranches ∨ d ∈ toUpdate).
Proof.
  intros (cs & us & hashes & Hfold & Hto & _)%diff_branches_Ok.
  split_and!.
  - intros u [Hu|Hu]%Hto.
    + destruct (classify_fold_created _ _ _ _ _ _ _ _ _ _ _ Hfold Hu)
        as [Hnil|Hin]; [by apply elem_of_nil in Hnil|done].
    + destruct (classify_fold_changed _ _ _ _ _ _ _ _ _ _ u Hfold Hu)
        as [Hnil|(d & g & Hd & _ & -> & _)];
        [by apply elem_of_nil in Hnil|done].
  - intros k g Hg.
    exact (classify_fold_left _ _ _ _ _ _ _ _ _ _ Hfold Hg).
  - intros d Hd.
    destruct (classify_fold_covers _ _ _ _ _ _ _ _ _ _ _ Hfold Hd)
      as [Hin|(g & Hg & [[Hdiffers Hin]|Hsame])].
    + right. apply Hto. by left.
    + right. apply Hto. by right.
    + left. unfold branch_differs, DeepEqual in Hsame.
      apply negb_false_iff, bool_decide_eq_true in Hsame as <-.
      by apply index_lookup_Some in Hg as [? _].
Qed.

(** X11. Whatever the two lists of branches, every call of
    [updateBranchSettings] is called for: a clone is made from the
    URL of the repository with the client's token; a reference is
    set only for a desired branch, and pushed with no reference
    specification; the protection is removed only from a branch of
    the remote snapshot whose name no desired branch has, so never
    from a desired branch; and the protection is updated only for a
    desired branch, with the request made of its settings. *)
Theorem updateBranchSettings_justified client owner name githubBranches
    branchesSettings :
  emits (updateBranchSettings client owner name githubBranches
           branchesSettings)
    (Forall (λ x, branch_call_justified
                    (fmtGithubURL owner name (token client))
                    githubBranches branchesSettings x.1)).
Proof.
  set (ψ := branch_call_justified (fmtGithubURL owner name (token client))
              githubBranches branchesSettings).
  pose proof (only_sequential ψ) as HQ.
  unfold updateBranchSettings.
  eapply (returns_bind _ _
            (λ r l, only ψ _ r l ∧
                    ∀ a, r = Ok a →
                         (∀ u, u ∈ a.1 → u ∈ branchesSettings) ∧
                         (∀ k g, a.2 !! k = Some g →
                                 g ∈ githubBranches ∧ branch.Name g = k ∧
                                 k ∉ branch.Name <$> branchesSettings))
            (λ _ _ l, Forall (λ x, ψ x.1) l)).
  - apply returns_Ok_intro; [apply diff_branches_justified|].
    intros s [toUpdate m] s1 H.
    by destruct (diff_branches_good _ _ _ _ _ _ _ _ _ H) as (? & ? & _).
  - intros [toUpdate m] l1 [_ Hgood].
    destruct (Hgood _ eq_refl) as [Hto Hm]. simpl in Hto, Hm.
    apply (sequential_bind _ HQ); [|intros _];
      apply (sequential_for_each _ HQ); intros x Hx;
      apply (sequential_wrapping _ HQ), sequential_tell, admits_only; simpl.
    + apply list_elem_of_fmap in Hx as ([k g] & -> & Hin%map_range_lookup).
      destruct (Hm _ _ Hin) as (Hg & <- & Hfree).
      split; [|done]. apply list_elem_of_fmap. eauto.
    + exists x. split_and!; [|done..]. by apply Hto.
  - intros a l1 r l2 [H1 _] H2. by apply Forall_app.
  - intros e l [H1 _]. exact H1.
  - intros l [H1 _]. exact H1.
Qed.

(** X12. A run of [updateBranchSettings] that returns no error
    leaves no desired branch out, whatever the two lists: each
    desired branch is in the remote snapshot as it is, or the
    protection of the branch of its name was updated with the
    request made of its settings. *)
Theorem updateBranchSettings_covers client owner name githubBranches
    branchesSettings s s' d :
  updateBranchSettings client owner name githubBranches branchesSettings s
  = (Ok tt, s') →
  d ∈ branchesSettings →
  d ∈ githubBranches ∨
  ∃ l, log s' = log s ++ l ∧
       (Repositories_UpdateBranchProtection owner name (branch.Name d)
          (protection_request d), None) ∈ l.
Proof.
  intros (toUpdate & m & s1 & Hdiff & Hlog)%updateBranchSettings_Ok Hd.
  destruct (diff_branches_good _ _ _ _ _ _ _ _ _ Hdiff) as (_ & _ & Hcovers).
  destruct (Hcovers d Hd) as [Hin|Hin]; [by left|right].
  destruct (run_extends _ _ _ _ (diff_branches_calls _ always_sequential
              client owner name githubBranches branchesSettings
              (λ c _ _ _, always_admits c)) Hdiff) as (l1 & Hl1).
  rewrite Hlog, Hl1, <- app_assoc. eexists. split; [done|].
  apply elem_of_app. right. apply elem_of_app. right.
  apply list_elem_of_fmap. by exists d.
Qed.

Lemma diff_webhooks_justified client owner name githubWebhooks
    webhooksSettings :
  returns (diff_webhooks client owner name githubWebhooks webhooksSettings)
    (only (webhook_call_justified githubWebhooks webhooksSettings) _).
Proof.
  pose proof (only_sequential
                (webhook_call_justified githubWebhooks webhooksSettings))
    as HQ.
  unfold diff_webhooks, diff_webhook.
  apply (sequential_for_range _ HQ). intros d [tu m] Hd.
  only_steps HQ.
  apply sequential_tell, admits_only. simpl. by exists d.
Qed.

Lemma diff_webhooks_good client owner name githubWebhooks webhooksSettings
    s toUpdate m s1 :
  diff_webhooks client owner name githubWebhooks webhooksSettings s
  = (Ok (toUpdate, m), s1) →
  (∀ u, u ∈ toUpdate →
        ∃ d g, d ∈ webhooksSettings ∧ g ∈ githubWebhooks ∧
               webhook.URL g = webhook.URL d ∧ u = webhook_adopt g d ∧
               webhook_differs g d = true) ∧
  (∀ k g, m !! k = Some g →
          g ∈ githubWebhooks ∧ webhook.URL g = k ∧
          k ∉ webhook.URL <$> webhooksSettings) ∧
  (∀ d, d ∈ webhooksSettings →
        (Repositories_CreateHook owner name (github_hook d), None)
        ∈ drop (length (log s)) (log s1) ∨
        ∃ g, g ∈ githubWebhooks ∧ webhook.URL g = webhook.URL d ∧
             ((webhook_differs g d = true ∧ webhook_adopt g d ∈ toUpdate) ∨
              webhook_differs g d = false)).
Proof.
  intros (cs & Hfold & Hlog)%diff_webhooks_Ok.
  split_and!.
  - intros u Hu.
    destruct (classify_fold_changed _ _ _ _ _ _ _ _ _ _ u Hfold Hu)
      as [Hnil|(d & g & Hd & Hg & -> & Hdiffers)];
      [by apply elem_of_nil in Hnil|].
    apply index_lookup_Some in Hg as [Hg Hkey]. by exists d, g.
  - intros k g Hg.
    exact (classify_fold_left _ _ _ _ _ _ _ _ _ _ Hfold Hg).
  - intros d Hd. rewrite Hlog, drop_app_length.
    destruct (classify_fold_covers _ _ _ _ _ _ _ _ _ _ _ Hfold Hd)
      as [Hin|(g & Hg & Hcase)].
    + left. apply list_elem_of_fmap. by exists d.
    + right. apply index_lookup_Some in Hg as [Hg Hkey]. by exists g.
Qed.

Lemma webhook_differs_true g d :
  webhook.URL g = webhook.URL d → webhook_differs g d = true →
  webhook.ContentType g ≠ webhook.ContentType d ∨
  webhook.Events g ≠ webhook.Events d.
Proof.
  intros Hurl Hdiffers.
  destruct (decide (webhook.ContentType g = webhook.ContentType d)) as [Ht|];
    [|by left].
  destruct (decide (webhook.Events g = webhook.Events d)) as [He|];
    [|by right].
  assert (webhook_differs g d = false) as Hsame
    by by apply webhook_differs_false.
  congruence.
Qed.

(** X13. Whatever the two lists of webhooks, every call of
    [updateWebhooks] is called for: it creates only desired
    webhooks; it deletes only a webhook of the remote snapshot whose
    URL no desired webhook has, under the identifier the remote gave
    it; and it edits only under the identifier of a remote webhook
    that has the URL of the desired webhook it sends and another
    content type or other events. The identifier written in the
    desired settings is never used. *)
Theorem updateWebhooks_justified client owner name githubWebhooks
    webhooksSettings :
  emits (updateWebhooks client owner name githubWebhooks webhooksSettings)
    (Forall (λ x, webhook_call_justified githubWebhooks webhooksSettings
                    x.1)).
Proof.
  set (ψ := webhook_call_justified githubWebhooks webhooksSettings).
  pose proof (only_sequential ψ) as HQ.
  unfold updateWebhooks.
  eapply (returns_bind _ _
            (λ r l, only ψ _ r l ∧
                    ∀ a, r = Ok a →
                         (∀ u, u ∈ a.1 →
                               ∃ d g, d ∈ webhooksSettings ∧
                                      g ∈ githubWebhooks ∧
                                      webhook.URL g = webhook.URL d ∧
                                      u = webhook_adopt g d ∧
                                      webhook_differs g d = true) ∧
                         (∀ k g, a.2 !! k = Some g →
                                 g ∈ githubWebhooks ∧ webhook.URL g = k ∧
                                 k ∉ webhook.URL <$> webhooksSettings))
            (λ _ _ l, Forall (λ x, ψ x.1) l)).
  - apply returns_Ok_intro; [apply diff_webhooks_justified|].
    intros s [toUpdate m] s1 H.
    by destruct (diff_webhooks_good _ _ _ _ _ _ _ _ _ H) as (? & ? & _).
  - intros [toUpdate m] l1 [_ Hgood].
    destruct (Hgood _ eq_refl) as [Hto Hm]. simpl in Hto, Hm.
    apply (sequential_bind _ HQ); [|intros _];
      apply (sequential_for_each _ HQ); intros x Hx;
      apply (sequential_wrapping _ HQ), sequential_tell, admits_only; simpl.
    + apply list_elem_of_fmap in Hx as ([k g] & -> & Hin%map_range_lookup).
      destruct (Hm _ _ Hin) as (Hg & <- & Hfree). by exists g.
    + destruct (Hto _ Hx) as (d & g & Hd & Hg & Hurl & -> & Hdiffers).
      exists d, g. split_and!; [done..|].
      by apply webhook_differs_true.
  - intros a l1 r l2 [H1 _] H2. by apply Forall_app.
  - intros e l [H1 _]. exact H1.
  - intros l [H1 _]. exact H1.
Qed.

Lemma updateWebhooks_Ok client owner name githubWebhooks webhooksSettings
    s s' :
  updateWebhooks client owner name githubWebhooks webhooksSettings s
  = (Ok tt, s') →
  ∃ toUpdate m s1,
    diff_webhooks client owner name githubWebhooks webhooksSettings s
    = (Ok (toUpdate, m), s1) ∧
    log s' = log s1
      ++ ((λ g, (Repositories_DeleteHook owner name (webhook.ID g), None))
            <$> (map_range m).*2)
      ++ ((λ u, (Repositories_EditHook owner name (webhook.ID u)
                   (github_hook u), None)) <$> toUpdate).
Proof.
  unfold updateWebhooks. intros H.
  apply bind_Ok in H as ([toUpdate m] & s1 & Hdiff & H).
  apply bind_Ok in H as ([] & s2 & Hremove%for_each_Ok & Hupdate%for_each_Ok).
  exists toUpdate, m, s1. split; [done|].
  by rewrite Hupdate, Hremove, <- app_assoc.
Qed.

(** X14. A run of [updateWebhooks] that returns no error leaves no
    desired webhook out, whatever the two lists: each desired
    webhook was sent in a call that creates it, or the remote
    snapshot holds a webhook of its URL, which either has its
    content type and its events, or was edited, under the remote's
    identifier, to what the desired webhook says. *)
Theorem updateWebhooks_covers client owner name githubWebhooks
    webhooksSettings s s' d :
  updateWebhooks client owner name githubWebhooks webhooksSettings s
  = (Ok tt, s') →
  d ∈ webhooksSettings →
  ∃ l, log s' = log s ++ l ∧
       ((Repositories_CreateHook owner name (github_hook d), None) ∈ l ∨
        ∃ g, g ∈ githubWebhooks ∧ webhook.URL g = webhook.URL d ∧
             ((Repositories_EditHook owner name (webhook.ID g)
                 (github_hook d), None) ∈ l ∨
              (webhook.ContentType g = webhook.ContentType d ∧
               webhook.Events g = webhook.Events d))).
Proof.
  intros (toUpdate & m & s1 & Hdiff & Hlog)%updateWebhooks_Ok Hd.
  destruct (diff_webhooks_good _ _ _ _ _ _ _ _ _ Hdiff) as (_ & _ & Hcovers).
  destruct (run_extends _ _ _ _ (diff_webhooks_calls _ always_sequential
              client owner name githubWebhooks webhooksSettings
              (λ c _ _ _, always_admits c)) Hdiff) as (l1 & Hl1).
  rewrite Hlog, Hl1, <- app_assoc. eexists. split; [done|].
  specialize (Hcovers d Hd). rewrite Hl1, drop_app_length in Hcovers.
  destruct Hcovers as [Hin|(g & Hg & Hurl & [[Hdiffers Hin]|Hsame])].
  - left. apply elem_of_app. by left.
  - right. exists g. split_and!; [done..|]. left.
    apply elem_of_app. right. apply elem_of_app. right.
    apply list_elem_of_fmap. by exists (webhook_adopt g d).
  - right. exists g. split_and!; [done..|]. right.
    by apply webhook_differs_false in Hsame as (_ & ? & ?).
Qed.

(** ** The Branch Materializer on a list of names *)

(** X15. [createBranch] as it is declared, on a list of branch
    names, when it returns no error: the repository is cloned once
    from the URL and its head is read once, from the world the clone
    has left; then, for each name in order, the reference
    refs/heads/name is set to the commit of that head, the same for
    every name, and pushed with no reference specification. On an
    empty list it still clones and reads the head. *)
Theorem createBranch_references client branches url s s' :
  createBranch client branches url s = (Ok tt, s') →
  ∃ hash,
    head_of_clone url (world s) hash ∧
    log s' = log s
             ++ [(git_Clone url, None); (Repository_Head, None)]
             ++ mjoin ((λ branch,
                          [(Storer_SetReference ("refs/heads/" +:+ branch)
                              hash, None);
                           (Repository_Push [], None)]) <$> branches).
Proof. apply createBranch_run. Qed.

(** ** Loading the desired settings *)

Lemma GetSettingsFromFile_run file s :
  ∃ o,
    log (GetSettingsFromFile file s).2 = log s ++ [(ioutil_ReadFile file, o)] ∧
    match (GetSettingsFromFile file s).1 with
    | Ok _ => o = None
    | Err e =>
        (∃ cause, o = Some cause ∧
                  e = Wrap cause "Error while reading settings file") ∨
        (o = None ∧
         ∃ content cause,
           yaml_Unmarshal content = Failure cause ∧
           e = Wrap cause "Error while unmarshal settings")
    | Panic => False
    end.
Proof.
  unfold GetSettingsFromFile, mbind, M_bind, bind, wrapping, ask, lift.
  destruct (read_file file (world s)) as [[content|e] w]; simpl.
  - destruct (yaml_Unmarshal content) as [raw|e] eqn:Hraw; simpl;
      (exists None; split; [done|]); [done|].
    right. split; [done|]. by exists content, e.
  - exists (Some e). split; [done|]. left. by exists e.
Qed.


Lemma normalize_branch_keeps b :
  branch.Name (normalize_branch b) = branch.Name b ∧
  protection.EnforceAdmins (branch.Protection (normalize_branch b))
  = protection.EnforceAdmins (branch.Protection b) ∧
  protection.RequiredStatusChecks (branch.Protection (normalize_branch b))
  = protection.RequiredStatusChecks (branch.Protection b) ∧
  review_count (normalize_branch b) = review_count b ∧
  (review_count b ≠ 0 →
   DismissStaleReviews (normalize_branch b) = DismissStaleReviews b ∧
   RequireCodeOwnerReviews (normalize_branch b) = RequireCodeOwnerReviews b).
Proof.
  unfold normalize_branch.
  by destruct (decide (review_count b = 0)).
Qed.

(** X17. Loading changes nothing but what C5 says. The settings
    [GetSettingsFromFile] returns are the decoded ones, for the
    content that was read, with the same repository attributes,
    labels, webhooks and topics, and the same branches in the same
    order: each keeps its name, its enforcement for administrators,
    its required status checks and its review count, and, when the
    count is not zero, its two review flags. *)
Theorem GetSettingsFromFile_keeps file s settings s' :
  GetSettingsFromFile file s = (Ok settings, s') →
  ∃ content raw,
    read_file file (world s) = (Success content, world s') ∧
    yaml_Unmarshal content = Success raw ∧
    Settings.Repository settings = Settings.Repository raw ∧
    Settings.Labels settings = Settings.Labels raw ∧
    Settings.Webhooks settings = Settings.Webhooks raw ∧
    Settings.Topics settings = Settings.Topics raw ∧
    Forall2 (λ b r,
               branch.Name b = branch.Name r ∧
               protection.EnforceAdmins (branch.Protection b)
               = protection.EnforceAdmins (branch.Protection r) ∧
               protection.RequiredStatusChecks (branch.Protection b)
               = protection.RequiredStatusChecks (branch.Protection r) ∧
               review_count b = review_count r ∧
               (review_count r ≠ 0 →
                DismissStaleReviews b = DismissStaleReviews r ∧
                RequireCodeOwnerReviews b = RequireCodeOwnerReviews r))
            (Settings.Branches settings) (Settings.Branches raw).
Proof.
  unfold GetSettingsFromFile, mbind, M_bind, bind, wrapping, ask, lift.
  destruct (read_file file (world s)) as [[content|e] w]; simpl; [|done].
  destruct (yaml_Unmarshal content) as [raw|e] eqn:Hraw; simpl; [|done].
  rewrite mret_run. intros [= <- <-]. exists content, raw. simpl.
  split_and!; [done..|].
  rewrite normalize_branches_fmap. apply Forall2_fmap_l, Forall_Forall2_diag.
  apply Forall_forall. intros b _. apply normalize_branch_keeps.
Qed.

(** X18. The branches of loaded settings are normal: running the
    loop of [GetSettingsFromFile] on them again changes nothing. *)
Theorem normalize_branches_idempotent branches :
  normalize_branches (normalize_branches branches)
  = normalize_branches branches.
Proof.
  rewrite !normalize_branches_fmap, <- list_fmap_compose.
  apply list_fmap_ext. intros _ b _. simpl.
  unfold normalize_branch at 1.
  destruct (normalize_branch_normal b) as [Henabled Hflags].
  destruct (normalize_branch_keeps b) as (_ & _ & _ & Hcount & _).
  destruct (normalize_branch b) as [n [en ad [count dismiss owners] checks]].
  unfold review_count, DismissStaleReviews, RequireCodeOwnerReviews in *.
  simpl in *. subst en.
  destruct (decide (count = 0)) as [Hz|Hnz]; [|done].
  destruct (Hflags Hz) as [-> ->]. done.
Qed.

(** ** The [apply] command *)

(** X19. When the desired settings cannot be loaded, the [apply]
    command ends with the error of the loading, and has made no call
    but the reading of the file named by its config flag: the remote
    is not contacted. *)
Theorem apply_Run_load_failure flags s e s1 :
  GetSettingsFromFile (flags.config flags) s = (Err e, s1) →
  apply_Run flags s = (Err e, s1) ∧
  ∃ o, log s1 = log s ++ [(ioutil_ReadFile (flags.config flags), o)].
Proof.
  intros Hload. split.
  - unfold apply_Run. by rewrite (bind_run_Err _ _ _ _ _ Hload).
  - destruct (GetSettingsFromFile_run (flags.config flags) s)
      as (o & Hlog & _).
    rewrite Hload in Hlog. by exists o.
Qed.

(** X20. Every run of the [apply] command starts with the reading of
    the file named by its config flag, and all the calls that follow
    are addressed to one repository; a clone is made from the URL of
    that repository with the token of the token flag. *)
Theorem apply_Run_one_repository flags :
  emits (apply_Run flags) (λ l,
    ∃ o post owner name,
      l = (ioutil_ReadFile (flags.config flags), o) :: post ∧
      Forall (λ x, addressed owner name
                     (fmtGithubURL owner name (flags.token flags)) x.1)
             post).
Proof.
  intros s.
  destruct (GetSettingsFromFile_run (flags.config flags) s)
    as (o & Hlog & Hout).
  unfold apply_Run.
  destruct (GetSettingsFromFile (flags.config flags) s)
    as [[settings|e|] s1] eqn:Hload; [| |done].
  - rewrite (bind_run_Ok _ _ _ _ _ Hload).
    destruct (Apply_only_addressed (New (flags.token flags)) settings s1)
      as (post & Hpost & Haddressed).
    exists ((ioutil_ReadFile (flags.config flags), o) :: post).
    split.
    + simpl in Hlog. rewrite Hpost, Hlog, <- app_assoc. done.
    + by exists o, post,
        (repository.Owner (Settings.Repository settings)),
        (repository.Name (Settings.Repository settings)).
  - rewrite (bind_run_Err _ _ _ _ _ Hload).
    exists [(ioutil_ReadFile (flags.config flags), o)].
    split; [done|]. exists o, [], "", "". split; [done|apply Forall_nil_2].
Qed.

(** ** What is sent and what is read *)

Lemma github_hook_secret w :
  github.Hook.Config (github_hook w) !! "secret"
  = Some (github.of_string (webhook.Secret w)).
Proof.
  unfold github_hook. cbn [github.Hook.Config].
  rewrite lookup_insert_ne by done. apply lookup_insert_eq.
Qed.

Lemma github_hook_read w :
  configured (github_hook w) = true ∧
  hook_webhook (github_hook w) = webhook_set_ID 0 w.
Proof.
  unfold configured, config_is_string, hook_webhook, config_value.
  simpl forallb.
  by rewrite github_hook_url, github_hook_content_type, github_hook_secret.
Qed.

(** X21. What the reconcilers send, the reader reads back. The
    label sent on a creation or an edit is read as the label it was
    made of. The hooks sent on a creation or an edit pass the three
    type assertions of the reader, which makes of them the webhooks
    they were made of, in order, with the identifier zero of a hook
    that carries none. *)
Theorem sent_then_read (l : label.t) (webhooks acc : list webhook.t) s :
  label_of_github (github_label l) = l ∧
  for_range (github_hook <$> webhooks) read_hook acc s
  = (Ok (acc ++ (webhook_set_ID 0 <$> webhooks)), s).
Proof.
  split; [by destruct l|].
  rewrite read_hooks_run.
  assert (forallb configured (github_hook <$> webhooks) = true) as ->.
  { induction webhooks as [|w ws IH]; [done|].
    rewrite fmap_cons. simpl. rewrite IH.
    by destruct (github_hook_read w) as [-> _]. }
  rewrite <- list_fmap_compose. by f_equal.
Qed.

(** X22. [updateRepoSettings] makes no call when the snapshot of the
    repository equals the desired attributes; otherwise it makes
    exactly one call, an edit of the repository, and returns the
    error of that call, if any, wrapped once. The request carries
    neither a name nor an owner nor topics, so a difference in the
    name or the owner alone is edited on every run and never
    settled. *)
Theorem updateRepoSettings_edits_once client owner name githubRepo repo s :
  (githubRepo = repo →
   updateRepoSettings client owner name githubRepo repo s = (Ok tt, s)) ∧
  (githubRepo ≠ repo →
   ∃ o r,
     (updateRepoSettings client owner name githubRepo repo s).2.(log)
     = log s ++ [(Repositories_Edit owner name r, o)] ∧
     (updateRepoSettings client owner name githubRepo repo s).1
     = match o with
       | None => Ok tt
       | Some e => Err (Wrap e ("Error updating settings" +:+ LF))
       end ∧
     github.Repository.Name r = None ∧
     github.Repository.Owner r = None ∧
     github.Repository.Topics r = nil_slice ∧
     github.Repository.GetHasPages r = repository.HasPages repo).
Proof.
  unfold updateRepoSettings, DeepEqual. split.
  - intros ->. by rewrite bool_decide_eq_true_2.
  - intros Hne. rewrite bool_decide_eq_false_2 by done.
    unfold wrapping, tell.
    destruct (invoke _ (world s)) as [[e|] w]; simpl; eauto 10.
Qed.

End Properties.


(** * The properties on the simulated remote *)

(** C5 on the file of the examples: both entries come back enabled, and
    the entry that requires no review has lost its two review flags. *)
Lemma GetSettingsFromFile_normalized_witness :
  let loaded := run (GetSettingsFromFile "settings.yml")
                    (Demo.bare false nil_slice []) in
  GetSettingsFromFile "settings.yml"
    (mk_state (Demo.bare false nil_slice []) [])
  = (Ok (Settings_set_Branches
           (normalize_branch <$> Settings.Branches Demo.raw_settings)
           Demo.raw_settings), loaded.2) ∧
  Forall (λ b,
            protection.Enabled (branch.Protection b) = true ∧
            (review_count b = 0 →
             DismissStaleReviews b = false ∧ RequireCodeOwnerReviews b = false))
         (normalize_branch <$> Settings.Branches Demo.raw_settings).
Proof.
  assert (GetSettingsFromFile "settings.yml"
            (mk_state (Demo.bare false nil_slice []) [])
          = (Ok (Settings_set_Branches
                   (normalize_branch <$> Settings.Branches Demo.raw_settings)
                   Demo.raw_settings),
             (run (GetSettingsFromFile "settings.yml")
                  (Demo.bare false nil_slice [])).2)) as Hrun
    by (vm_compute; reflexivity).
  split; [exact Hrun|].
  exact (GetSettingsFromFile_normalized _ _ _ _ Hrun).
Defined.

(** C4 on a remote whose repository has pages enabled: the snapshot
    says they are not. *)
Lemma GetSettingsFromGithub_HasPages_witness :
  let s := mk_state (Demo.bare true (mk_slice []) []) [] in
  let actual := Settings.mk (Demo.attributes false) [] [] [] (mk_slice []) in
  github.Repository.GetHasPages (Sim.repo (world s)) = true ∧
  GetSettingsFromGithub Demo.client "octo" "settings" s
  = (Ok actual, (GetSettingsFromGithub Demo.client "octo" "settings" s).2) ∧
  repository.HasPages (Settings.Repository actual) = false ∧
  DeepEqual (Settings.Repository actual) (Demo.attributes true) = false.
Proof.
  intros s actual.
  assert (GetSettingsFromGithub Demo.client "octo" "settings" s
          = (Ok actual, (GetSettingsFromGithub Demo.client "octo" "settings" s).2))
    as Hrun by (vm_compute; reflexivity).
  destruct (GetSettingsFromGithub_HasPages _ _ _ _ _ _ Hrun) as [Hpages Hedit].
  destruct (Hedit (Demo.attributes true) eq_refl) as [Hdiffer _].
  split_and!; [reflexivity|exact Hrun|exact Hpages|exact Hdiffer].
Defined.

(** The pages flag on two runs in a row: the first run edits the
    repository and the remote then has pages enabled; the second run,
    from the state the first has left, edits the repository again. *)
Lemma Apply_edits_again_witness :
  Apply Demo.client Demo.settings_with_pages
    (mk_state (Demo.bare false (mk_slice []) []) [])
  = (Ok tt, Scenario.after_first_run) ∧
  github.Repository.HasPages (Sim.repo (world Scenario.after_first_run))
  = Some true ∧
  Apply Demo.client Demo.settings_with_pages
    (mk_state (world Scenario.after_first_run) [])
  = (Ok tt, Scenario.after_second_run) ∧
  ∃ reads rest,
    log Scenario.after_second_run
    = reads ++ (Repositories_Edit "octo" "settings"
                  (edit_request (Demo.attributes true)), None) :: rest ∧
    Forall (λ x, is_write x.1 = false) reads.
Proof.
  split_and!; [vm_compute; reflexivity..|].
  apply (Apply_edits_again Demo.client Demo.settings_with_pages
           (mk_state (world Scenario.after_first_run) [])
           Scenario.after_second_run).
  - reflexivity.
  - vm_compute. reflexivity.
Defined.

(** C1 as stated fails on a remote branch that is not desired: with the
    branches legacy and master on the remote and only master desired,
    the first run removes the protection of legacy and returns no
    error, and the second run, on the remote as the first has left it,
    removes the protection of legacy again. *)
Lemma second_run_unprotects_again :
  Apply Demo.client Scenario.only_master
    (mk_state (Demo.remote [] ["legacy"; "master"] []) [])
  = (Ok tt, Scenario.unprotected_first) ∧
  Apply Demo.client Scenario.only_master
    (mk_state (world Scenario.unprotected_first) [])
  = (Ok tt, Scenario.unprotected_second) ∧
  filter (λ c, is_write c = true) (log Scenario.unprotected_second).*1
  = [Repositories_RemoveBranchProtection "octo" "settings" "legacy"].
Proof. split_and!; vm_compute; reflexivity. Qed.

(** C1 on two runs in a row that converge: the first run deletes the
    label stale, creates the label feature and protects master; the
    second run reads a snapshot that agrees with the desired settings
    and makes no call after its reads. *)
Lemma Apply_settled_witness :
  Apply Demo.client Scenario.converging
    (mk_state (Demo.remote [Demo.stale] ["master"] []) [])
  = (Ok tt, Scenario.converged) ∧
  GetSettingsFromGithub Demo.client "octo" "settings"
    (mk_state (world Scenario.converged) [])
  = (Ok Scenario.converging, Scenario.read_again) ∧
  settled Scenario.converging Scenario.converging ∧
  Apply Demo.client Scenario.converging (mk_state (world Scenario.converged) [])
  = (Ok tt, Scenario.read_again) ∧
  ∃ reads, log Scenario.read_again = reads ∧
           Forall (λ x, is_write x.1 = false) reads.
Proof.
  assert (GetSettingsFromGithub Demo.client "octo" "settings"
            (mk_state (world Scenario.converged) [])
          = (Ok Scenario.converging, Scenario.read_again)) as Hread
    by (vm_compute; reflexivity).
  assert (settled Scenario.converging Scenario.converging) as Hsettled.
  { split; [reflexivity|].
    split.
    { split; [by apply (bool_decide_unpack _); vm_compute|].
      split; [by apply (bool_decide_unpack _); vm_compute|].
      intros x; split; intros Hx; exact Hx. }
    split.
    { split; [by apply (bool_decide_unpack _); vm_compute|].
      split; [by apply (bool_decide_unpack _); vm_compute|].
      intros x; split; intros Hx; exact Hx. }
    split.
    { split; [by apply (bool_decide_unpack _); vm_compute|].
      split; [by apply (bool_decide_unpack _); vm_compute|].
      split; intros x Hx; exfalso; revert Hx; apply not_elem_of_nil. }
    unfold same_topics; destruct (Settings.Topics _); [exact I|reflexivity]. }
  destruct (Apply_settled Demo.client Scenario.converging
              (mk_state (world Scenario.converged) [])
              Scenario.converging Scenario.read_again Hread Hsettled)
    as [Hrun Hreads].
  split_and!; [vm_compute; reflexivity|exact Hread|exact Hsettled|exact Hrun|
               exact Hreads].
Defined.

(** C3 as stated fails on labels: with the label [stale] on the remote
    and the label [feature] desired, the run deletes [stale] and then
    creates [feature], so its log is not in the order create, delete,
    update. *)
Lemma create_delete_update_counterexample :
  let s' := (run (Apply Demo.client (Demo.settings_with [Demo.feature] []))
                 (Demo.remote [Demo.stale] [] [])).2 in
  (∃ reads,
     log s' = reads
              ++ [(Issues_DeleteLabel "octo" "settings" "stale", None);
                  (Issues_CreateLabel "octo" "settings"
                     (github_label Demo.feature), None)]) ∧
  ¬ in_order uniform_turn (log s').
Proof.
  split.
  - exists [(Repositories_Get "octo" "settings", None);
            (Issues_ListLabels "octo" "settings", None);
            (Repositories_ListBranches "octo" "settings", None);
            (Repositories_ListHooks "octo" "settings", None)].
    vm_compute. reflexivity.
  - unfold in_order. apply (bool_decide_eq_false_1 _). vm_compute. reflexivity.
Qed.

(** C7 as stated fails on a nil slice against an empty one: the desired
    topics are nil, the remote lists no topic, the two sorted lists have
    the same elements, and yet the run replaces the topics. *)
Lemma topics_nil_against_empty :
  let s' := (run (updateTopicsSettings Demo.client "octo" "settings"
                    (mk_slice []) nil_slice)
                 (Demo.bare false (mk_slice []) [])).2 in
  slice_elems (sort_Strings (mk_slice []))
  = slice_elems (sort_Strings nil_slice) ∧
  log s' = [(Repositories_ReplaceAllTopics "octo" "settings" nil_slice, None)].
Proof. split; vm_compute; reflexivity. Qed.

(** On the topics [b; a; c] of the remote: against the desired [a; b]
    one call replaces them with [a; b]; against the desired [c; a; b]
    no call is made. *)
Lemma updateTopicsSettings_replaces_witness :
  let s := mk_state (Demo.bare false (mk_slice ["b"; "a"; "c"]) []) [] in
  let remote := mk_slice ["b"; "a"; "c"] in
  ¬ same_topics remote (mk_slice ["a"; "b"]) ∧
  (∃ o, log (updateTopicsSettings Demo.client "octo" "settings"
               remote (mk_slice ["a"; "b"]) s).2
        = [(Repositories_ReplaceAllTopics "octo" "settings"
              (mk_slice ["a"; "b"]), o)]) ∧
  same_topics remote (mk_slice ["c"; "a"; "b"]) ∧
  updateTopicsSettings Demo.client "octo" "settings"
    remote (mk_slice ["c"; "a"; "b"]) s = (Ok tt, s).
Proof.
  intros s remote.
  assert (¬ same_topics remote (mk_slice ["a"; "b"])) as Hdiffer.
  { intros H%Permutation_length. discriminate H. }
  assert (same_topics remote (mk_slice ["c"; "a"; "b"])) as Hsame.
  { apply sort_Strings_eq_iff. vm_compute. reflexivity. }
  split_and!; [exact Hdiffer| |exact Hsame|].
  - destruct (updateTopicsSettings_replaces Demo.client "octo" "settings"
                remote (mk_slice ["a"; "b"]) s) as (_ & _ & Hcall).
    destruct (Hcall Hdiffer) as (o & Hlog & _). by exists o.
  - destruct (updateTopicsSettings_replaces Demo.client "octo" "settings"
                remote (mk_slice ["c"; "a"; "b"]) s) as (_ & Hnone & _).
    exact (Hnone Hsame).
Defined.

(** C6 on a hook the remote lists once, with a masked secret and its
    own identifier. *)
Lemma webhook_secret_blind_witness :
  webhook.URL Demo.listed_hook = webhook.URL Demo.desired_hook ∧
  (webhook.URL Demo.desired_hook ∉ webhook.URL <$> ([] : list webhook.t)) ∧
  webhook.Secret Demo.desired_hook ≠ webhook.Secret Demo.listed_hook ∧
  webhook.ID Demo.desired_hook ≠ webhook.ID Demo.listed_hook ∧
  webhook_differs Demo.listed_hook Demo.desired_hook = false ∧
  emits (updateWebhooks (World := Sim.world) Demo.client "octo" "settings"
           [Demo.listed_hook] [Demo.desired_hook])
        (Forall (λ x, ∀ id,
           x.1 ≠ Repositories_EditHook "octo" "settings" id
                    (github_hook Demo.desired_hook))).
Proof.
  assert (webhook.URL Demo.desired_hook
          ∉ webhook.URL <$> ([] : list webhook.t)) as Hlast
    by apply not_elem_of_nil.
  destruct (webhook_secret_blind (World := Sim.world) Demo.client
              "octo" "settings" [Demo.listed_hook] [Demo.desired_hook]
              Demo.desired_hook Demo.listed_hook [] []
              eq_refl eq_refl Hlast eq_refl eq_refl)
    as (_ & Hsame & Hcalls).
  split_and!;
    [reflexivity|exact Hlast|discriminate|discriminate|exact Hsame|exact Hcalls].
Defined.

(** C6 as stated fails when the remote lists two webhooks with one
    URL: the desired hook and the first remote hook differ only in
    their secrets and identifiers, but the reconciler compares the
    desired hook with the second, whose content type is another, and
    edits it to the desired hook. The reader returns both hooks from
    such a remote. *)
Lemma webhook_secret_blind_counterexample :
  webhook.URL Demo.listed_hook = webhook.URL Demo.desired_hook ∧
  webhook_set_Secret (webhook.Secret Demo.desired_hook) Demo.listed_hook
  = webhook_set_ID (webhook.ID Demo.listed_hook) Demo.desired_hook ∧
  match (GetSettingsFromGithub Demo.client "octo" "settings"
           (mk_state Cases.with_two_hooks [])).1 with
  | Ok actual => Settings.Webhooks actual
  | _ => []
  end = [Demo.listed_hook; Cases.form_listed] ∧
  updateWebhooks Demo.client "octo" "settings"
    [Demo.listed_hook; Cases.form_listed] [Demo.desired_hook]
    (mk_state Cases.with_two_hooks [])
  = (Ok tt, Cases.two_hooks_done) ∧
  log Cases.two_hooks_done
  = [(Repositories_EditHook "octo" "settings" 43
        (github_hook Demo.desired_hook), None)].
Proof. split_and!; vm_compute; reflexivity. Qed.

(** C8 on a remote with the branch master, when master and feature-x
    are desired: feature-x is materialized, from the head of the clone
    made once master has been gone through, and its protection is
    updated later in the run. *)
Lemma new_branch_then_protection_witness :
  Demo.feature_x ∈ [Demo.master; Demo.feature_x] ∧
  (branch.Name Demo.feature_x ∉ branch.Name <$> [Demo.master]) ∧
  updateBranchSettings Demo.client "octo" "settings" [Demo.master]
    [Demo.master; Demo.feature_x] Scenario.before_branches
  = (Ok tt, Scenario.after_branches) ∧
  ∃ before after acc0 s0 pre hash mid post,
    [Demo.master; Demo.feature_x] = before ++ Demo.feature_x :: after ∧
    diff_branches Demo.client "octo" "settings" [Demo.master] before
      Scenario.before_branches
    = (Ok acc0, s0) ∧
    log s0 = pre ∧
    head_of_clone Demo.url (world s0) hash ∧
    log Scenario.after_branches
    = pre ++ materialized Demo.url "feature-x" hash ++ mid
      ++ (Repositories_UpdateBranchProtection "octo" "settings" "feature-x"
            (protection_request Demo.feature_x), None) :: post.
Proof.
  assert (Demo.feature_x ∈ [Demo.master; Demo.feature_x]) as Hdesired
    by (right; left).
  assert (branch.Name Demo.feature_x ∉ branch.Name <$> [Demo.master])
    as Hnew by (apply (bool_decide_unpack _); vm_compute; exact I).
  assert (updateBranchSettings Demo.client "octo" "settings" [Demo.master]
            [Demo.master; Demo.feature_x] Scenario.before_branches
          = (Ok tt, Scenario.after_branches)) as Hrun
    by (vm_compute; reflexivity).
  split_and!; [exact Hdesired|exact Hnew|exact Hrun|].
  destruct (new_branch_then_protection Demo.client "octo" "settings"
              [Demo.master] [Demo.master; Demo.feature_x] Demo.feature_x
              Scenario.before_branches Scenario.after_branches Hdesired Hnew)
    as [_ Hcalls].
  exact (Hcalls Hrun).
Defined.

(** C9 on a remote that has the branches legacy and master, when only
    master is desired: the protection of legacy is removed, and no call
    deletes a branch. *)
Lemma unlisted_branch_unprotected_witness :
  updateBranchSettings Demo.client "octo" "settings"
    [Demo.legacy; Demo.master] [Demo.master] Scenario.before_removal
  = (Ok tt, Scenario.after_removal) ∧
  Demo.legacy ∈ [Demo.legacy; Demo.master] ∧
  (branch.Name Demo.legacy ∉ branch.Name <$> [Demo.master]) ∧
  (∃ l, log Scenario.after_removal = l ∧
        (Repositories_RemoveBranchProtection "octo" "settings" "legacy", None)
        ∈ l) ∧
  emits (Apply (World := Sim.world) Demo.client Scenario.wanted)
        (Forall (λ x, deletes_branch x.1 = false)).
Proof.
  assert (updateBranchSettings Demo.client "octo" "settings"
            [Demo.legacy; Demo.master] [Demo.master] Scenario.before_removal
          = (Ok tt, Scenario.after_removal)) as Hrun
    by (vm_compute; reflexivity).
  assert (Demo.legacy ∈ [Demo.legacy; Demo.master]) as Hremote by left.
  assert (branch.Name Demo.legacy ∉ branch.Name <$> [Demo.master])
    as Hunlisted by (apply (bool_decide_unpack _); vm_compute; exact I).
  split_and!; [exact Hrun|exact Hremote|exact Hunlisted|..];
    destruct (unlisted_branch_unprotected Demo.client "octo" "settings"
                [Demo.legacy; Demo.master] [Demo.master] Scenario.wanted
                Demo.legacy Scenario.before_removal Scenario.after_removal
                Hrun Hremote Hunlisted) as [Hcall Hnone].
  - exact Hcall.
  - exact Hnone.
Defined.

(** C10 on a remote that refuses to delete the label stale: [Apply]
    returns the refusal, wrapped twice, the refused call is the last
    of the run, and the branch feature-x, which is desired and not on
    the remote, is not materialized. *)
Lemma Apply_label_failure_witness :
  let r := Apply Demo.client Scenario.wanted Scenario.refusing in
  (Scenario.delete_stale, Some Sim.refusal) ∈ log r.2 ∧
  kind_of Scenario.delete_stale = Labels ∧
  r.1 = Err (Wrap (Wrap Sim.refusal ("Error deleting a label" +:+ LF))
                  "Error updating repository labels") ∧
  ∃ pre, log r.2 = pre ++ [(Scenario.delete_stale, Some Sim.refusal)] ∧
         Forall (λ x, kind_of x.1 ∈ [Reader; RepositoryAttributes; Labels]) pre.
Proof.
  intros r.
  assert ((Scenario.delete_stale, Some Sim.refusal) ∈ log r.2) as Hfailed
    by (apply (bool_decide_unpack _); vm_compute; exact I).
  destruct (Apply_label_failure Demo.client Scenario.wanted Scenario.refusing)
    as (l & Hl & Hlast).
  change (log Scenario.refusing ++ l) with l in Hl. fold r in Hl, Hlast.
  rewrite <- Hl in Hlast.
  destruct (Hlast Scenario.delete_stale Sim.refusal Hfailed eq_refl)
    as [Hreturned Hpre].
  split_and!; [exact Hfailed|reflexivity|exact Hreturned|exact Hpre].
Defined.

(** C2 as stated fails in two ways. A label that is desired twice is
    to create the second time, although the remote has it; and a
    branch that is not on the remote is to update, although no remote
    branch has its name. *)
Lemma identity_diff_counterexample :
  (diff_labels [Demo.bug] [Demo.bug; Demo.bug] = ([Demo.bug], [], ∅) ∧
   ¬ stated_sets label.Name [Demo.bug] [Demo.bug; Demo.bug]
       [Demo.bug] (map_to_list (∅ : gmap string label.t)).*2 []) ∧
  ((run (diff_branches Demo.client "octo" "settings" [] [Demo.feature_x])
        (Demo.remote [] [] [])).1 = Ok ([Demo.feature_x], ∅) ∧
   ¬ stated_sets branch.Name [] [Demo.feature_x]
       [Demo.feature_x] (map_to_list (∅ : gmap string branch.t)).*2
       [Demo.feature_x]).
Proof.
  split; (split; [vm_compute; reflexivity|]).
  - intros (Hcreate & _ & _).
    destruct (Hcreate Demo.bug) as [Hstated _].
    destruct Hstated as [_ Habsent]; [left|].
    apply Habsent. left.
  - intros (_ & _ & Hupdate).
    destruct (Hupdate Demo.feature_x) as [Hstated _].
    destruct Hstated as (_ & g & Hg & _); [left|].
    by apply elem_of_nil in Hg.
Qed.

(** C2 on labels, branches and webhooks of pairwise distinct
    identities: the recoloured label bug is to update, the label
    feature is to create, and the label stale is to delete. *)
Lemma identity_diff_witness :
  let remote_labels := [Demo.bug; Demo.stale] in
  let desired_labels := [Demo.bug_recoloured; Demo.feature] in
  NoDup (label.Name <$> remote_labels) ∧
  NoDup (label.Name <$> desired_labels) ∧
  NoDup (branch.Name <$> [Demo.master; Demo.legacy]) ∧
  NoDup (branch.Name <$> [Demo.master; Demo.feature_x]) ∧
  NoDup (webhook.URL <$> [Demo.listed_hook]) ∧
  NoDup (webhook.URL <$> [Demo.desired_hook]) ∧
  diff_labels remote_labels desired_labels
  = ([Demo.feature], [Demo.bug_recoloured], {["stale" := Demo.stale]}) ∧
  (∀ d, d ∈ [Demo.feature] ↔
        d ∈ desired_labels ∧ absent_from label.Name remote_labels d) ∧
  (∀ g, g ∈ (map_to_list ({["stale" := Demo.stale]} : gmap string label.t)).*2 ↔
        g ∈ remote_labels ∧ absent_from label.Name desired_labels g) ∧
  (∀ d, d ∈ [Demo.bug_recoloured] ↔
        d ∈ desired_labels ∧
        ∃ g, g ∈ remote_labels ∧ label.Name g = label.Name d ∧ d ≠ g).
Proof.
  intros remote_labels desired_labels.
  assert (NoDup (label.Name <$> remote_labels)) as H1
    by (apply (bool_decide_unpack _); vm_compute; exact I).
  assert (NoDup (label.Name <$> desired_labels)) as H2
    by (apply (bool_decide_unpack _); vm_compute; exact I).
  assert (NoDup (branch.Name <$> [Demo.master; Demo.legacy])) as H3
    by (apply (bool_decide_unpack _); vm_compute; exact I).
  assert (NoDup (branch.Name <$> [Demo.master; Demo.feature_x])) as H4
    by (apply (bool_decide_unpack _); vm_compute; exact I).
  assert (NoDup (webhook.URL <$> [Demo.listed_hook])) as H5
    by (apply (bool_decide_unpack _); vm_compute; exact I).
  assert (NoDup (webhook.URL <$> [Demo.desired_hook])) as H6
    by (apply (bool_decide_unpack _); vm_compute; exact I).
  assert (diff_labels remote_labels desired_labels
          = ([Demo.feature], [Demo.bug_recoloured],
             {["stale" := Demo.stale]})) as Hdiff
    by (vm_compute; reflexivity).
  destruct (identity_diff (World := Sim.world) Demo.client "octo" "settings"
              remote_labels desired_labels
              [Demo.master; Demo.legacy] [Demo.master; Demo.feature_x]
              [Demo.listed_hook] [Demo.desired_hook] H1 H2 H3 H4 H5 H6)
    as (Hlabels & _ & _).
  destruct (Hlabels _ _ _ Hdiff) as (Hcreate & Hdelete & Hupdate).
  split_and!; assumption.
Defined.
(** * More properties on the simulated remote *)

(** A remote that lists a hook without a secret: the run panics in the
    reader, after its reads and before any write. *)
Lemma Apply_panics_while_reading_witness :
  configured Cases.unsecured_hook = false ∧
  Apply Demo.client (Demo.settings_with [] [])
    (mk_state Cases.with_unsecured_hook [])
  = (Panic, Cases.panicked) ∧
  GetSettingsFromGithub Demo.client "octo" "settings"
    (mk_state Cases.with_unsecured_hook [])
  = (Panic, Cases.panicked) ∧
  ∃ reads, log Cases.panicked = reads ∧
           Forall (λ x, is_write x.1 = false) reads.
Proof.
  assert (Apply Demo.client (Demo.settings_with [] [])
            (mk_state Cases.with_unsecured_hook [])
          = (Panic, Cases.panicked)) as Hrun by (vm_compute; reflexivity).
  destruct (Apply_panics_while_reading _ _ _ _ Hrun) as [Hread Hreads].
  split_and!; [reflexivity|exact Hrun|exact Hread|exact Hreads].
Defined.

(** The branches master, protected, and dev, not protected: the
    snapshot lists both in that order, and the protection is
    requested for master only. *)
Lemma read_branches_snapshot_witness :
  let s := mk_state (Cases.with_protection Cases.full_protection) [] in
  for_range [Cases.protected_master; Cases.plain_dev]
    (read_branch "octo" "settings") [] s
  = (Ok Cases.snapshot_branches, Cases.branches_read) ∧
  branch.Name <$> Cases.snapshot_branches = ["master"; "dev"] ∧
  (λ x, protection.Enabled (branch.Protection x)) <$> Cases.snapshot_branches
  = [true; false] ∧
  log Cases.branches_read = [protection_read "octo" "settings" "master"].
Proof.
  intros s.
  assert (for_range [Cases.protected_master; Cases.plain_dev]
            (read_branch "octo" "settings") [] s
          = (Ok Cases.snapshot_branches, Cases.branches_read)) as Hrun
    by (vm_compute; reflexivity).
  destruct (read_branches_snapshot _ _ _ _ _ _ _ Hrun)
    as (new & Hout & Hnames & Henabled & _ & Hlog).
  change (Cases.snapshot_branches = new) in Hout.
  rewrite <- Hout in Hnames, Henabled.
  split_and!; [exact Hrun|exact Hnames|exact Henabled|exact Hlog].
Defined.

(** A protected branch whose protection comes without required status
    checks: the reader panics. *)
Lemma read_branch_nil_protection_witness :
  let s := mk_state (Cases.with_protection Cases.bare_protection) [] in
  github.Branch.GetProtected Cases.protected_master = true ∧
  get_branch_protection "octo" "settings" "master" (world s)
  = (Success Cases.bare_protection, world s) ∧
  github.Protection.RequiredStatusChecks Cases.bare_protection = None ∧
  (read_branch "octo" "settings" Cases.protected_master [] s).1 = Panic.
Proof.
  intros s.
  assert (github.Branch.GetProtected Cases.protected_master = true)
    as Hprotected by reflexivity.
  assert (get_branch_protection "octo" "settings"
            (github.Branch.GetName Cases.protected_master) (world s)
          = (Success Cases.bare_protection, world s)) as Hget
    by (vm_compute; reflexivity).
  destruct (read_branch_nil_protection "octo" "settings"
              Cases.protected_master [] s Cases.bare_protection (world s)
              Hprotected Hget) as [[_ Hpanic] _].
  split_and!; [exact Hprotected|exact Hget|reflexivity|].
  apply Hpanic. right. reflexivity.
Defined.

(** The calls of a read of that remote. *)
Lemma GetSettingsFromGithub_log_witness :
  let s := mk_state (Cases.with_protection Cases.full_protection) [] in
  GetSettingsFromGithub Demo.client "octo" "settings" s
  = (Ok Cases.snapshot, Cases.snapshot_read) ∧
  log Cases.snapshot_read
  = [(Repositories_Get "octo" "settings", None);
     (Issues_ListLabels "octo" "settings", None);
     (Repositories_ListBranches "octo" "settings", None);
     protection_read "octo" "settings" "master";
     (Repositories_ListHooks "octo" "settings", None)].
Proof.
  intros s.
  assert (GetSettingsFromGithub Demo.client "octo" "settings" s
          = (Ok Cases.snapshot, Cases.snapshot_read)) as Hrun
    by (vm_compute; reflexivity).
  split; [exact Hrun|].
  exact (GetSettingsFromGithub_log _ _ _ _ _ _ Hrun).
Defined.

(** The labels stale and bug on the remote, bug in another colour and
    feature desired: feature, whose name the remote does not have, is
    created. *)
Lemma updateLabels_covers_witness :
  let s := mk_state (Demo.remote [Demo.stale; Demo.bug] [] []) [] in
  updateLabels Demo.client "octo" "settings" [Demo.stale; Demo.bug]
    [Demo.bug_recoloured; Demo.feature] s
  = (Ok tt, Cases.labels_done) ∧
  Demo.feature ∈ [Demo.bug_recoloured; Demo.feature] ∧
  (label.Name Demo.feature ∉ label.Name <$> [Demo.stale; Demo.bug]) ∧
  (Issues_CreateLabel "octo" "settings" (github_label Demo.feature), None)
  ∈ log Cases.labels_done.
Proof.
  intros s.
  assert (updateLabels Demo.client "octo" "settings" [Demo.stale; Demo.bug]
            [Demo.bug_recoloured; Demo.feature] s
          = (Ok tt, Cases.labels_done)) as Hrun by (vm_compute; reflexivity).
  assert (Demo.feature ∈ [Demo.bug_recoloured; Demo.feature]) as Hdesired
    by (right; left).
  assert (label.Name Demo.feature ∉ label.Name <$> [Demo.stale; Demo.bug])
    as Hfresh by (apply (bool_decide_unpack _); vm_compute; exact I).
  destruct (updateLabels_covers _ _ _ _ _ _ _ _ Hrun Hdesired)
    as (l & Hlog & _ & Hcreate).
  split_and!; [exact Hrun|exact Hdesired|exact Hfresh|].
  rewrite Hlog. exact (Hcreate Hfresh).
Defined.

(** The branch master on the remote, master and feature-x desired:
    the protection of feature-x is updated. *)
Lemma updateBranchSettings_covers_witness :
  updateBranchSettings Demo.client "octo" "settings" [Demo.master]
    [Demo.master; Demo.feature_x] Scenario.before_branches
  = (Ok tt, Scenario.after_branches) ∧
  Demo.feature_x ∈ [Demo.master; Demo.feature_x] ∧
  (Demo.feature_x ∉ [Demo.master]) ∧
  ∃ l, log Scenario.after_branches = l ∧
       (Repositories_UpdateBranchProtection "octo" "settings" "feature-x"
          (protection_request Demo.feature_x), None) ∈ l.
Proof.
  assert (updateBranchSettings Demo.client "octo" "settings" [Demo.master]
            [Demo.master; Demo.feature_x] Scenario.before_branches
          = (Ok tt, Scenario.after_branches)) as Hrun
    by (vm_compute; reflexivity).
  assert (Demo.feature_x ∈ [Demo.master; Demo.feature_x]) as Hdesired
    by (right; left).
  assert (Demo.feature_x ∉ [Demo.master]) as Hnew
    by (apply (bool_decide_unpack _); vm_compute; exact I).
  split_and!; [exact Hrun|exact Hdesired|exact Hnew|].
  destruct (updateBranchSettings_covers _ _ _ _ _ _ _ _ Hrun Hdesired)
    as [Hin|Hcall]; [destruct (Hnew Hin)|exact Hcall].
Defined.

(** The hook of the examples on the remote, desired with another
    content type: it is edited, under the identifier the remote gave
    it, or created. *)
Lemma updateWebhooks_covers_witness :
  let s := mk_state Cases.with_listed_hook [] in
  updateWebhooks Demo.client "octo" "settings" [Demo.listed_hook]
    [Cases.form_hook] s
  = (Ok tt, Cases.hooks_done) ∧
  log Cases.hooks_done
  = [(Repositories_EditHook "octo" "settings" 42
        (github_hook Cases.form_hook), None)] ∧
  ∃ l, log Cases.hooks_done = l ∧
       ((Repositories_CreateHook "octo" "settings"
           (github_hook Cases.form_hook), None) ∈ l ∨
        ∃ g, g ∈ [Demo.listed_hook] ∧
             webhook.URL g = webhook.URL Cases.form_hook ∧
             ((Repositories_EditHook "octo" "settings" (webhook.ID g)
                 (github_hook Cases.form_hook), None) ∈ l ∨
              (webhook.ContentType g = webhook.ContentType Cases.form_hook ∧
               webhook.Events g = webhook.Events Cases.form_hook))).
Proof.
  intros s.
  assert (updateWebhooks Demo.client "octo" "settings" [Demo.listed_hook]
            [Cases.form_hook] s
          = (Ok tt, Cases.hooks_done)) as Hrun by (vm_compute; reflexivity).
  split_and!; [exact Hrun|vm_compute; reflexivity|].
  apply (updateWebhooks_covers _ _ _ _ _ _ _ _ Hrun). left.
Defined.

(** Two names given to [createBranch]: one clone, one head, and both
    references set to the commit of that head, which is the head of
    the simulated working copy. *)
Lemma createBranch_references_witness :
  let s := mk_state (Demo.remote [] ["master"] []) [] in
  createBranch Demo.client ["a"; "b"] Demo.url s = (Ok tt, Cases.pushed) ∧
  head_of_clone Demo.url (world s) "c0ffee" ∧
  ∃ hash,
    head_of_clone Demo.url (world s) hash ∧
    log Cases.pushed
    = [(git_Clone Demo.url, None); (Repository_Head, None);
       (Storer_SetReference "refs/heads/a" hash, None);
       (Repository_Push [], None);
       (Storer_SetReference "refs/heads/b" hash, None);
       (Repository_Push [], None)].
Proof.
  intros s.
  assert (createBranch Demo.client ["a"; "b"] Demo.url s
          = (Ok tt, Cases.pushed)) as Hrun by (vm_compute; reflexivity).
  split_and!; [exact Hrun| |].
  - eexists _, _. split; vm_compute; reflexivity.
  - exact (createBranch_references _ _ _ _ _ Hrun).
Defined.

(** The topics [b; a] of the remote against the desired [a; c], and
    the same topics in another order. *)
Lemma updateTopicsSettings_order_witness :
  let s := mk_state (Demo.bare false (mk_slice ["b"; "a"]) []) [] in
  same_topics (mk_slice ["b"; "a"]) (mk_slice ["a"; "b"]) ∧
  same_topics (mk_slice ["a"; "c"]) (mk_slice ["c"; "a"]) ∧
  updateTopicsSettings Demo.client "octo" "settings"
    (mk_slice ["b"; "a"]) (mk_slice ["a"; "c"]) s
  = updateTopicsSettings Demo.client "octo" "settings"
      (mk_slice ["a"; "b"]) (mk_slice ["c"; "a"]) s.
Proof.
  intros s.
  assert (same_topics (mk_slice ["b"; "a"]) (mk_slice ["a"; "b"])) as Hremote
    by (apply sort_Strings_eq_iff; vm_compute; reflexivity).
  assert (same_topics (mk_slice ["a"; "c"]) (mk_slice ["c"; "a"])) as Hdesired
    by (apply sort_Strings_eq_iff; vm_compute; reflexivity).
  split_and!; [exact Hremote|exact Hdesired|].
  exact (updateTopicsSettings_order _ _ _ _ _ _ _ s Hremote Hdesired).
Defined.

(** The file of the examples, loaded. *)
Lemma GetSettingsFromFile_keeps_witness :
  let s := mk_state (Demo.bare false nil_slice []) [] in
  GetSettingsFromFile "settings.yml" s
  = (Ok (Settings_set_Branches
           (normalize_branch <$> Settings.Branches Demo.raw_settings)
           Demo.raw_settings), Cases.loaded) ∧
  ∃ content raw,
    read_file "settings.yml" (world s) = (Success content, world Cases.loaded) ∧
    yaml_Unmarshal content = Success raw ∧
    Settings.Repository Demo.raw_settings = Settings.Repository raw ∧
    Settings.Labels Demo.raw_settings = Settings.Labels raw ∧
    Settings.Webhooks Demo.raw_settings = Settings.Webhooks raw ∧
    Settings.Topics Demo.raw_settings = Settings.Topics raw ∧
    Forall2 (λ b r,
               branch.Name b = branch.Name r ∧
               protection.EnforceAdmins (branch.Protection b)
               = protection.EnforceAdmins (branch.Protection r) ∧
               protection.RequiredStatusChecks (branch.Protection b)
               = protection.RequiredStatusChecks (branch.Protection r) ∧
               review_count b = review_count r ∧
               (review_count r ≠ 0 →
                DismissStaleReviews b = DismissStaleReviews r ∧
                RequireCodeOwnerReviews b = RequireCodeOwnerReviews r))
            (normalize_branch <$> Settings.Branches Demo.raw_settings)
            (Settings.Branches raw).
Proof.
  intros s.
  assert (GetSettingsFromFile "settings.yml" s
          = (Ok (Settings_set_Branches
                   (normalize_branch <$> Settings.Branches Demo.raw_settings)
                   Demo.raw_settings), Cases.loaded)) as Hrun
    by (vm_compute; reflexivity).
  split; [exact Hrun|].
  exact (GetSettingsFromFile_keeps _ _ _ _ Hrun).
Defined.

(** The command on a file that does not exist: it ends with the error
    of the reading and has made no other call. *)
Lemma apply_Run_load_failure_witness :
  let s := mk_state (Demo.bare false nil_slice []) [] in
  let e := Wrap (external_error "no such file")
             "Error while reading settings file" in
  GetSettingsFromFile (flags.config Cases.missing) s = (Err e, Cases.not_loaded) ∧
  apply_Run Cases.missing s = (Err e, Cases.not_loaded) ∧
  log Cases.not_loaded
  = [(ioutil_ReadFile "missing.yml", Some (external_error "no such file"))].
Proof.
  intros s e.
  assert (GetSettingsFromFile (flags.config Cases.missing) s
          = (Err e, Cases.not_loaded)) as Hload by (vm_compute; reflexivity).
  destruct (apply_Run_load_failure _ _ _ _ Hload) as [Hrun _].
  split_and!; [exact Hload|exact Hrun|vm_compute; reflexivity].
Defined.

(** A remote that refuses to list its labels: the run ends with the
    error of the reader, wrapped, after two reads. *)
Lemma Apply_read_failure_witness :
  let e := Wrap Sim.refusal "Error while getting labels from github" in
  GetSettingsFromGithub Demo.client "octo" "settings" Cases.unreadable
  = (Err e, Cases.not_read) ∧
  Apply Demo.client Scenario.wanted Cases.unreadable
  = (Err (Wrap e "Error getting settings from github"), Cases.not_read) ∧
  log Cases.not_read
  = [(Repositories_Get "octo" "settings", None);
     (Issues_ListLabels "octo" "settings", Some Sim.refusal)].
Proof.
  intros e.
  assert (GetSettingsFromGithub Demo.client "octo" "settings" Cases.unreadable
          = (Err e, Cases.not_read)) as Hread by (vm_compute; reflexivity).
  destruct (Apply_read_failure Demo.client Scenario.wanted _ _ _ Hread)
    as [Hrun _].
  split_and!; [exact Hread|exact Hrun|vm_compute; reflexivity].
Defined.

